(** * postbox: a streaming writer of RFC 2822 multipart messages

    A shallow embedding of the Go package [postbox] and the properties of
    its serializer.  Go strings are [string], byte slices are [list ascii],
    the destination [io.WriteCloser] is an oracle answering every call from
    the history of the calls made so far, and every call the package makes
    on it is recorded, with its answer, in a trace. *)

From Stdlib Require Import ZArith NArith Ascii String List Lia ZifyNat.
From stdpp Require Import base list gmap strings.

(** ** Strings and byte slices *)

Abbreviation bytes := (list ascii).

(** The conversion [[]byte(s)]. *)
Abbreviation to_bytes := list_ascii_of_string.

Definition CR : string := String "013"%char EmptyString.
Definition LF : string := String "010"%char EmptyString.
Definition CRLF : string := CR +:+ LF.

(** [strings.Join(elems, sep)]. *)
Fixpoint strings_Join (elems : list string) (sep : string) : string :=
  match elems with
  | [] => EmptyString
  | [x] => x
  | x :: (_ :: _) as rest => x +:+ sep +:+ strings_Join rest sep
  end.

(** ** Errors *)

Inductive error : Type :=
| EOF                                (* io.EOF *)
| ErrUnexpectedEOF                   (* io.ErrUnexpectedEOF *)
| ErrBufferFull                      (* bufio.ErrBufferFull *)
| ErrDestination (code : nat)        (* a failure answered by the output stream *)
| ErrSource (code : nat)             (* a failure answered by a part's reader *)
| ErrInvalidHexByte (b : ascii)      (* quotedprintable: invalid hex byte *)
| ErrInvalidUnescaped (b : ascii)    (* quotedprintable: invalid unescaped byte *)
| ErrInvalidAfterEq (rest : bytes).  (* quotedprintable: invalid bytes after = *)

#[global] Instance error_eq_dec : EqDecision error.
Proof. solve_decision. Defined.

(** ** fmt: the verb [%x] on a byte slice *)

Definition ldigits : string := "0123456789abcdef".

Definition hex_digit (n : N) : ascii :=
  match String.get (N.to_nat n) ldigits with
  | Some c => c
  | None => "0"%char
  end.

(** [fmt.Sprintf("%x", b)]: two lower-case digits for every byte. *)
Fixpoint Sprintf_x (b : bytes) : string :=
  match b with
  | [] => EmptyString
  | c :: rest =>
      String (hex_digit (N.shiftr (N_of_ascii c) 4))
        (String (hex_digit (N.land (N_of_ascii c) 15)) (Sprintf_x rest))
  end.

(** ** encoding/base64: [StdEncoding] *)

Definition encodeStd : string :=
  "ABCDEFGHIJKLMNOPQRSTUVWXYZabcdefghijklmnopqrstuvwxyz0123456789+/".

Definition StdPadding : ascii := "="%char.

(** [enc.encode[i]]. *)
Definition encode_at (i : N) : ascii :=
  match String.get (N.to_nat i) encodeStd with
  | Some c => c
  | None => "A"%char
  end.

(** [Encoding.Encode]: three bytes become four digits; one or two
    trailing bytes become two or three digits and padding. *)
Fixpoint Encode (src : bytes) : bytes :=
  match src with
  | [] => []
  | [a] =>
      let val := N.shiftl (N_of_ascii a) 16 in
      [ encode_at (N.land (N.shiftr val 18) 63);
        encode_at (N.land (N.shiftr val 12) 63);
        StdPadding; StdPadding ]
  | [a; b] =>
      let val := N.lor (N.shiftl (N_of_ascii a) 16) (N.shiftl (N_of_ascii b) 8) in
      [ encode_at (N.land (N.shiftr val 18) 63);
        encode_at (N.land (N.shiftr val 12) 63);
        encode_at (N.land (N.shiftr val 6) 63);
        StdPadding ]
  | a :: b :: c :: rest =>
      let val := N.lor (N.lor (N.shiftl (N_of_ascii a) 16)
                              (N.shiftl (N_of_ascii b) 8)) (N_of_ascii c) in
      encode_at (N.land (N.shiftr val 18) 63) ::
      encode_at (N.land (N.shiftr val 12) 63) ::
      encode_at (N.land (N.shiftr val 6) 63) ::
      encode_at (N.land val 63) :: Encode rest
  end.

(** The decoding map of the alphabet ([enc.decodeMap]). *)
Definition decode_digit (c : ascii) : option N :=
  let n := N_of_ascii c in
  if (65 <=? n)%N && (n <=? 90)%N then Some (n - 65)%N
  else if (97 <=? n)%N && (n <=? 122)%N then Some (n - 71)%N
  else if (48 <=? n)%N && (n <=? 57)%N then Some (n + 4)%N
  else if (n =? 43)%N then Some 62%N
  else if (n =? 47)%N then Some 63%N
  else None.

Definition byte_of (n : N) : ascii := ascii_of_N (N.land n 255).

(** Decoding of padded base64 without line breaks (RFC 4648, section 4),
    the inverse the round trip is stated against: four digits give three
    bytes, and only the last quantum may be padded. *)
Fixpoint Decode (src : bytes) : option bytes :=
  match src with
  | [] => Some []
  | c1 :: c2 :: c3 :: c4 :: rest =>
      match decode_digit c1, decode_digit c2 with
      | Some d1, Some d2 =>
          let b1 := byte_of (N.lor (N.shiftl d1 2) (N.shiftr d2 4)) in
          if decide (c3 = StdPadding) then
            if decide (c4 = StdPadding) then
              match rest with [] => Some [b1] | _ => None end
            else None
          else
            match decode_digit c3 with
            | Some d3 =>
                let b2 := byte_of (N.lor (N.shiftl d2 4) (N.shiftr d3 2)) in
                if decide (c4 = StdPadding) then
                  match rest with [] => Some [b1; b2] | _ => None end
                else
                  match decode_digit c4 with
                  | Some d4 =>
                      let b3 := byte_of (N.lor (N.shiftl d3 6) d4) in
                      match Decode rest with
                      | Some out => Some (b1 :: b2 :: b3 :: out)
                      | None => None
                      end
                  | None => None
                  end
            | None => None
            end
      | _, _ => None
      end
  | _ => None
  end.

(** ** mime/quotedprintable: the decoding [Reader] *)

Definition is_lf (c : ascii) : bool := bool_decide (c = "010"%char).
Definition is_cr (c : ascii) : bool := bool_decide (c = "013"%char).

(** Looks for a line feed among the first [room] bytes of [d]: the line
    up to and including it, and what follows. *)
Fixpoint scan_line (room : nat) (d : bytes) : option (bytes * bytes) :=
  match room, d with
  | S room', c :: d' =>
      if is_lf c then Some ([c], d')
      else match scan_line room' d' with
           | Some (l, r) => Some (c :: l, r)
           | None => None
           end
  | _, _ => None
  end.

Definition bufio_size : nat := N.to_nat 4096.

(** [bufio.Reader.ReadSlice('\n')] over the data [d] still to come from a
    source that answers [ending] (io.EOF or a failure) once [d] is exhausted:
    the slice, the data left, and the error. *)
Definition ReadSlice (d : bytes) (ending : error) : bytes * bytes * option error :=
  match scan_line bufio_size d with
  | Some (l, r) => (l, r, None)
  | None =>
      if (bufio_size <=? length d)%nat
      then (take bufio_size d, drop bufio_size d, Some ErrBufferFull)
      else (d, [], Some ending)
  end.

Definition isQPDiscardWhitespace (c : ascii) : bool :=
  is_lf c || is_cr c || bool_decide (c = " "%char) || bool_decide (c = "009"%char).

(** [bytes.TrimRightFunc]. *)
Fixpoint TrimRightFunc (l : bytes) (f : ascii -> bool) : bytes :=
  match l with
  | [] => []
  | c :: r =>
      match TrimRightFunc r f with
      | [] => if f c then [] else [c]
      | r' => c :: r'
      end
  end.

Definition HasSuffix (s suffix : bytes) : bool :=
  bool_decide (drop (length s - length suffix) s = suffix)
  && (length suffix <=? length s)%nat.

Definition HasPrefix (s prefix : bytes) : bool :=
  bool_decide (take (length prefix) s = prefix).

Definition fromHex (b : ascii) : error + N :=
  let n := N_of_ascii b in
  if (48 <=? n)%N && (n <=? 57)%N then inr (n - 48)%N
  else if (65 <=? n)%N && (n <=? 70)%N then inr (n - 65 + 10)%N
  else if (97 <=? n)%N && (n <=? 102)%N then inr (n - 97 + 10)%N
  else inl (ErrInvalidHexByte b).

Definition emit (b : ascii) (r : bytes * option error) : bytes * option error :=
  (b :: fst r, snd r).

(** The byte loop of [Reader.Read] over one prepared line: the decoded
    bytes and the error that stopped it, if any. *)
Fixpoint decode_line (line : bytes) : bytes * option error :=
  match line with
  | [] => ([], None)
  | b :: rest =>
      if bool_decide (b = "="%char) then
        let literal (err : error) :=
          match rest with
          | c :: _ => if negb (is_cr c) && negb (is_lf c)
                      then emit "="%char (decode_line rest)
                      else ([], Some err)
          | [] => ([], Some err)
          end in
        match rest with
        | h :: l :: rest' =>
            match fromHex h with
            | inl err => literal err
            | inr hb =>
                match fromHex l with
                | inl err => literal err
                | inr lb => emit (byte_of (N.lor (N.shiftl hb 4) lb)) (decode_line rest')
                end
            end
        | _ => literal ErrUnexpectedEOF
        end
      else if bool_decide (b = "009"%char) || is_cr b || is_lf b then
        emit b (decode_line rest)
      else if (128 <=? N_of_ascii b)%N then
        emit b (decode_line rest)
      else if (N_of_ascii b <? 32)%N || (126 <? N_of_ascii b)%N then
        ([], Some (ErrInvalidUnescaped b))
      else emit b (decode_line rest)
  end.

(** What [Reader.Read] does with a slice before decoding it: trailing
    white space goes, a soft line break is checked and dropped, a hard
    line break is put back. *)
Definition prepare_line (wholeLine : bytes) (rerr : option error)
  : bytes * option error :=
  let hasLF := HasSuffix wholeLine (to_bytes LF) in
  let hasCR := HasSuffix wholeLine (to_bytes CRLF) in
  let line := TrimRightFunc wholeLine isQPDiscardWhitespace in
  if HasSuffix line ["="%char] then
    let rightStripped := drop (length line) wholeLine in
    let line := take (length line - 1) line in
    if negb (HasPrefix rightStripped (to_bytes LF))
       && negb (HasPrefix rightStripped (to_bytes CRLF))
       && negb ((length rightStripped =? 0)%nat && (0 <? length line)%nat
                && bool_decide (rerr = Some EOF))
    then (line, Some (ErrInvalidAfterEq rightStripped))
    else (line, rerr)
  else if hasLF then
    if hasCR then (line ++ to_bytes CRLF, rerr) else (line ++ to_bytes LF, rerr)
  else (line, rerr).

(** Everything a quoted-printable [Reader] delivers from the data [d] of
    its source, and the error that ends it (io.EOF after a clean end).
    Every slice read without error holds a line feed, so [fuel] above the
    length of [d] is never used up. *)
Fixpoint qp_read (fuel : nat) (d : bytes) (ending : error) : bytes * error :=
  match fuel with
  | O => ([], ending)
  | S fuel' =>
      let '(wholeLine, d', rerr) := ReadSlice d ending in
      let '(line, rerr) := prepare_line wholeLine rerr in
      match decode_line line with
      | (out, Some err) => (out, err)
      | (out, None) =>
          match rerr with
          | Some err => (out, err)
          | None => let '(out', err) := qp_read fuel' d' ending in (out ++ out', err)
          end
      end
  end.

(** ** Readers *)

(** A source of bytes: the non-empty results of its successive reads, and
    the error ([EOF] after a clean end) it answers from then on. *)
Record io_Reader : Type := mkReader { chunks : list bytes; ending : error }.

(** [strings.NewReader(s)]. *)
Definition strings_NewReader (s : string) : io_Reader :=
  mkReader (match s with EmptyString => [] | _ => [to_bytes s] end) EOF.

(** Cuts [d] in pieces of [size] bytes, the last one maybe shorter. *)
Fixpoint pieces (fuel size : nat) (d : bytes) : list bytes :=
  match fuel, d with
  | S fuel', _ :: _ => take size d :: pieces fuel' size (drop size d)
  | _, _ => []
  end.

Definition copy_buffer_size : nat := N.to_nat 32768.

(** [quotedprintable.NewReader(r)]: a reader that DECODES what [r]
    delivers.  [io.Copy] drains it through its buffer of 32 KiB. *)
Definition quotedprintable_NewReader (r : io_Reader) : io_Reader :=
  let d := concat (chunks r) in
  let '(out, err) := qp_read (S (length d)) d (ending r) in
  mkReader (pieces (length out) copy_buffer_size out) err.

(** ** The output stream and the trace of calls *)

Inductive Call : Type :=
| CWrite (p : bytes)
| CClose.

Record Event : Type := mkEvent { ev_call : Call; ev_err : option error }.

Definition is_write (e : Event) : Prop :=
  match ev_call e with CWrite _ => True | CClose => False end.

Definition payload (e : Event) : bytes :=
  match ev_call e with CWrite p => p | CClose => [] end.

(** The bytes handed to the stream, in order. *)
Definition written (t : list Event) : bytes := concat (map payload t).

(** [events]: the calls made on the output stream so far; [draws]: how many
    times the random source has been read. *)
Record World : Type := mkWorld { events : list Event; draws : nat }.

(** A Go computation either returns or panics. *)
Inductive Outcome (A : Type) : Type :=
| Done (a : A) (w : World)
| Panicked (w : World).
Arguments Done {A} a w.
Arguments Panicked {A} w.

Definition final {A} (o : Outcome A) : World :=
  match o with Done _ w => w | Panicked w => w end.

Definition M (A : Type) : Type := World -> Outcome A.

Definition ret {A} (a : A) : M A := fun w => Done a w.

Definition bind {A B} (m : M A) (k : A -> M B) : M B :=
  fun w => match m w with
           | Done a w' => k a w'
           | Panicked w' => Panicked w'
           end.

Definition panic {A} : M A := fun w => Panicked w.

Notation "x <- m ;; k" := (bind m (fun x => k))
  (at level 100, m at next level, right associativity).

(** [check m ;; k]: the idiom [err = m; if err != nil { return err }; k]. *)
Notation "'check' m ;; k" :=
  (bind m (fun err => match err with Some e => ret (Some e) | None => k end))
  (at level 100, m at next level, right associativity).

(** [ignore m ;; k]: a call whose results are dropped. *)
Notation "'ignore' m ;; k" := (bind m (fun _ => k))
  (at level 100, m at next level, right associativity).

(** [Headers]: a Go map from field names to lists of values. *)
Abbreviation Headers := (gmap string (list string)).

(** ** The environment of one run

    [writer] answers a call on the output stream from the events so far
    (an [io.Writer] that returns a short count also returns an error, so
    the package only ever looks at the error).  [range] is the order in
    which a [for ... range] loop visits a map: Go leaves it unspecified, so
    it is an oracle, which may answer differently at every loop.
    [rand_fail i] tells whether the [i]-th read of [crypto/rand] fails and
    [rand_byte i j] is the [j]-th byte it delivers. *)

Class TimeLib : Type := {
  Time : Type;
  IsZero : Time -> bool;
  Format_RFC1123Z : Time -> string;
}.

Record Env `{TimeLib} : Type := mkEnv {
  writer : list Event -> Call -> option error;
  range : list Event -> Headers -> list (string * list string);
  rand_fail : nat -> bool;
  rand_byte : nat -> nat -> ascii;
  time_Now : Time;
}.

(** A [range] oracle is legal when it visits every entry of the map once. *)
Definition range_legal `{TimeLib} (E : Env) : Prop :=
  forall t (h : Headers), range E t h ≡ₚ map_to_list h.

(** A stream that accepts every write. *)
Definition accepts_writes `{TimeLib} (E : Env) : Prop :=
  forall t p, writer E t (CWrite p) = None.

Section Stream.
Context `{TimeLib} (E : Env).

Definition call (c : Call) : M (option error) :=
  fun w =>
    let r := writer E (events w) c in
    Done r (mkWorld (events w ++ [mkEvent c r]) (draws w)).

(** [writer.Write(p)], keeping only the error. *)
Definition Write (p : bytes) : M (option error) := call (CWrite p).

(** [writer.Close()]. *)
Definition Close : M (option error) := call CClose.

(** [io.Copy(writer, strings.NewReader(s))]: [strings.Reader.WriteTo]
    returns at once on an empty string and otherwise hands the whole
    string to the writer in one call. *)
Definition Copy_string (s : string) : M (option error) :=
  match s with
  | EmptyString => ret None
  | _ => Write (to_bytes s)
  end.

(** The loop of [io.Copy(dst, src)] for a destination with state [S]:
    every non-empty read is written; the first failing write stops the
    copy; the error that ends the source is returned unless it is io.EOF. *)
Fixpoint copy_loop {S : Type} (write : S -> bytes -> M (S * option error))
  (dst : S) (cs : list bytes) (ending : error) : M (S * option error) :=
  match cs with
  | [] => ret (dst, if decide (ending = EOF) then None else Some ending)
  | c :: cs' =>
      if (0 <? length c)%nat then
        r <- write dst c ;;
        match r.2 with
        | Some ew => ret (r.1, Some ew)
        | None => copy_loop write r.1 cs' ending
        end
      else copy_loop write dst cs' ending
  end.

Definition io_Copy {S : Type} (write : S -> bytes -> M (S * option error))
  (dst : S) (src : io_Reader) : M (S * option error) :=
  copy_loop write dst (chunks src) (ending src).

(** The output stream as a destination of [io.Copy]. *)
Definition stream_write (_ : unit) (p : bytes) : M (unit * option error) :=
  err <- Write p ;; ret (tt, err).

(** *** The streaming encoder of encoding/base64

    [enc_err] is the sticky error, [enc_buf] the bytes waiting for a full
    group of three ([buf[:nbuf]]). *)
Record encoder : Type := mkEncoder { enc_err : option error; enc_buf : bytes }.

Definition base64_NewEncoder : encoder := mkEncoder None [].

(** The loop over the large interior chunks of [encoder.Write]: at most
    768 bytes, a multiple of three, are encoded and written at a time.
    Answers the bytes left over and the error. *)
Fixpoint encoder_interior (fuel : nat) (p : bytes) : M (bytes * option error) :=
  match fuel with
  | O => ret (p, None)
  | S fuel' =>
      if (3 <=? length p)%nat then
        let nn := if (length p <? 768)%nat
                  then (length p - length p mod 3)%nat else 768%nat in
        err <- Write (Encode (take nn p)) ;;
        match err with
        | Some e => ret (drop nn p, Some e)
        | None => encoder_interior fuel' (drop nn p)
        end
      else ret (p, None)
  end.

Definition encoder_rest (p : bytes) : M (encoder * option error) :=
  r <- encoder_interior (length p) p ;;
  match r.2 with
  | Some e => ret (mkEncoder (Some e) [], Some e)
  | None => ret (mkEncoder None r.1, None)
  end.

(** [encoder.Write(p)]. *)
Definition encoder_Write (e : encoder) (p : bytes) : M (encoder * option error) :=
  match enc_err e with
  | Some err => ret (e, Some err)
  | None =>
      if (0 <? length (enc_buf e))%nat then
        let i := Nat.min (length p) (3 - length (enc_buf e)) in
        let buf := enc_buf e ++ take i p in
        let p := drop i p in
        if (length buf <? 3)%nat then ret (mkEncoder None buf, None)
        else
          err <- Write (Encode buf) ;;
          match err with
          | Some x => ret (mkEncoder (Some x) buf, Some x)
          | None => encoder_rest p
          end
      else encoder_rest p
  end.

(** [encoder.Close()]: flushes the bytes still waiting, padded. *)
Definition encoder_Close (e : encoder) : M (encoder * option error) :=
  match enc_err e with
  | None =>
      if (0 <? length (enc_buf e))%nat then
        err <- Write (Encode (enc_buf e)) ;;
        ret (mkEncoder err [], err)
      else ret (e, None)
  | Some err => ret (e, Some err)
  end.

(** Writes one after the other, up to the first that fails. *)
Fixpoint write_all (ps : list bytes) : M (option error) :=
  match ps with
  | [] => ret None
  | p :: rest => check Write p ;; write_all rest
  end.

(** [RandomBoundary]: thirty bytes of [crypto/rand], in hexadecimal;
    panics when the random source fails. *)
Definition RandomBoundary : M string :=
  fun w =>
    if rand_fail E (draws w) then panic w
    else Done (Sprintf_x (map (rand_byte E (draws w)) (seq 0 30)))
              (mkWorld (events w) (S (draws w))).

End Stream.

(** ** The data model *)

Definition QuotedPrintable : string := "quoted-printable".
Definition Base64 : string := "base64".
Definition Unencoded : string := "8bit".

(** [Reader] holds what the part's reader delivers when [Write] drains
    it; two parts are not taken to share one reader. *)
Record Part : Type := mkPart {
  ContentType : string;
  Encoding : string;
  Reader : io_Reader;
}.

Record File : Type := mkFile {
  Name : string;
  Header : Headers;
  CopyFunc : M (option error);
}.

(** A [Boundary] writes to the one output stream of the run. *)
Record Boundary : Type := mkBoundary { Identifier : string }.

Record Envelope `{TimeLib} : Type := mkEnvelope {
  Date : Time;
  From : string;
  Sender : string;
  ReplyTo : string;
  To : list string;
  Cc : list string;
  Subject : string;
  Parts : list Part;
  Embedded : list File;
  Attachments : list File;
  Charset : string;
}.

(** * The package with error results (src/unnamed/part_000) *)

Module Postbox.
Section Postbox.
Context `{TimeLib} (E : Env).

(** The body of the loop of [Headers.Write], over the entries in the order
    the [range] visits them. *)
Fixpoint write_fields (fs : list (string * list string)) : M (option error) :=
  match fs with
  | [] => ret None
  | (property, values) :: rest =>
      check Write E (to_bytes property) ;;
      if (length values =? 0)%nat then
        check Write E (to_bytes (":" +:+ CRLF)) ;;
        write_fields rest
      else
        check Write E (to_bytes ": ") ;;
        let values := strings_Join values "; " in
        check Copy_string E values ;;
        check Write E (to_bytes CRLF) ;;
        write_fields rest
  end.

Definition Headers_Write (h : Headers) : M (option error) :=
  fun w => write_fields (range E (events w) h) w.

Definition Part_Write (p : Part) (charset : string) : M (option error) :=
  let headers : Headers :=
    {[ "Content-Type" := [ContentType p; "charset=" +:+ charset];
       "Content-Transfer-Encoding" := [Encoding p] ]} in
  check Headers_Write headers ;;
  check Write E (to_bytes CRLF) ;;
  check (if decide (Encoding p = QuotedPrintable) then
           let reader := quotedprintable_NewReader (Reader p) in
           r <- io_Copy (stream_write E) tt reader ;; ret r.2
         else if decide (Encoding p = Base64) then
           let encoder := base64_NewEncoder in
           r <- io_Copy (encoder_Write E) encoder (Reader p) ;;
           match r.2 with
           | Some e => ret (Some e)
           | None => r' <- encoder_Close E r.1 ;; ret r'.2
           end
         else
           r <- io_Copy (stream_write E) tt (Reader p) ;; ret r.2) ;;
  Write E (to_bytes CRLF).

(** [NewBoundary] drops the results of its two writes. *)
Definition NewBoundary (mime : string) : M Boundary :=
  identifier <- RandomBoundary E ;;
  let headers : Headers :=
    {[ "Content-Type" := [mime; "boundary=" +:+ identifier] ]} in
  let boundary := mkBoundary identifier in
  ignore Headers_Write headers ;;
  ignore Write E (to_bytes CRLF) ;;
  ret boundary.

Definition Boundary_Mark (b : Boundary) : M (option error) :=
  Write E (to_bytes ("--" +:+ Identifier b +:+ CRLF)).

Definition Boundary_End (b : Boundary) : M (option error) :=
  Write E (to_bytes ("--" +:+ Identifier b +:+ "--" +:+ CRLF +:+ CRLF)).

(** The loop over [e.Parts]. *)
Fixpoint write_parts (alternative : Boundary) (parts : list Part)
  (charset : string) : M (option error) :=
  match parts with
  | [] => ret None
  | part :: rest =>
      check Boundary_Mark alternative ;;
      check Part_Write part charset ;;
      write_parts alternative rest charset
  end.

(** The assignment [e.Date = t]. *)
Definition set_Date (e : Envelope) (t : Time) : Envelope :=
  mkEnvelope _ t (From e) (Sender e) (ReplyTo e) (To e) (Cc e) (Subject e)
    (Parts e) (Embedded e) (Attachments e) (Charset e).

(** The map literal of [Envelope.Write]. *)
Definition envelope_headers (e : Envelope) : Headers :=
  {[ "Date" := [Format_RFC1123Z (Date e)];
     "From" := [From e];
     "To" := To e;
     "Cc" := Cc e;
     "Reply-To" := [ReplyTo e];
     "Subject" := [Subject e];
     "Mime-Version" := ["1.0"] ]}.

(** [Envelope.Write] has a pointer receiver: the envelope it leaves behind
    is returned next to the error. *)
Definition Envelope_Write (e : Envelope) : M (Envelope * option error) :=
  let e := if IsZero (Date e) then set_Date e (time_Now E) else e in
  let headers := envelope_headers e in
  err <- (check Headers_Write headers ;;
          mixed <- NewBoundary "multipart/mixed" ;;
          check Boundary_Mark mixed ;;
          related <- NewBoundary "multipart/related" ;;
          check Boundary_Mark related ;;
          alternative <- NewBoundary "multipart/alternative" ;;
          check write_parts alternative (Parts e) (Charset e) ;;
          check Boundary_End alternative ;;
          check Boundary_End related ;;
          check Boundary_End mixed ;;
          Close E) ;;
  ret (e, err).

End Postbox.
End Postbox.

(** * The package without error results (src/main.go)

    The same methods with no result: what the stream and the parts'
    readers answer is dropped everywhere, and [Write] always goes on to
    the next statement. *)

Module Unchecked.
Section Unchecked.
Context `{TimeLib} (E : Env).

Fixpoint write_fields (fs : list (string * list string)) : M unit :=
  match fs with
  | [] => ret tt
  | (property, values) :: rest =>
      ignore Write E (to_bytes property) ;;
      if (length values =? 0)%nat then
        ignore Write E (to_bytes (":" +:+ CRLF)) ;;
        write_fields rest
      else
        ignore Write E (to_bytes ": ") ;;
        let values := strings_Join values "; " in
        ignore Copy_string E values ;;
        ignore Write E (to_bytes CRLF) ;;
        write_fields rest
  end.

Definition Headers_Write (h : Headers) : M unit :=
  fun w => write_fields (range E (events w) h) w.

Definition Part_Write (p : Part) (charset : string) : M unit :=
  let headers : Headers :=
    {[ "Content-Type" := [ContentType p; "charset=" +:+ charset];
       "Content-Transfer-Encoding" := [Encoding p] ]} in
  ignore Headers_Write headers ;;
  ignore Write E (to_bytes CRLF) ;;
  ignore (if decide (Encoding p = QuotedPrintable) then
            let reader := quotedprintable_NewReader (Reader p) in
            ignore io_Copy (stream_write E) tt reader ;; ret tt
          else if decide (Encoding p = Base64) then
            let encoder := base64_NewEncoder in
            r <- io_Copy (encoder_Write E) encoder (Reader p) ;;
            ignore encoder_Close E r.1 ;; ret tt
          else
            ignore io_Copy (stream_write E) tt (Reader p) ;; ret tt) ;;
  ignore Write E (to_bytes CRLF) ;;
  ret tt.

Definition NewBoundary (mime : string) : M Boundary :=
  identifier <- RandomBoundary E ;;
  let headers : Headers :=
    {[ "Content-Type" := [mime; "boundary=" +:+ identifier] ]} in
  let boundary := mkBoundary identifier in
  ignore Headers_Write headers ;;
  ignore Write E (to_bytes CRLF) ;;
  ret boundary.

Definition Boundary_Mark (b : Boundary) : M unit :=
  ignore Write E (to_bytes ("--" +:+ Identifier b +:+ CRLF)) ;; ret tt.

Definition Boundary_End (b : Boundary) : M unit :=
  ignore Write E (to_bytes ("--" +:+ Identifier b +:+ "--" +:+ CRLF +:+ CRLF)) ;;
  ret tt.

Fixpoint write_parts (alternative : Boundary) (parts : list Part)
  (charset : string) : M unit :=
  match parts with
  | [] => ret tt
  | part :: rest =>
      ignore Boundary_Mark alternative ;;
      ignore Part_Write part charset ;;
      write_parts alternative rest charset
  end.

Definition Envelope_Write (e : Envelope) : M Envelope :=
  let e := if IsZero (Date e) then Postbox.set_Date e (time_Now E) else e in
  let headers := Postbox.envelope_headers e in
  ignore Headers_Write headers ;;
  mixed <- NewBoundary "multipart/mixed" ;;
  ignore Boundary_Mark mixed ;;
  related <- NewBoundary "multipart/related" ;;
  ignore Boundary_Mark related ;;
  alternative <- NewBoundary "multipart/alternative" ;;
  ignore write_parts alternative (Parts e) (Charset e) ;;
  ignore Boundary_End alternative ;;
  ignore Boundary_End related ;;
  ignore Boundary_End mixed ;;
  ignore Close E ;;
  ret e.

End Unchecked.
End Unchecked.

(** * Vocabulary of the properties *)

(** ** Traces *)

Definition ok_writes (ps : list bytes) : list Event :=
  map (fun p => mkEvent (CWrite p) None) ps.

(** The world after the events [new]. *)
Definition extend (w : World) (new : list Event) : World :=
  mkWorld (events w ++ new) (draws w).

Definition accepted (e : Event) : Prop := exists p, e = mkEvent (CWrite p) None.

(** How a sequence of writes that stops at the first failure ends: all
    written, or some written and then one refused. *)
Inductive stops_at (ps : list bytes) : list Event -> option error -> Prop :=
| all_written : stops_at ps (ok_writes ps) None
| refused pre p post e :
    ps = pre ++ p :: post ->
    stops_at ps (ok_writes pre ++ [mkEvent (CWrite p) (Some e)]) (Some e).

(** [returns P m]: from every world [m] returns, having added to the
    trace only events that satisfy [P] and having left the random source
    alone. *)
Definition returns (P : Event -> Prop) {A : Type} (m : M A) : Prop :=
  forall w, exists a new, m w = Done a (extend w new) /\ Forall P new.

(** [runs P m]: whether [m] returns or panics, it has added to the trace
    only events that satisfy [P]. *)
Definition runs (P : Event -> Prop) {A : Type} (m : M A) : Prop :=
  forall w, exists new, events (final (m w)) = events w ++ new /\ Forall P new.

(** ** The header block *)

(** The writes of [Headers.Write] for one field when none fails. *)
Definition nonempty (s : string) : list bytes :=
  match s with EmptyString => [] | _ => [to_bytes s] end.

Definition field_writes (f : string * list string) : list bytes :=
  if (length f.2 =? 0)%nat then [to_bytes f.1; to_bytes (":" +:+ CRLF)]
  else [to_bytes f.1; to_bytes ": "] ++ nonempty (strings_Join f.2 "; ")
       ++ [to_bytes CRLF].

Definition header_writes (fs : list (string * list string)) : list bytes :=
  concat (map field_writes fs).

(** The line of one field. *)
Definition header_line (f : string * list string) : string :=
  match f.2 with
  | [] => f.1 +:+ ":" +:+ CRLF
  | _ => f.1 +:+ ": " +:+ strings_Join f.2 "; " +:+ CRLF
  end.

Definition header_block (fs : list (string * list string)) : bytes :=
  concat (map (fun f => to_bytes (header_line f)) fs).

(** ** Boundaries *)

(** The thirty bytes of the [i]-th read of the random source, and the
    boundary token made of them. *)
Definition random_block `{TimeLib} (E : Env) (i : nat) : bytes :=
  map (rand_byte E i) (seq 0 30).

Definition token `{TimeLib} (E : Env) (i : nat) : string :=
  Sprintf_x (random_block E i).

Definition is_lower_hex (c : ascii) : bool :=
  let n := N_of_ascii c in
  ((48 <=? n)%N && (n <=? 57)%N) || ((97 <=? n)%N && (n <=? 102)%N).

(** Sixty lower-case hexadecimal digits. *)
Definition hex_token (s : string) : Prop :=
  String.length s = 60%nat /\ Forall (fun c => is_lower_hex c = true) (to_bytes s).

(** Reads two hexadecimal digits back. *)
Definition unhex (hi lo : ascii) : ascii :=
  let digit c := let n := N_of_ascii c in
                 if (n <=? 57)%N then (n - 48)%N else (n - 87)%N in
  ascii_of_N (digit hi * 16 + digit lo).

(** The writes of [NewBoundary]. *)
Definition declaration (mime id : string) : list bytes :=
  field_writes ("Content-Type", [mime; "boundary=" +:+ id]) ++ [to_bytes CRLF].

(** The delimiter written by [Mark] and the one written by [End]. *)
Definition mark (id : string) : bytes := to_bytes ("--" +:+ id +:+ CRLF).
Definition close_marker (id : string) : bytes :=
  to_bytes ("--" +:+ id +:+ "--" +:+ CRLF +:+ CRLF).

(** ** Parts *)

(** The headers of a part. *)
Definition part_headers (p : Part) (charset : string) : Headers :=
  {[ "Content-Type" := [ContentType p; "charset=" +:+ charset];
     "Content-Transfer-Encoding" := [Encoding p] ]}.

(** [block] is what [Part.Write] writes for [part] on some run, returning
    without error where it has a result. *)
Definition part_block `{TimeLib} (E : Env) (charset : string) (part : Part)
  (block : list bytes) : Prop :=
  exists w0, Postbox.Part_Write E part charset w0
             = Done None (extend w0 (ok_writes block)).

Definition unchecked_part_block `{TimeLib} (E : Env) (charset : string)
  (part : Part) (block : list bytes) : Prop :=
  exists w0, Unchecked.Part_Write E part charset w0
             = Done tt (extend w0 (ok_writes block)).

(** The length of the longest prefix made of whole groups of three. *)
Definition whole (p : bytes) : nat := (length p - length p mod 3)%nat.

(** ** The envelope *)

(** The envelope [Envelope.Write] works on and leaves behind. *)
Definition dated `{TimeLib} (E : Env) (e : Envelope) : Envelope :=
  if IsZero (Date e) then Postbox.set_Date e (time_Now E) else e.


(** Everything a complete run of [Envelope.Write] asks of the stream: the
    header block [hdr], the three nested multipart levels with the blocks
    of the parts in the innermost one, and the close, answered [r]. *)
Definition message (hdr : list bytes) (mixed related alternative : string)
  (blocks : list (list bytes)) (r : option error) : list Event :=
  ok_writes
    (hdr
     ++ declaration "multipart/mixed" mixed ++ [mark mixed]
     ++ declaration "multipart/related" related ++ [mark related]
     ++ declaration "multipart/alternative" alternative
     ++ concat (map (fun block => mark alternative :: block) blocks)
     ++ [close_marker alternative; close_marker related; close_marker mixed])
  ++ [mkEvent CClose r].

(** ** Closing the stream *)

(** How a run of [Envelope.Write] that started after the events [old] may
    end: having closed the stream as its last call, whose answer it
    returns; having returned an error without a call to close; or in a
    panic without a call to close. *)
Inductive close_discipline {A : Type} (old : list Event)
  : Outcome (A * option error) -> Prop :=
| closed_last a r ws w' :
    Forall is_write ws ->
    events w' = old ++ ws ++ [mkEvent CClose r] ->
    close_discipline old (Done (a, r) w')
| returned_early a err ws w' :
    Forall is_write ws ->
    events w' = old ++ ws ->
    close_discipline old (Done (a, Some err) w')
| panicked ws w' :
    Forall is_write ws ->
    events w' = old ++ ws ->
    close_discipline old (Panicked w').

Definition disciplined (m : M (option error)) : Prop :=
  forall w, close_discipline (events w) (bind m (fun err => ret (tt, err)) w).

(** How a run of the variant of src/main.go ends: having closed the
    stream as its last call, or in a panic without having closed it. *)
Inductive closes_at_end {A : Type} (old : list Event) : Outcome A -> Prop :=
| unchecked_closed a r ws w' :
    Forall is_write ws ->
    events w' = old ++ ws ++ [mkEvent CClose r] ->
    closes_at_end old (Done a w')
| unchecked_panicked ws w' :
    Forall is_write ws ->
    events w' = old ++ ws ->
    closes_at_end old (Panicked w').

(** ** Concrete runs *)

Module Example.

(** A stand-in for package time: seconds as [Z], one fixed rendering. *)
Definition clock : TimeLib :=
  Build_TimeLib Z (Z.eqb 0) (fun _ => "Tue, 10 Nov 2009 23:00:00 +0100").

(** A stream that accepts everything; the [range] visits a map in the
    order of [map_to_list]; the random source counts upwards. *)
Definition steady : @Env clock :=
  @mkEnv clock (fun _ _ => None) (fun _ h => map_to_list h)
    (fun _ => false) (fun i j => ascii_of_nat (30 * i + j)) 1257894000%Z.

(** The same, with every [range] in the opposite order. *)
Definition reversed : @Env clock :=
  @mkEnv clock (fun _ _ => None) (fun _ h => reverse (map_to_list h))
    (fun _ => false) (fun i j => ascii_of_nat (30 * i + j)) 1257894000%Z.

(** A stream that refuses every write. *)
Definition broken : @Env clock :=
  @mkEnv clock
    (fun _ c => match c with CWrite _ => Some (ErrDestination 1) | CClose => None end)
    (fun _ h => map_to_list h)
    (fun _ => false) (fun i j => ascii_of_nat (30 * i + j)) 1257894000%Z.

Definition start : World := mkWorld [] 0.

(** The part and the envelope of the README. *)
Definition body : Part :=
  mkPart "text/plain" Base64
    (strings_NewReader "https://www.youtube.com/watch?v=dQw4w9WgXcQ").

Definition mail : @Envelope clock :=
  @mkEnvelope clock 0%Z "john@example.com" "john@example.com" "reply@example.com"
    ["bil@example.com"; "dan@example.com"] [] "Check this out!" [body] [] []
    "utf-8".

Definition recipients : Headers :=
  {[ "To" := ["bil@example.com"; "dan@example.com"]; "Cc" := [] ]}.

(** A part marked quoted-printable whose source holds the five
    characters of [x=41y]. *)
Definition quoted : Part :=
  mkPart "text/plain" QuotedPrintable (strings_NewReader "x=41y").

End Example.

(** ** The claims that fail, as they are written *)

(** C2: every run of [Envelope.Write] closes the stream exactly once, as
    its last call, and returns the answer of that call. *)
Definition always_closes : Prop :=
  forall (T : TimeLib) (E : Env) (e : Envelope) (w : World),
  exists e' r w' ws,
    Postbox.Envelope_Write E e w = Done (e', r) w' /\
    Forall is_write ws /\
    events w' = events w ++ ws ++ [mkEvent CClose r].

(** C3: two runs of [Headers.Write] on the same map and the same stream
    write the same bytes. *)
Definition emission_deterministic : Prop :=
  forall (T : TimeLib) (E1 E2 : Env) (h : Headers) (w : World),
    range_legal E1 -> range_legal E2 -> writer E1 = writer E2 ->
    written (events (final (Postbox.Headers_Write E1 h w)))
    = written (events (final (Postbox.Headers_Write E2 h w))).

(** C6: whenever the stream refuses a write of [Headers.Write], nothing
    more is written (stated for the variant without error results). *)
Definition unchecked_stops_at_failure : Prop :=
  forall (T : TimeLib) (E : Env) (h : Headers) (w : World)
         (pre post : list Event) (ev : Event),
    events (final (Unchecked.Headers_Write E h w)) = events w ++ pre ++ ev :: post ->
    ev_err ev <> None -> post = [].

(** C9: after [End], a [Mark] on the same boundary fails (an error or a
    panic) and writes nothing more. *)
Definition mark_after_end_rejected : Prop :=
  forall (T : TimeLib) (E : Env) (b : Boundary) (w : World),
    let w1 := final (Postbox.Boundary_End E b w) in
    match Postbox.Boundary_Mark E b w1 with
    | Done r w2 => r <> None /\ events w2 = events w1
    | Panicked w2 => events w2 = events w1
    end.

(** C1: decoding the body that [Part.Write] emits for a quoted-printable
    part gives the bytes of the source back. *)
Definition quoted_printable_round_trip : Prop :=
  forall (T : TimeLib) (E : Env) (p : Part) (charset : string) (w : World)
         (hdr body : list bytes),
    accepts_writes E -> Encoding p = QuotedPrintable -> ending (Reader p) = EOF ->
    Postbox.Part_Write E p charset w
    = Done None (extend w (ok_writes
        (hdr ++ [to_bytes CRLF] ++ body ++ [to_bytes CRLF]))) ->
    hdr = header_writes (range E (events w) (part_headers p charset)) ->
    concat (chunks (quotedprintable_NewReader (mkReader [concat body] EOF)))
    = concat (chunks (Reader p)).

(** ** The multipart frame *)


(** A part that [Part.Write] writes without error, from every world. *)
Definition clean `{TimeLib} (E : Env) (charset : string) (p : Part) : Prop :=
  forall w, exists w', Postbox.Part_Write E p charset w = Done None w'.

(** Linear arithmetic with division and remainder by constants. *)
Ltac euclid := zify; Z.to_euclidean_division_equations; lia.

(** ** Vocabulary of the further properties *)

(** Go's [hex.DecodeString] on lower-case digits: the bytes of a token. *)
Fixpoint unhex_string (s : string) : bytes :=
  match s with
  | String hi (String lo rest) => unhex hi lo :: unhex_string rest
  | _ => []
  end.

(** The characters of the standard base64 alphabet, and the padding. *)
Definition is_base64_char (c : ascii) : bool :=
  let n := N_of_ascii c in
  ((65 <=? n)%N && (n <=? 90)%N) || ((97 <=? n)%N && (n <=? 122)%N)
  || ((48 <=? n)%N && (n <=? 57)%N) || (n =? 43)%N || (n =? 47)%N || (n =? 61)%N.

(** The reader that [Part.Write] drains for [p], and the error that ends
    it, if it is not io.EOF. *)
Definition part_source (p : Part) : io_Reader :=
  if decide (Encoding p = QuotedPrintable)
  then quotedprintable_NewReader (Reader p) else Reader p.

Definition source_error (p : Part) : option error :=
  if decide (ending (part_source p) = EOF) then None
  else Some (ending (part_source p)).

(** The non-empty reads of a source: those [io.Copy] hands on. *)
Definition reads (r : io_Reader) : list bytes :=
  filter (fun c : bytes => (0 < length c)%nat) (chunks r).

(** How the events of an operation that checks every write end with the
    result [r]: all writes accepted and no error; or all accepted but the
    last, whose error is the result; or all accepted and the result an
    error of the source, one that satisfies [src]. *)
Inductive first_failure (src : error -> Prop) : list Event -> option error -> Prop :=
| no_failure ps : first_failure src (ok_writes ps) None
| write_refused pre p err :
    first_failure src (ok_writes pre ++ [mkEvent (CWrite p) (Some err)]) (Some err)
| source_failed ps err : src err -> first_failure src (ok_writes ps) (Some err).

(** [stops_at_failure err_of src m]: from every world [m] returns, having
    stopped at the first failure. *)
Definition stops_at_failure {A : Type} (err_of : A -> option error)
  (src : error -> Prop) (m : M A) : Prop :=
  forall w, exists a new,
    m w = Done a (extend w new) /\ first_failure src new (err_of a).

(** The error of a run of [Envelope.Write], if it returned. *)
Definition returned_error {A : Type} (o : Outcome (A * option error))
  : option (option error) :=
  match o with Done (_, r) _ => Some r | Panicked _ => None end.

(** A part that [Part.Write] fails on with [err], from every world, on a
    stream that accepts every write. *)
Definition failing `{TimeLib} (E : Env) (charset : string) (p : Part)
  (err : error) : Prop :=
  forall w, exists block,
    Postbox.Part_Write E p charset w = Done (Some err) (extend w (ok_writes block)).

(** The entries of the header map of an envelope. *)
Definition envelope_fields `{TimeLib} (e : Envelope) : list (string * list string) :=
  [ ("Date", [Format_RFC1123Z (Date e)]); ("From", [From e]); ("To", To e);
    ("Cc", Cc e); ("Reply-To", [ReplyTo e]); ("Subject", [Subject e]);
    ("Mime-Version", ["1.0"]) ].

(** The same environment with another clock. *)
Definition at_time `{TimeLib} (E : Env) (t : Time) : Env :=
  mkEnv _ (writer E) (range E) (rand_fail E) (rand_byte E) t.

(** The [switch] on the encoding in [Part.Write], by itself. *)
Definition copy_body `{TimeLib} (E : Env) (p : Part) : M (option error) :=
  if decide (Encoding p = QuotedPrintable) then
    let reader := quotedprintable_NewReader (Reader p) in
    r <- io_Copy (stream_write E) tt reader ;; ret r.2
  else if decide (Encoding p = Base64) then
    let encoder := base64_NewEncoder in
    r <- io_Copy (encoder_Write E) encoder (Reader p) ;;
    match r.2 with
    | Some e => ret (Some e)
    | None => r' <- encoder_Close E r.1 ;; ret r'.2
    end
  else
    r <- io_Copy (stream_write E) tt (Reader p) ;; ret r.2.

(** What [Envelope.Write] does once the date is settled. *)
Definition write_envelope `{TimeLib} (E : Env) (e : Envelope) : M (option error) :=
  check Postbox.Headers_Write E (Postbox.envelope_headers e) ;;
  mixed <- Postbox.NewBoundary E "multipart/mixed" ;;
  check Postbox.Boundary_Mark E mixed ;;
  related <- Postbox.NewBoundary E "multipart/related" ;;
  check Postbox.Boundary_Mark E related ;;
  alternative <- Postbox.NewBoundary E "multipart/alternative" ;;
  check Postbox.write_parts E alternative (Parts e) (Charset e) ;;
  check Postbox.Boundary_End E alternative ;;
  check Postbox.Boundary_End E related ;;
  check Postbox.Boundary_End E mixed ;;
  Close E.

Definition unchecked_write_envelope `{TimeLib} (E : Env) (e : Envelope) : M unit :=
  ignore Unchecked.Headers_Write E (Postbox.envelope_headers e) ;;
  mixed <- Unchecked.NewBoundary E "multipart/mixed" ;;
  ignore Unchecked.Boundary_Mark E mixed ;;
  related <- Unchecked.NewBoundary E "multipart/related" ;;
  ignore Unchecked.Boundary_Mark E related ;;
  alternative <- Unchecked.NewBoundary E "multipart/alternative" ;;
  ignore Unchecked.write_parts E alternative (Parts e) (Charset e) ;;
  ignore Unchecked.Boundary_End E alternative ;;
  ignore Unchecked.Boundary_End E related ;;
  ignore Unchecked.Boundary_End E mixed ;;
  ignore Close E ;;
  ret tt.

(** The same [switch] in the variant without error results. *)
Definition unchecked_copy_body `{TimeLib} (E : Env) (p : Part) : M unit :=
  if decide (Encoding p = QuotedPrintable) then
    let reader := quotedprintable_NewReader (Reader p) in
    ignore io_Copy (stream_write E) tt reader ;; ret tt
  else if decide (Encoding p = Base64) then
    let encoder := base64_NewEncoder in
    r <- io_Copy (encoder_Write E) encoder (Reader p) ;;
    ignore encoder_Close E r.1 ;; ret tt
  else
    ignore io_Copy (stream_write E) tt (Reader p) ;; ret tt.

(** [draws_upto E ok n m]: a run of [m] reads the random source at most
    [n] times, and exactly [n] times when it returns a result that
    satisfies [ok]; when it panics, fewer than [n] reads had succeeded
    and the next one was the one that failed. *)
Definition draws_upto `{TimeLib} (E : Env) {A : Type} (ok : A -> Prop) (n : nat)
  (m : M A) : Prop :=
  forall w,
    match m w with
    | Done a w' =>
        (draws w <= draws w' <= draws w + n)%nat /\
        (ok a -> draws w' = (draws w + n)%nat)
    | Panicked w' =>
        (draws w <= draws w' < draws w + n)%nat /\ rand_fail E (draws w') = true
    end.

(** [surfaces src m]: the trace only grows; an error that [m] returns is
    the answer of the last call made on the stream, or an error that
    satisfies [src]. *)
Definition surfaces (src : error -> Prop) (m : M (option error)) : Prop :=
  forall w,
    match m w with
    | Done (Some err) w' =>
        (exists pre c, events w' = events w ++ pre ++ [mkEvent c (Some err)]) \/ src err
    | Done None w' | Panicked w' => exists new, events w' = events w ++ new
    end.

(** ** Plain text under the quoted-printable reader *)

(** The bytes that the quoted-printable reader hands on as they are and
    that end no line: printable ASCII other than [=], the tab, and every
    byte above 127. *)
Definition qp_plain (c : ascii) : bool :=
  let n := N_of_ascii c in
  negb (n =? 61)%N && ((n =? 9)%N || (128 <=? n)%N || ((32 <=? n)%N && (n <=? 126)%N)).

(** A line of such bytes that does not end in a blank and fits, with its
    line break, in the buffer of the reader. *)
Definition plain_line (l : bytes) : Prop :=
  Forall (fun c => qp_plain c = true) l /\
  match last l with Some c => isQPDiscardWhitespace c = false | None => True end /\
  (length l + 2 <= bufio_size)%nat.

(** The lines [ls], each ended by CRLF, and then [tail]. *)
Definition crlf_text (ls : list bytes) (tail : bytes) : bytes :=
  concat (map (fun l => l ++ to_bytes CRLF) ls) ++ tail.

(** An event other than a write of no bytes at all. *)
Definition carries_bytes (ev : Event) : Prop :=
  match ev_call ev with CWrite p => p <> [] | CClose => True end.

(** ** More concrete parts and envelopes *)

Module Sample.

(** An unencoded part, as in the tests of the package. *)
Definition plain : Part :=
  mkPart "text/plain" Unencoded (strings_NewReader "hello").

(** A base64 part whose reader fails after five bytes. *)
Definition cut : Part :=
  mkPart "text/plain" Base64 (mkReader [to_bytes "hello"] (ErrSource 1)).

(** An unencoded part whose reader fails after three bytes. *)
Definition lost : Part :=
  mkPart "text/plain" Unencoded (mkReader [to_bytes "hel"] (ErrSource 2)).

(** Two lines of text with a byte above 127, marked quoted-printable. *)
Definition first_line : bytes := to_bytes "caf" ++ ["233"%char].
Definition second_line : bytes := to_bytes "au lait".

Definition note : Part :=
  mkPart "text/plain" QuotedPrintable
    (mkReader [first_line ++ to_bytes CRLF ++ second_line] EOF).

(** An envelope that carries a date. *)
Definition stamped : @Envelope Example.clock :=
  @mkEnvelope Example.clock 1257894000%Z "john@example.com" "john@example.com"
    "john@example.com" ["john@example.com"]
    ["john@example.com"; "boss@example.com"] "hello world" [] [] [] "UTF-8".

(** An envelope whose second part fails. *)
Definition three : @Envelope Example.clock :=
  @mkEnvelope Example.clock 0%Z "john@example.com" "john@example.com"
    "reply@example.com" ["bil@example.com"] [] "Check this out!"
    [Example.body; lost; Example.quoted] [] [] "utf-8".

End Sample.

(** ** Header lines, spelled out *)

(** The values of a field as they stand on its line: the first one, and
    every later one after a semicolon and a space. *)
Definition joined (values : list string) : bytes :=
  match values with
  | [] => []
  | v :: rest => to_bytes v ++ concat (map (fun x => to_bytes "; " ++ to_bytes x) rest)
  end.

(** The line of a field: the name and a colon; then, when there are
    values, a space and the values; then CRLF. *)
Definition field_line (f : string * list string) : bytes :=
  match f.2 with
  | [] => to_bytes f.1 ++ [":"%char] ++ ["013"%char; "010"%char]
  | _ => to_bytes f.1 ++ [":"%char; " "%char] ++ joined f.2
         ++ ["013"%char; "010"%char]
  end.

Definition field_lines (fs : list (string * list string)) : bytes :=
  concat (map field_line fs).


(** ** The lines of an output *)



Module Misleading.

(** An envelope without carbon copies whose subject ends in a line break
    and the three characters of [Cc:]. *)
Definition mail : @Envelope Example.clock :=
  @mkEnvelope Example.clock 0%Z "john@example.com" "john@example.com"
    "reply@example.com" ["bil@example.com"] [] ("hi" +:+ CRLF +:+ "Cc:")
    [] [] [] "utf-8".

(** A map whose two fields give the same bytes in either order. *)
Definition twins : Headers :=
  {[ "ab" := []; "ab:" +:+ CRLF +:+ "ab" := [] ]}.

End Misleading.

(** * Lemmas on the stream and the monad *)

Lemma to_bytes_app (a b : string) : to_bytes (a +:+ b) = to_bytes a ++ to_bytes b.
Proof. induction a as [|c a IH]; simpl; [done | by rewrite IH]. Qed.

Lemma extend_nil w : extend w [] = w.
Proof. destruct w; unfold extend; simpl. by rewrite app_nil_r. Qed.

Lemma extend_extend w a b : extend (extend w a) b = extend w (a ++ b).
Proof. unfold extend; simpl. by rewrite app_assoc. Qed.

Lemma ok_writes_app a b : ok_writes (a ++ b) = ok_writes a ++ ok_writes b.
Proof. apply map_app. Qed.

Lemma written_app a b : written (a ++ b) = written a ++ written b.
Proof. unfold written. by rewrite map_app, concat_app. Qed.

Lemma written_ok_writes ps : written (ok_writes ps) = concat ps.
Proof.
  unfold written, ok_writes. rewrite map_map. simpl.
  by rewrite map_id.
Qed.

Section StreamFacts.
Context `{TimeLib} (E : Env).

Lemma Write_eq p w :
  Write E p w = Done (writer E (events w) (CWrite p))
                  (extend w [mkEvent (CWrite p) (writer E (events w) (CWrite p))]).
Proof. reflexivity. Qed.

Lemma write_all_cons p ps w :
  write_all E (p :: ps) w =
  match writer E (events w) (CWrite p) with
  | Some e => Done (Some e) (extend w [mkEvent (CWrite p) (Some e)])
  | None => write_all E ps (extend w [mkEvent (CWrite p) None])
  end.
Proof.
  simpl. unfold bind. rewrite Write_eq.
  by destruct (writer E (events w) (CWrite p)).
Qed.

Lemma write_all_app a b w :
  write_all E (a ++ b) w =
  match write_all E a w with
  | Done None w' => write_all E b w'
  | o => o
  end.
Proof.
  revert w. induction a as [|p a IH]; intros w; [done|].
  rewrite <- app_comm_cons, !write_all_cons.
  destruct (writer E (events w) (CWrite p)); [done | apply IH].
Qed.

Lemma write_all_stops ps w :
  exists new r, write_all E ps w = Done r (extend w new) /\ stops_at ps new r.
Proof.
  revert w. induction ps as [|p ps IH]; intros w.
  - exists [], None. split; [by rewrite extend_nil | apply all_written].
  - rewrite write_all_cons.
    destruct (writer E (events w) (CWrite p)) as [e|] eqn:Hw.
    + exists [mkEvent (CWrite p) (Some e)], (Some e). split; [done|].
      by apply (refused _ [] p ps e).
    + destruct (IH (extend w [mkEvent (CWrite p) None])) as (new & r & Hrun & Hst).
      exists (mkEvent (CWrite p) None :: new), r. split.
      * by rewrite Hrun, extend_extend.
      * destruct Hst as [|pre q post e Hps].
        -- apply (all_written (p :: ps)).
        -- subst ps. apply (refused _ (p :: pre) q post e). done.
Qed.

Lemma write_all_accepted ps w :
  accepts_writes E -> write_all E ps w = Done None (extend w (ok_writes ps)).
Proof.
  intros Hacc. revert w. induction ps as [|p ps IH]; intros w.
  - by rewrite extend_nil.
  - rewrite write_all_cons, Hacc, IH, extend_extend. done.
Qed.

Lemma Copy_string_write_all s w :
  Copy_string E s w = write_all E (nonempty s) w.
Proof.
  destruct s as [|c s]; [done|].
  unfold Copy_string, nonempty. rewrite write_all_cons, Write_eq.
  by destruct (writer E (events w) (CWrite _)).
Qed.

Lemma write_fields_write_all fs w :
  Postbox.write_fields E fs w = write_all E (header_writes fs) w.
Proof.
  revert w. induction fs as [|[property values] fs IH]; intros w; [done|].
  unfold header_writes. rewrite map_cons, concat_cons.
  fold (header_writes fs). unfold field_writes.
  cbn [Postbox.write_fields fst snd]. unfold bind at 1.
  destruct (length values =? 0)%nat.
  - rewrite <- !app_comm_cons, !write_all_cons, Write_eq.
    destruct (writer E (events w) (CWrite (to_bytes property))); [done|].
    unfold bind. rewrite Write_eq.
    destruct (writer E _ (CWrite (to_bytes (":" +:+ CRLF)))); [done|].
    apply IH.
  - rewrite <- !app_assoc, <- !app_comm_cons, !write_all_cons, Write_eq.
    destruct (writer E (events w) (CWrite (to_bytes property))); [done|].
    unfold bind at 1. rewrite Write_eq.
    destruct (writer E _ (CWrite (to_bytes ": "))); [done|].
    unfold bind at 1. rewrite Copy_string_write_all.
    rewrite app_nil_l, write_all_app.
    destruct (write_all E (nonempty _) _) as [[e|] w'|w']; [done| |done].
    rewrite write_all_cons. unfold bind. rewrite Write_eq.
    destruct (writer E _ (CWrite (to_bytes CRLF))); [done|].
    apply IH.
Qed.

Lemma Headers_Write_write_all h w :
  Postbox.Headers_Write E h w =
  write_all E (header_writes (range E (events w) h)) w.
Proof. apply write_fields_write_all. Qed.

End StreamFacts.

(** * The header block *)

Lemma concat_nonempty s : concat (nonempty s) = to_bytes s.
Proof. destruct s; [done|]. simpl. by rewrite app_nil_r. Qed.

Lemma concat_field_writes f : concat (field_writes f) = to_bytes (header_line f).
Proof.
  destruct f as [name values]. unfold field_writes, header_line.
  cbn [fst snd]. destruct values as [|v values]; cbn [length Nat.eqb].
  - cbn [concat]. by rewrite app_nil_r, !to_bytes_app.
  - cbn [app]. rewrite !concat_cons, concat_app, concat_nonempty, !to_bytes_app.
    cbn [concat]. by rewrite app_nil_r.
Qed.

Lemma concat_header_writes fs : concat (header_writes fs) = header_block fs.
Proof.
  unfold header_writes, header_block. induction fs as [|f fs IH]; [done|].
  rewrite !map_cons, !concat_cons, concat_app, IH.
  by rewrite concat_field_writes.
Qed.

Lemma header_block_app a b : header_block (a ++ b) = header_block a ++ header_block b.
Proof. unfold header_block. by rewrite map_app, concat_app. Qed.

Lemma header_block_cons f fs :
  header_block (f :: fs) = to_bytes (header_line f) ++ header_block fs.
Proof. reflexivity. Qed.

Section HeaderFacts.
Context `{TimeLib} (E : Env).

Lemma Headers_Write_accepted h w :
  accepts_writes E ->
  Postbox.Headers_Write E h w =
  Done None (extend w (ok_writes (header_writes (range E (events w) h)))).
Proof. intros Hacc. by rewrite Headers_Write_write_all, write_all_accepted. Qed.

(** A legal [range] visits the entry of every field of the map exactly
    once. *)
Lemma range_visits_once h t name values :
  range_legal E -> h !! name = Some values ->
  exists before after,
    range E t h = before ++ (name, values) :: after /\
    name ∉ (before ++ after).*1.
Proof.
  intros Hlegal Hlook.
  assert (Hin : (name, values) ∈ range E t h).
  { rewrite (Hlegal t h). by apply elem_of_map_to_list. }
  apply list_elem_of_split in Hin as (before & after & Heq).
  exists before, after. split; [done|].
  assert (Hnd : NoDup (range E t h).*1).
  { rewrite (Hlegal t h). apply NoDup_fst_map_to_list. }
  rewrite Heq, fmap_app, fmap_cons in Hnd. simpl in Hnd.
  apply NoDup_app in Hnd as (Hb & Hba & Ha).
  apply NoDup_cons in Ha as [Hna _].
  rewrite fmap_app. intros [Hin|Hin]%elem_of_app; [|done].
  apply (Hba _ Hin). left.
Qed.


End HeaderFacts.

(** * Operations that return, operations that may panic *)

Section Returns.
Context `{TimeLib} (E : Env) (P : Event -> Prop).
Hypothesis P_write : forall t p, P (mkEvent (CWrite p) (writer E t (CWrite p))).

Lemma returns_ret {A} (a : A) : returns P (ret a).
Proof. intros w. exists a, []. by rewrite extend_nil. Qed.

Lemma returns_bind {A B} (m : M A) (k : A -> M B) :
  returns P m -> (forall a, returns P (k a)) -> returns P (bind m k).
Proof.
  intros Hm Hk w. destruct (Hm w) as (a & new & Heq & Hnew).
  destruct (Hk a (extend w new)) as (b & new' & Heq' & Hnew').
  exists b, (new ++ new'). unfold bind. rewrite Heq, Heq', extend_extend.
  split; [done | by apply Forall_app].
Qed.

Lemma returns_check (m k : M (option error)) :
  returns P m -> returns P k ->
  returns P (check m ;; k).
Proof.
  intros Hm Hk. apply returns_bind; [done|].
  intros [e|]; [apply returns_ret | done].
Qed.

Lemma returns_Write p : returns P (Write E p).
Proof.
  intros w. eexists _, _. split; [apply Write_eq|].
  apply Forall_singleton, P_write.
Qed.

Lemma returns_Copy_string s : returns P (Copy_string E s).
Proof. destruct s; [apply returns_ret | apply returns_Write]. Qed.

Lemma returns_write_fields fs : returns P (Postbox.write_fields E fs).
Proof.
  induction fs as [|[property values] fs IH]; [apply returns_ret|].
  cbn [Postbox.write_fields]. apply returns_check; [apply returns_Write|].
  destruct (length values =? 0)%nat.
  - apply returns_check; [apply returns_Write | done].
  - repeat (apply returns_check;
            [first [apply returns_Write | apply returns_Copy_string]|]).
    done.
Qed.

Lemma returns_Headers_Write h : returns P (Postbox.Headers_Write E h).
Proof. intros w. apply returns_write_fields. Qed.

Lemma returns_stream_write u p : returns P (stream_write E u p).
Proof.
  apply returns_bind; [apply returns_Write | intros; apply returns_ret].
Qed.

Lemma returns_copy_loop {S} (write : S -> bytes -> M (S * option error)) :
  (forall s p, returns P (write s p)) ->
  forall cs dst ending, returns P (copy_loop write dst cs ending).
Proof.
  intros Hwrite. induction cs as [|c cs IH]; intros dst ending.
  - apply returns_ret.
  - cbn [copy_loop]. destruct (0 <? length c)%nat; [|apply IH].
    apply returns_bind; [apply Hwrite|].
    intros [dst' [ew|]]; [apply returns_ret | apply IH].
Qed.

Lemma returns_encoder_interior fuel p : returns P (encoder_interior E fuel p).
Proof.
  revert p. induction fuel as [|fuel IH]; intros p; [apply returns_ret|].
  cbn [encoder_interior]. destruct (3 <=? length p)%nat; [|apply returns_ret].
  apply returns_bind; [apply returns_Write|].
  intros [e|]; [apply returns_ret | apply IH].
Qed.

Lemma returns_encoder_rest p : returns P (encoder_rest E p).
Proof.
  apply returns_bind; [apply returns_encoder_interior|].
  intros [rest [e|]]; apply returns_ret.
Qed.

Lemma returns_encoder_Write e p : returns P (encoder_Write E e p).
Proof.
  unfold encoder_Write. destruct (enc_err e); [apply returns_ret|].
  destruct (0 <? length (enc_buf e))%nat; [|apply returns_encoder_rest].
  destruct (_ <? 3)%nat; [apply returns_ret|].
  apply returns_bind; [apply returns_Write|].
  intros [x|]; [apply returns_ret | apply returns_encoder_rest].
Qed.

Lemma returns_encoder_Close e : returns P (encoder_Close E e).
Proof.
  unfold encoder_Close. destruct (enc_err e); [apply returns_ret|].
  destruct (0 <? length (enc_buf e))%nat; [|apply returns_ret].
  apply returns_bind; [apply returns_Write | intros; apply returns_ret].
Qed.

Lemma returns_Part_Write p charset : returns P (Postbox.Part_Write E p charset).
Proof.
  unfold Postbox.Part_Write.
  apply returns_check; [apply returns_Headers_Write|].
  apply returns_check; [apply returns_Write|].
  apply returns_check; [|apply returns_Write].
  repeat case_decide.
  - apply returns_bind; [|intros; apply returns_ret].
    apply returns_copy_loop, returns_stream_write.
  - apply returns_bind; [apply returns_copy_loop, returns_encoder_Write|].
    intros [enc [e|]]; [apply returns_ret|].
    apply returns_bind; [apply returns_encoder_Close | intros; apply returns_ret].
  - apply returns_bind; [|intros; apply returns_ret].
    apply returns_copy_loop, returns_stream_write.
Qed.

Lemma returns_Boundary_Mark b : returns P (Postbox.Boundary_Mark E b).
Proof. apply returns_Write. Qed.

Lemma returns_Boundary_End b : returns P (Postbox.Boundary_End E b).
Proof. apply returns_Write. Qed.

Lemma returns_write_parts b parts charset :
  returns P (Postbox.write_parts E b parts charset).
Proof.
  induction parts as [|part parts IH]; [apply returns_ret|].
  cbn [Postbox.write_parts].
  apply returns_check; [apply returns_Boundary_Mark|].
  apply returns_check; [apply returns_Part_Write | done].
Qed.

End Returns.

Section Runs.
Context `{TimeLib} (E : Env) (P : Event -> Prop).
Hypothesis P_write : forall t p, P (mkEvent (CWrite p) (writer E t (CWrite p))).

Lemma returns_runs {A} (m : M A) : returns P m -> runs P m.
Proof.
  intros Hm w. destruct (Hm w) as (a & new & Heq & Hnew).
  exists new. by rewrite Heq.
Qed.

Lemma runs_ret {A} (a : A) : runs P (ret a).
Proof. apply returns_runs, returns_ret. Qed.

Lemma runs_bind {A B} (m : M A) (k : A -> M B) :
  runs P m -> (forall a, runs P (k a)) -> runs P (bind m k).
Proof.
  intros Hm Hk w. destruct (Hm w) as (new & Hev & Hnew). unfold bind.
  destruct (m w) as [a w1|w1]; simpl in Hev.
  - destruct (Hk a w1) as (new' & Hev' & Hnew').
    exists (new ++ new'). rewrite Hev', Hev, app_assoc.
    split; [done | by apply Forall_app].
  - by exists new.
Qed.

Lemma runs_RandomBoundary : runs P (RandomBoundary E).
Proof.
  intros w. exists []. unfold RandomBoundary.
  destruct (rand_fail E (draws w)); simpl; by rewrite app_nil_r.
Qed.

Lemma runs_NewBoundary mime : runs P (Postbox.NewBoundary E mime).
Proof.
  apply runs_bind; [apply runs_RandomBoundary|]. intros identifier.
  apply runs_bind; [by apply returns_runs, returns_Headers_Write|]. intros _.
  apply runs_bind; [by apply returns_runs, returns_Write|]. intros _.
  apply runs_ret.
Qed.

End Runs.

(** * Closing the stream *)

Section Closing.
Context `{TimeLib} (E : Env).

Lemma is_write_Write t p : is_write (mkEvent (CWrite p) (writer E t (CWrite p))).
Proof. exact I. Qed.

Lemma disciplined_bind {A} (m : M A) (k : A -> M (option error)) :
  runs is_write m -> (forall a, disciplined (k a)) -> disciplined (bind m k).
Proof.
  intros Hm Hk w. destruct (Hm w) as (new & Hev & Hnew). unfold bind.
  destruct (m w) as [a w1|w1] eqn:Hmw; simpl in Hev.
  - specialize (Hk a w1). unfold bind in Hk.
    destruct (k a w1) as [r w2|w2];
      inversion Hk as [? ? ws ? Hws Hev'|? ? ws ? Hws Hev'|ws ? Hws Hev']; subst.
    + eapply closed_last with (ws := new ++ ws); [by apply Forall_app|].
      by rewrite Hev', Hev, <- !app_assoc.
    + eapply returned_early with (ws := new ++ ws); [by apply Forall_app|].
      by rewrite Hev', Hev, <- !app_assoc.
    + eapply panicked with (ws := new ++ ws); [by apply Forall_app|].
      by rewrite Hev', Hev, <- !app_assoc.
  - by apply panicked with (ws := new).
Qed.

Lemma disciplined_error err : disciplined (ret (Some err)).
Proof.
  intros w. apply returned_early with (ws := []); [done|].
  simpl. by rewrite app_nil_r.
Qed.

Lemma disciplined_check (m k : M (option error)) :
  runs is_write m -> disciplined k -> disciplined (check m ;; k).
Proof.
  intros Hm Hk. apply disciplined_bind; [done|].
  intros [err|]; [apply disciplined_error | done].
Qed.

Lemma disciplined_Close : disciplined (Close E).
Proof. intros w. by apply closed_last with (ws := []). Qed.

Lemma Envelope_Write_disciplined e w :
  close_discipline (events w) (Postbox.Envelope_Write E e w).
Proof.
  unfold Postbox.Envelope_Write.
  set (e' := if IsZero (Date e) then _ else _).
  match goal with |- close_discipline _ (bind ?m _ w) =>
    assert (Hd : disciplined m) end.
  { pose proof (is_write_Write) as HW.
    apply disciplined_check; [by apply returns_runs, returns_Headers_Write|].
    apply disciplined_bind; [by apply runs_NewBoundary|]. intros mixed.
    apply disciplined_check; [by apply returns_runs, returns_Boundary_Mark|].
    apply disciplined_bind; [by apply runs_NewBoundary|]. intros related.
    apply disciplined_check; [by apply returns_runs, returns_Boundary_Mark|].
    apply disciplined_bind; [by apply runs_NewBoundary|]. intros alternative.
    apply disciplined_check; [by apply returns_runs, returns_write_parts|].
    apply disciplined_check; [by apply returns_runs, returns_Boundary_End|].
    apply disciplined_check; [by apply returns_runs, returns_Boundary_End|].
    apply disciplined_check; [by apply returns_runs, returns_Boundary_End|].
    apply disciplined_Close. }
  specialize (Hd w). unfold bind in *.
  match goal with |- close_discipline _ (match ?o with _ => _ end) =>
    destruct o as [r w1|w1] end; inversion Hd; subst.
  - by eapply closed_last.
  - by eapply returned_early.
  - by eapply panicked.
Qed.

End Closing.

(** * Boundary tokens *)

Lemma hex_digits_of_byte c :
  let hi := hex_digit (N.shiftr (N_of_ascii c) 4) in
  let lo := hex_digit (N.land (N_of_ascii c) 15) in
  unhex hi lo = c /\ is_lower_hex hi = true /\ is_lower_hex lo = true.
Proof. destruct c as [[] [] [] [] [] [] [] []]; vm_compute; done. Qed.

Lemma Sprintf_x_length b : String.length (Sprintf_x b) = (2 * length b)%nat.
Proof. induction b as [|c b IH]; simpl; [done | lia]. Qed.

Lemma Sprintf_x_hex b : Forall (fun c => is_lower_hex c = true) (to_bytes (Sprintf_x b)).
Proof.
  induction b as [|c b IH]; [constructor|].
  destruct (hex_digits_of_byte c) as (_ & Hhi & Hlo).
  cbn [Sprintf_x list_ascii_of_string]. by repeat constructor.
Qed.


Lemma token_hex `{TimeLib} (E : Env) i : hex_token (token E i).
Proof.
  split; [|apply Sprintf_x_hex].
  unfold token, random_block. by rewrite Sprintf_x_length, length_map, length_seq.
Qed.

(** * Runs on a stream that accepts every write *)

Lemma Forall_accepted new : Forall accepted new -> exists ps, new = ok_writes ps.
Proof.
  induction 1 as [|e new [p ->] _ [ps ->]]; [by exists []|].
  by exists (p :: ps).
Qed.

Lemma written_declaration mime id :
  concat (declaration mime id) =
  to_bytes ("Content-Type: " +:+ mime +:+ "; boundary=" +:+ id +:+ CRLF +:+ CRLF).
Proof.
  unfold declaration. rewrite concat_app, concat_field_writes.
  cbn [concat]. rewrite app_nil_r. unfold header_line. cbn [fst snd strings_Join].
  by rewrite !to_bytes_app, <- !app_assoc.
Qed.

Section Accepted.
Context `{TimeLib} (E : Env).
Hypothesis Hlegal : range_legal E.
Hypothesis Hacc : accepts_writes E.

Lemma accepted_Write t p : accepted (mkEvent (CWrite p) (writer E t (CWrite p))).
Proof. exists p. by rewrite Hacc. Qed.

Lemma Write_accepted p w : Write E p w = Done None (extend w (ok_writes [p])).
Proof. by rewrite Write_eq, Hacc. Qed.

Lemma range_singleton t name values :
  range E t {[ name := values ]} = [(name, values)].
Proof.
  apply Permutation_singleton_r. by rewrite (Hlegal t), map_to_list_singleton.
Qed.

Lemma NewBoundary_accepted mime w :
  Postbox.NewBoundary E mime w =
  if rand_fail E (draws w) then Panicked w
  else Done (mkBoundary (token E (draws w)))
         (mkWorld (events w ++ ok_writes (declaration mime (token E (draws w))))
                  (S (draws w))).
Proof.
  unfold Postbox.NewBoundary, bind at 1, RandomBoundary.
  destruct (rand_fail E (draws w)); [done|].
  fold (token E (draws w)). unfold bind.
  rewrite Headers_Write_accepted by done. cbn [events].
  rewrite range_singleton, Write_accepted. unfold ret, extend. cbn [events draws].
  unfold declaration, header_writes. cbn [map concat].
  by rewrite app_nil_r, ok_writes_app, app_assoc.
Qed.

Lemma Boundary_Mark_accepted b w :
  Postbox.Boundary_Mark E b w = Done None (extend w (ok_writes [mark (Identifier b)])).
Proof. apply Write_accepted. Qed.

Lemma Boundary_End_accepted b w :
  Postbox.Boundary_End E b w
  = Done None (extend w (ok_writes [close_marker (Identifier b)])).
Proof. apply Write_accepted. Qed.

Lemma Part_Write_accepted part charset w :
  exists r block,
    Postbox.Part_Write E part charset w = Done r (extend w (ok_writes block)).
Proof.
  destruct (returns_Part_Write E accepted accepted_Write part charset w)
    as (r & new & Heq & Hnew).
  apply Forall_accepted in Hnew as [block ->]. by exists r, block.
Qed.

Lemma write_parts_accepted b parts charset w :
  exists r blocks,
    Postbox.write_parts E b parts charset w =
    Done r (extend w (ok_writes
      (concat (map (fun block => mark (Identifier b) :: block) blocks)))) /\
    (r = None -> Forall2 (part_block E charset) parts blocks).
Proof.
  revert w. induction parts as [|part parts IH]; intros w.
  - exists None, []. split; [by rewrite extend_nil | constructor].
  - cbn [Postbox.write_parts]. unfold bind at 1.
    rewrite Boundary_Mark_accepted. unfold bind at 1.
    destruct (Part_Write_accepted part charset
                (extend w (ok_writes [mark (Identifier b)])))
      as (r & block & Hpart).
    rewrite Hpart. destruct r as [err|].
    + exists (Some err), [block]. split; [|done].
      unfold ret. rewrite extend_extend, <- ok_writes_app.
      cbn [map concat]. by rewrite app_nil_r.
    + destruct (IH (extend (extend w (ok_writes [mark (Identifier b)]))
                      (ok_writes block))) as (r & blocks & Hrest & Hblocks).
      exists r, (block :: blocks). split.
      * rewrite Hrest, !extend_extend, <- !ok_writes_app. done.
      * intros Hr. constructor; [|by apply Hblocks].
        by exists (extend w (ok_writes [mark (Identifier b)])).
Qed.

End Accepted.

(** * The envelope *)

Section EnvelopeFacts.
Context `{TimeLib} (E : Env).

Lemma Envelope_Write_result e w e' r w' :
  Postbox.Envelope_Write E e w = Done (e', r) w' -> e' = dated E e.
Proof.
  unfold Postbox.Envelope_Write. fold (dated E e). unfold bind at 1.
  match goal with |- match ?o with _ => _ end = _ -> _ => destruct o end;
    [|done].
  unfold ret. by intros [= <- _ _].
Qed.



Lemma Parts_dated e : Parts (dated E e) = Parts e.
Proof. unfold dated. by destruct (IsZero (Date e)). Qed.

Lemma Charset_dated e : Charset (dated E e) = Charset e.
Proof. unfold dated. by destruct (IsZero (Date e)). Qed.

Hypothesis Hlegal : range_legal E.
Hypothesis Hacc : accepts_writes E.

Lemma Envelope_Write_accepted e w e' w' :
  Postbox.Envelope_Write E e w = Done (e', None) w' ->
  exists blocks,
    events w' = events w ++
      message (header_writes (range E (events w) (Postbox.envelope_headers e')))
        (token E (draws w)) (token E (S (draws w))) (token E (S (S (draws w))))
        blocks None /\
    Forall2 (part_block E (Charset e)) (Parts e) blocks.
Proof.
  intros Hrun. pose proof (Envelope_Write_result _ _ _ _ _ Hrun) as ->.
  revert Hrun. unfold Postbox.Envelope_Write. fold (dated E e).
  rewrite Parts_dated, Charset_dated.
  unfold bind. rewrite Headers_Write_accepted by done.
  rewrite NewBoundary_accepted by done. cbn [draws extend].
  destruct (rand_fail E (draws w)); [done|].
  rewrite Boundary_Mark_accepted by done.
  rewrite NewBoundary_accepted by done. cbn [draws extend].
  destruct (rand_fail E (S (draws w))); [done|].
  rewrite Boundary_Mark_accepted by done.
  rewrite NewBoundary_accepted by done. cbn [draws extend].
  destruct (rand_fail E (S (S (draws w)))); [done|].
  match goal with |- context [Postbox.write_parts E ?b ?ps ?cs ?w0] =>
    destruct (write_parts_accepted E Hacc b ps cs w0)
      as (r & blocks & -> & Hblocks) end.
  destruct r as [err|]; [done|].
  rewrite !Boundary_End_accepted by done.
  unfold Close, call, ret. cbn [events extend draws Identifier].
  intros [= Hclose <-]. exists blocks. split; [|by apply Hblocks].
  cbn [events]. rewrite Hclose. unfold message.
  rewrite !ok_writes_app, <- !app_assoc. done.
Qed.

End EnvelopeFacts.

(** * The variant without error results *)

Section UncheckedFacts.
Context `{TimeLib} (E : Env) (P : Event -> Prop).
Hypothesis P_write : forall t p, P (mkEvent (CWrite p) (writer E t (CWrite p))).

Lemma returns_ignore {A B} (m : M A) (k : M B) :
  returns P m -> returns P k -> returns P (ignore m ;; k).
Proof. intros Hm Hk. by apply returns_bind. Qed.

Lemma returns_unchecked_write_fields fs : returns P (Unchecked.write_fields E fs).
Proof.
  induction fs as [|[property values] fs IH]; [apply returns_ret|].
  cbn [Unchecked.write_fields].
  apply returns_ignore; [by apply returns_Write|].
  destruct (length values =? 0)%nat.
  - apply returns_ignore; [by apply returns_Write | done].
  - repeat (apply returns_ignore;
            [first [by apply returns_Write | by apply returns_Copy_string]|]).
    done.
Qed.

Lemma returns_unchecked_Headers_Write h : returns P (Unchecked.Headers_Write E h).
Proof. intros w. apply returns_unchecked_write_fields. Qed.

Lemma returns_unchecked_Part_Write p charset :
  returns P (Unchecked.Part_Write E p charset).
Proof.
  unfold Unchecked.Part_Write.
  apply returns_ignore; [apply returns_unchecked_Headers_Write|].
  apply returns_ignore; [by apply returns_Write|].
  apply returns_ignore;
    [|apply returns_ignore; [by apply returns_Write | apply returns_ret]].
  repeat case_decide.
  - apply returns_ignore; [|apply returns_ret].
    by apply returns_copy_loop, returns_stream_write.
  - apply returns_bind; [by apply returns_copy_loop, returns_encoder_Write|].
    intros r. apply returns_ignore; [by apply returns_encoder_Close|].
    apply returns_ret.
  - apply returns_ignore; [|apply returns_ret].
    by apply returns_copy_loop, returns_stream_write.
Qed.

Lemma returns_unchecked_Mark b : returns P (Unchecked.Boundary_Mark E b).
Proof. apply returns_ignore; [by apply returns_Write | apply returns_ret]. Qed.

Lemma returns_unchecked_End b : returns P (Unchecked.Boundary_End E b).
Proof. apply returns_ignore; [by apply returns_Write | apply returns_ret]. Qed.

Lemma returns_unchecked_write_parts b parts charset :
  returns P (Unchecked.write_parts E b parts charset).
Proof.
  induction parts as [|part parts IH]; [apply returns_ret|].
  cbn [Unchecked.write_parts].
  apply returns_ignore; [apply returns_unchecked_Mark|].
  apply returns_ignore; [apply returns_unchecked_Part_Write | done].
Qed.

Lemma runs_unchecked_NewBoundary mime : runs P (Unchecked.NewBoundary E mime).
Proof.
  apply runs_bind; [apply runs_RandomBoundary|]. intros identifier.
  apply runs_bind; [by apply returns_runs, returns_unchecked_Headers_Write|].
  intros _. apply runs_bind; [by apply returns_runs, returns_Write|].
  intros _. by apply runs_ret.
Qed.

End UncheckedFacts.

Section UncheckedClosing.
Context `{TimeLib} (E : Env).

Lemma closes_at_end_bind {A B} (m : M A) (k : A -> M B) w :
  runs is_write m ->
  (forall a w1, closes_at_end (events w1) (k a w1)) ->
  closes_at_end (events w) (bind m k w).
Proof.
  intros Hm Hk. destruct (Hm w) as (new & Hev & Hnew). unfold bind.
  destruct (m w) as [a w1|w1]; simpl in Hev.
  - destruct (Hk a w1) as [b r ws w2 Hws Hev'|ws w2 Hws Hev'].
    + apply unchecked_closed with (r := r) (ws := new ++ ws);
        [by apply Forall_app|].
      by rewrite Hev', Hev, <- !app_assoc.
    + apply unchecked_panicked with (ws := new ++ ws); [by apply Forall_app|].
      by rewrite Hev', Hev, <- !app_assoc.
  - by apply unchecked_panicked with (ws := new).
Qed.

Lemma Unchecked_Envelope_Write_closes e w :
  closes_at_end (events w) (Unchecked.Envelope_Write E e w).
Proof.
  unfold Unchecked.Envelope_Write. fold (dated E e).
  pose proof (is_write_Write E) as HW.
  apply closes_at_end_bind;
    [by apply returns_runs, returns_unchecked_Headers_Write|]. intros _ w1.
  apply closes_at_end_bind; [by apply runs_unchecked_NewBoundary|].
  intros mixed w2.
  apply closes_at_end_bind; [by apply returns_runs, returns_unchecked_Mark|].
  intros _ w3.
  apply closes_at_end_bind; [by apply runs_unchecked_NewBoundary|].
  intros related w4.
  apply closes_at_end_bind; [by apply returns_runs, returns_unchecked_Mark|].
  intros _ w5.
  apply closes_at_end_bind; [by apply runs_unchecked_NewBoundary|].
  intros alternative w6.
  apply closes_at_end_bind;
    [by apply returns_runs, returns_unchecked_write_parts|]. intros _ w7.
  apply closes_at_end_bind; [by apply returns_runs, returns_unchecked_End|].
  intros _ w8.
  apply closes_at_end_bind; [by apply returns_runs, returns_unchecked_End|].
  intros _ w9.
  apply closes_at_end_bind; [by apply returns_runs, returns_unchecked_End|].
  intros _ w10.
  by apply unchecked_closed
    with (r := writer E (events w10) CClose) (ws := []).
Qed.

Lemma Unchecked_Envelope_Write_result e w e' w' :
  Unchecked.Envelope_Write E e w = Done e' w' -> e' = dated E e.
Proof.
  unfold Unchecked.Envelope_Write. fold (dated E e). unfold bind, ret.
  repeat match goal with
         | |- match ?o with _ => _ end = _ -> _ => destruct o; [|done]
         end.
  by intros [= <- _].
Qed.

End UncheckedClosing.

Module ExampleFacts.
Import Example.

Lemma steady_legal : range_legal steady.
Proof. intros t h. reflexivity. Qed.

Lemma reversed_legal : range_legal reversed.
Proof. intros t h. apply reverse_Permutation. Qed.

Lemma steady_accepts : accepts_writes steady.
Proof. intros t p. reflexivity. Qed.

Lemma reversed_accepts : accepts_writes reversed.
Proof. intros t p. reflexivity. Qed.

End ExampleFacts.

Section EnvelopeHeader.
Context `{TimeLib} (E : Env).
Hypothesis Hacc : accepts_writes E.

(** On an accepting stream the trace of [Envelope.Write] begins with the
    header block, however the run ends. *)
Lemma final_bind_ret {A B} (m : M A) (f : A -> B) w :
  final (bind m (fun a => ret (f a)) w) = final (m w).
Proof. unfold bind. by destruct (m w). Qed.

Lemma final_bind_Done {A B} (m : M A) (k : A -> M B) w a w1 :
  m w = Done a w1 -> final (bind m k w) = final (k a w1).
Proof. intros Hm. unfold bind. by rewrite Hm. Qed.

Lemma disciplined_grows (m : M (option error)) w :
  disciplined m -> exists rest, events (final (m w)) = events w ++ rest.
Proof.
  intros Hm. specialize (Hm w). unfold bind, ret in Hm.
  destruct (m w) as [r w1|w1]; cbn [final];
    inversion Hm as [? ? ws ? Hws Hev|? ? ws ? Hws Hev|ws ? Hws Hev]; subst;
    by eexists.
Qed.

Lemma Envelope_Write_begins e w :
  exists rest,
    events (final (Postbox.Envelope_Write E e w)) =
    events w
    ++ ok_writes (header_writes
                    (range E (events w) (Postbox.envelope_headers (dated E e))))
    ++ rest.
Proof.
  unfold Postbox.Envelope_Write. fold (dated E e).
  rewrite final_bind_ret.
  rewrite (final_bind_Done _ _ _ _ _ (Headers_Write_accepted E _ w Hacc)).
  match goal with |- context [final (?k ?w1)] =>
    destruct (disciplined_grows k w1) as [rest Hrest] end.
  { pose proof (is_write_Write E) as HW.
    apply disciplined_bind; [by apply runs_NewBoundary|]. intros mixed.
    apply disciplined_check; [by apply returns_runs, returns_Boundary_Mark|].
    apply disciplined_bind; [by apply runs_NewBoundary|]. intros related.
    apply disciplined_check; [by apply returns_runs, returns_Boundary_Mark|].
    apply disciplined_bind; [by apply runs_NewBoundary|]. intros alternative.
    apply disciplined_check; [by apply returns_runs, returns_write_parts|].
    apply disciplined_check; [by apply returns_runs, returns_Boundary_End|].
    apply disciplined_check; [by apply returns_runs, returns_Boundary_End|].
    apply disciplined_check; [by apply returns_runs, returns_Boundary_End|].
    apply disciplined_Close. }
  exists rest. rewrite Hrest. cbn [events extend]. by rewrite <- app_assoc.
Qed.

End EnvelopeHeader.



(** * Base64 *)


Lemma land_shiftl_small (a b k : N) :
  (b < 2 ^ k)%N -> N.land (N.shiftl a k) b = 0%N.
Proof.
  intros Hb. apply N.bits_inj. intros n. rewrite N.land_spec, N.bits_0.
  destruct (N.lt_ge_cases n k) as [Hn|Hn].
  - by rewrite N.shiftl_spec_low.
  - rewrite (N.testbit_eqb b), N.div_small, Bool.andb_false_r; [reflexivity|].
    eapply N.lt_le_trans; [exact Hb | apply N.pow_le_mono_r; lia].
Qed.

Lemma lor_shiftl_small (a b k : N) :
  (b < 2 ^ k)%N -> N.lor (N.shiftl a k) b = (a * 2 ^ k + b)%N.
Proof.
  intros Hb. rewrite <- N.shiftl_mul_pow2.
  rewrite N.add_nocarry_lxor by (by apply land_shiftl_small).
  symmetry. by apply N.lxor_lor, land_shiftl_small.
Qed.

Lemma land_63 (x : N) : N.land x 63 = (x mod 64)%N.
Proof. apply (N.land_ones x 6). Qed.

Lemma byte_of_mod (x : N) : byte_of x = ascii_of_N (x mod 256).
Proof. unfold byte_of. f_equal. apply (N.land_ones x 8). Qed.

(** The value the encoder builds from three bytes. *)
Lemma group_value (A B C : N) :
  (A < 256)%N -> (B < 256)%N -> (C < 256)%N ->
  N.lor (N.lor (N.shiftl A 16) (N.shiftl B 8)) C = (A * 65536 + B * 256 + C)%N.
Proof.
  intros HA HB HC.
  replace (N.lor (N.shiftl A 16) (N.shiftl B 8))
    with (N.shiftl (A * 256 + B) 8).
  - rewrite lor_shiftl_small by (change (2 ^ 8)%N with 256%N; lia).
    change (2 ^ 8)%N with 256%N. lia.
  - replace (A * 256 + B)%N with (N.lor (N.shiftl A 8) B)
      by (rewrite lor_shiftl_small; change (2 ^ 8)%N with 256%N; lia).
    rewrite N.shiftl_lor, N.shiftl_shiftl. reflexivity.
Qed.

(** The four digits of a group, by arithmetic. *)
Lemma group_digits (A B C : N) :
  (A < 256)%N -> (B < 256)%N -> (C < 256)%N ->
  let val := (A * 65536 + B * 256 + C)%N in
  N.land (N.shiftr val 18) 63 = (A / 4)%N /\
  N.land (N.shiftr val 12) 63 = (A mod 4 * 16 + B / 16)%N /\
  N.land (N.shiftr val 6) 63 = (B mod 16 * 4 + C / 64)%N /\
  N.land val 63 = (C mod 64)%N.
Proof.
  intros HA HB HC val. unfold val.
  rewrite !land_63, !N.shiftr_div_pow2.
  change (2 ^ 18)%N with 262144%N. change (2 ^ 12)%N with 4096%N.
  change (2 ^ 6)%N with 64%N.
  repeat split; euclid.
Qed.

(** The three bytes the decoder builds from the four digits. *)
Lemma group_bytes (A B C : N) :
  (A < 256)%N -> (B < 256)%N -> (C < 256)%N ->
  let d1 := (A / 4)%N in
  let d2 := (A mod 4 * 16 + B / 16)%N in
  let d3 := (B mod 16 * 4 + C / 64)%N in
  let d4 := (C mod 64)%N in
  byte_of (N.lor (N.shiftl d1 2) (N.shiftr d2 4)) = ascii_of_N A /\
  byte_of (N.lor (N.shiftl d2 4) (N.shiftr d3 2)) = ascii_of_N B /\
  byte_of (N.lor (N.shiftl d3 6) d4) = ascii_of_N C.
Proof.
  intros HA HB HC d1 d2 d3 d4. unfold d1, d2, d3, d4.
  rewrite !byte_of_mod, !N.shiftr_div_pow2.
  change (2 ^ 4)%N with 16%N. change (2 ^ 2)%N with 4%N.
  rewrite !lor_shiftl_small.
  - change (2 ^ 2)%N with 4%N. change (2 ^ 4)%N with 16%N.
    change (2 ^ 6)%N with 64%N.
    repeat split; f_equal; euclid.
  - change (2 ^ 6)%N with 64%N. euclid.
  - change (2 ^ 4)%N with 16%N. euclid.
  - change (2 ^ 2)%N with 4%N. euclid.
Qed.

(** The alphabet and its decoding map are inverse on the 64 digits, and
    no digit is the padding character. *)
Lemma alphabet_inverse_nat (n : nat) :
  (n < 64)%nat ->
  decode_digit (encode_at (N.of_nat n)) = Some (N.of_nat n) /\
  encode_at (N.of_nat n) <> StdPadding.
Proof.
  intros Hn. do 64 (destruct n as [|n]; [by vm_compute|]). lia.
Qed.

Lemma alphabet_inverse (i : N) :
  (i < 64)%N -> decode_digit (encode_at i) = Some i /\ encode_at i <> StdPadding.
Proof.
  intros Hi. rewrite <- (N2Nat.id i). apply alphabet_inverse_nat. lia.
Qed.

Lemma bytes_triple_ind (P : bytes -> Prop) :
  P [] -> (forall a, P [a]) -> (forall a b, P [a; b]) ->
  (forall a b c rest, P rest -> P (a :: b :: c :: rest)) ->
  forall l, P l.
Proof.
  intros H0 H1 H2 H3.
  fix IH 1. intros [|a [|b [|c rest]]]; [done..|].
  apply H3, IH.
Qed.

Lemma Encode_app (a b : bytes) :
  (length a mod 3 = 0)%nat -> Encode (a ++ b) = Encode a ++ Encode b.
Proof.
  induction a as [|x|x y|x y z rest IH] using bytes_triple_ind; intros Hlen.
  - done.
  - done.
  - done.
  - cbn [app Encode]. rewrite IH; [done|].
    rewrite !length_cons in Hlen. euclid.
Qed.

Lemma Decode_Encode (src : bytes) : Decode (Encode src) = Some src.
Proof.
  induction src as [|a|a b|a b c rest IH] using bytes_triple_ind.
  - done.
  - pose proof (N_ascii_bounded a) as HA.
    cbn [Encode]. cbv zeta.
    replace (N.shiftl (N_of_ascii a) 16) with (N_of_ascii a * 65536 + 0 * 256 + 0)%N
      by (rewrite N.shiftl_mul_pow2; change (2 ^ 16)%N with 65536%N; lia).
    destruct (group_digits (N_of_ascii a) 0 0) as (-> & -> & _ & _); [lia..|].
    destruct (alphabet_inverse (N_of_ascii a / 4)) as [Hd1 _]; [euclid|].
    destruct (alphabet_inverse (N_of_ascii a mod 4 * 16 + 0 / 16)) as [Hd2 _];
      [euclid|].
    cbn [Decode]. rewrite Hd1, Hd2.
    rewrite !decide_True by done.
    destruct (group_bytes (N_of_ascii a) 0 0) as (-> & _ & _); [lia..|].
    by rewrite ascii_N_embedding.
  - pose proof (N_ascii_bounded a) as HA. pose proof (N_ascii_bounded b) as HB.
    cbn [Encode]. cbv zeta.
    replace (N.lor (N.shiftl (N_of_ascii a) 16) (N.shiftl (N_of_ascii b) 8))
      with (N_of_ascii a * 65536 + N_of_ascii b * 256 + 0)%N
      by (rewrite <- (group_value _ _ 0), N.lor_0_r by lia; done).
    destruct (group_digits (N_of_ascii a) (N_of_ascii b) 0)
      as (-> & -> & -> & _); [lia..|].
    destruct (alphabet_inverse (N_of_ascii a / 4)) as [Hd1 _]; [euclid|].
    destruct (alphabet_inverse (N_of_ascii a mod 4 * 16 + N_of_ascii b / 16))
      as [Hd2 _]; [euclid|].
    destruct (alphabet_inverse (N_of_ascii b mod 16 * 4 + 0 / 64))
      as [Hd3 Hp3]; [euclid|].
    cbn [Decode]. rewrite Hd1, Hd2, Hd3.
    rewrite (decide_False (P := encode_at _ = StdPadding)) by done.
    rewrite decide_True by done.
    destruct (group_bytes (N_of_ascii a) (N_of_ascii b) 0) as (-> & -> & _);
      [lia..|].
    by rewrite !ascii_N_embedding.
  - pose proof (N_ascii_bounded a) as HA. pose proof (N_ascii_bounded b) as HB.
    pose proof (N_ascii_bounded c) as HC.
    cbn [Encode]. cbv zeta.
    rewrite group_value by done.
    destruct (group_digits (N_of_ascii a) (N_of_ascii b) (N_of_ascii c))
      as (-> & -> & -> & ->); [lia..|].
    destruct (alphabet_inverse (N_of_ascii a / 4)) as [Hd1 _]; [euclid|].
    destruct (alphabet_inverse (N_of_ascii a mod 4 * 16 + N_of_ascii b / 16))
      as [Hd2 _]; [euclid|].
    destruct (alphabet_inverse (N_of_ascii b mod 16 * 4 + N_of_ascii c / 64))
      as [Hd3 Hp3]; [euclid|].
    destruct (alphabet_inverse (N_of_ascii c mod 64)) as [Hd4 Hp4]; [euclid|].
    cbn [Decode]. rewrite Hd1, Hd2, Hd3, Hd4, IH.
    rewrite !(decide_False (P := encode_at _ = StdPadding)) by done.
    destruct (group_bytes (N_of_ascii a) (N_of_ascii b) (N_of_ascii c))
      as (-> & -> & ->); [lia..|].
    by rewrite !ascii_N_embedding.
Qed.

(** ** The streaming encoder on an accepting stream *)

Section EncoderFacts.
Context `{TimeLib} (E : Env).
Hypothesis Hacc : accepts_writes E.

Lemma encoder_interior_accepted fuel p w :
  (length p <= fuel)%nat ->
  exists ws,
    encoder_interior E fuel p w
    = Done (drop (whole p) p, None) (extend w (ok_writes ws)) /\
    concat ws = Encode (take (whole p) p).
Proof.
  revert p w. induction fuel as [|fuel IH]; intros p w Hfuel.
  - destruct p; [|simpl in Hfuel; lia].
    exists []. split; [by rewrite extend_nil | done].
  - cbn [encoder_interior]. destruct (3 <=? length p)%nat eqn:Hlen.
    + apply Nat.leb_le in Hlen.
      set (nn := if (length p <? 768)%nat then _ else _).
      assert (Hnn : (3 <= nn <= length p)%nat /\ (nn mod 3 = 0)%nat).
      { unfold nn. destruct (length p <? 768)%nat eqn:H768;
          [apply Nat.ltb_lt in H768 | apply Nat.ltb_ge in H768]; split; euclid. }
      unfold bind. rewrite Write_accepted by done.
      destruct (IH (drop nn p) (extend w (ok_writes [Encode (take nn p)])))
        as (ws & Hrun & Hws).
      { rewrite length_drop. lia. }
      assert (Hwhole : whole p = (nn + whole (drop nn p))%nat).
      { unfold whole. rewrite length_drop. euclid. }
      exists (Encode (take nn p) :: ws). split.
      * rewrite Hrun, extend_extend, <- ok_writes_app, drop_drop, Hwhole. done.
      * cbn [concat]. rewrite Hws, <- Encode_app, take_take_drop, Hwhole; [done|].
        rewrite length_take. euclid.
    + apply Nat.leb_gt in Hlen. exists [].
      assert (Hwhole : whole p = 0%nat) by (unfold whole; euclid).
      rewrite Hwhole, drop_0, take_0, extend_nil. done.
Qed.

Lemma encoder_rest_accepted p w :
  exists ws,
    encoder_rest E p w
    = Done (mkEncoder None (drop (whole p) p), None) (extend w (ok_writes ws)) /\
    concat ws = Encode (take (whole p) p).
Proof.
  destruct (encoder_interior_accepted (length p) p w) as (ws & Hrun & Hws);
    [done|].
  exists ws. split; [|done]. unfold encoder_rest, bind. by rewrite Hrun.
Qed.

Lemma encoder_Write_accepted e p w :
  enc_err e = None -> (length (enc_buf e) < 3)%nat ->
  exists e' ws full,
    encoder_Write E e p w = Done (e', None) (extend w (ok_writes ws)) /\
    enc_err e' = None /\ (length (enc_buf e') < 3)%nat /\
    enc_buf e ++ p = full ++ enc_buf e' /\
    (length full mod 3 = 0)%nat /\
    concat ws = Encode full.
Proof.
  destruct e as [err buf]. cbn [enc_err enc_buf]. intros -> Hbuf.
  unfold encoder_Write. cbn [enc_err enc_buf].
  destruct (0 <? length buf)%nat eqn:Hb.
  - set (i := Nat.min (length p) (3 - length buf)).
    destruct (length (buf ++ take i p) <? 3)%nat eqn:Hshort.
    + apply Nat.ltb_lt in Hshort. rewrite length_app, length_take in Hshort.
      exists (mkEncoder None (buf ++ take i p)), [], [].
      rewrite extend_nil. cbn [enc_err enc_buf]. repeat split; try done.
      * rewrite length_app, length_take. lia.
      * rewrite take_ge by lia. done.
    + apply Nat.ltb_ge in Hshort. apply Nat.ltb_lt in Hb.
      assert (Hthree : length (buf ++ take i p) = 3%nat).
      { rewrite length_app, length_take in *. lia. }
      unfold bind. rewrite Write_accepted by done.
      destruct (encoder_rest_accepted (drop i p)
                  (extend w (ok_writes [Encode (buf ++ take i p)])))
        as (ws & Hrun & Hws).
      exists (mkEncoder None (drop (whole (drop i p)) (drop i p))),
        (Encode (buf ++ take i p) :: ws),
        ((buf ++ take i p) ++ take (whole (drop i p)) (drop i p)).
      cbn [enc_err enc_buf]. repeat split.
      * by rewrite Hrun, extend_extend, <- ok_writes_app.
      * rewrite length_drop. unfold whole. euclid.
      * by rewrite <- !app_assoc, !take_drop.
      * rewrite length_app, Hthree, length_take. unfold whole. euclid.
      * cbn [concat]. rewrite Hws. symmetry. apply Encode_app. by rewrite Hthree.
  - apply Nat.ltb_ge in Hb. destruct buf; [|simpl in Hb; lia].
    destruct (encoder_rest_accepted p w) as (ws & Hrun & Hws).
    exists (mkEncoder None (drop (whole p) p)), ws, (take (whole p) p).
    cbn [enc_err enc_buf]. repeat split; try done.
    + rewrite length_drop. unfold whole. euclid.
    + by rewrite take_drop.
    + rewrite length_take. unfold whole. euclid.
Qed.

Lemma copy_to_encoder_accepted cs ending e w :
  enc_err e = None -> (length (enc_buf e) < 3)%nat ->
  exists e' ws full,
    copy_loop (encoder_Write E) e cs ending w
    = Done (e', if decide (ending = EOF) then None else Some ending)
        (extend w (ok_writes ws)) /\
    enc_err e' = None /\ (length (enc_buf e') < 3)%nat /\
    enc_buf e ++ concat cs = full ++ enc_buf e' /\
    (length full mod 3 = 0)%nat /\
    concat ws = Encode full.
Proof.
  revert e w. induction cs as [|c cs IH]; intros e w Herr Hbuf.
  - exists e, [], []. rewrite extend_nil, app_nil_r. done.
  - cbn [copy_loop concat]. destruct (0 <? length c)%nat eqn:Hc.
    + destruct (encoder_Write_accepted e c w Herr Hbuf)
        as (e1 & ws1 & full1 & Hrun1 & Herr1 & Hbuf1 & Hdata1 & Hlen1 & Hws1).
      destruct (IH e1 (extend w (ok_writes ws1)) Herr1 Hbuf1)
        as (e2 & ws2 & full2 & Hrun2 & Herr2 & Hbuf2 & Hdata2 & Hlen2 & Hws2).
      exists e2, (ws1 ++ ws2), (full1 ++ full2).
      unfold bind. rewrite Hrun1. cbn [fst snd].
      rewrite Hrun2, extend_extend, <- ok_writes_app. repeat split; try done.
      * by rewrite app_assoc, Hdata1, <- app_assoc, Hdata2, app_assoc.
      * rewrite length_app. euclid.
      * by rewrite concat_app, Hws1, Hws2, Encode_app.
    + apply Nat.ltb_ge in Hc. destruct c; [|simpl in Hc; lia].
      apply IH; done.
Qed.

Lemma encoder_Close_accepted e w :
  enc_err e = None ->
  exists e',
    encoder_Close E e w
    = Done (e', None)
        (extend w (ok_writes (match enc_buf e with
                              | [] => []
                              | _ => [Encode (enc_buf e)]
                              end))).
Proof.
  destruct e as [err buf]. cbn [enc_err enc_buf]. intros ->.
  unfold encoder_Close. cbn [enc_err enc_buf]. destruct buf as [|b buf].
  - exists (mkEncoder None []). by rewrite extend_nil.
  - cbn [length Nat.ltb Nat.leb]. unfold bind.
    rewrite Write_accepted by done. by eexists.
Qed.

End EncoderFacts.


(** * The variant without error results on an accepting stream *)

Section UncheckedAccepted.
Context `{TimeLib} (E : Env).
Hypothesis Hlegal : range_legal E.
Hypothesis Hacc : accepts_writes E.

Lemma unchecked_write_fields_accepted fs w :
  Unchecked.write_fields E fs w = Done tt (extend w (ok_writes (header_writes fs))).
Proof.
  revert w. induction fs as [|[property values] fs IH]; intros w.
  - by rewrite extend_nil.
  - unfold header_writes. rewrite map_cons, concat_cons. fold (header_writes fs).
    unfold field_writes. cbn [Unchecked.write_fields fst snd]. unfold bind at 1.
    rewrite Write_accepted by done.
    destruct (length values =? 0)%nat.
    + unfold bind. rewrite Write_accepted by done.
      rewrite IH, !extend_extend, <- !ok_writes_app. done.
    + unfold bind. rewrite Write_accepted by done.
      rewrite Copy_string_write_all, write_all_accepted by done.
      rewrite Write_accepted by done.
      rewrite IH, !extend_extend, <- !ok_writes_app, <- !app_assoc. done.
Qed.

Lemma unchecked_Headers_Write_accepted h w :
  Unchecked.Headers_Write E h w =
  Done tt (extend w (ok_writes (header_writes (range E (events w) h)))).
Proof. apply unchecked_write_fields_accepted. Qed.

Lemma unchecked_NewBoundary_accepted mime w :
  Unchecked.NewBoundary E mime w = Postbox.NewBoundary E mime w.
Proof.
  unfold Unchecked.NewBoundary, Postbox.NewBoundary, bind.
  destruct (RandomBoundary E w) as [identifier w1|w1]; [|done].
  by rewrite unchecked_Headers_Write_accepted, Headers_Write_accepted.
Qed.

Lemma unchecked_Mark_accepted b w :
  Unchecked.Boundary_Mark E b w = Done tt (extend w (ok_writes [mark (Identifier b)])).
Proof. unfold Unchecked.Boundary_Mark, bind. by rewrite Write_accepted. Qed.

Lemma unchecked_End_accepted b w :
  Unchecked.Boundary_End E b w
  = Done tt (extend w (ok_writes [close_marker (Identifier b)])).
Proof. unfold Unchecked.Boundary_End, bind. by rewrite Write_accepted. Qed.

Lemma unchecked_Part_Write_accepted part charset w :
  exists block,
    Unchecked.Part_Write E part charset w = Done tt (extend w (ok_writes block)).
Proof.
  destruct (returns_unchecked_Part_Write E accepted (accepted_Write E Hacc)
              part charset w) as ([] & new & Heq & Hnew).
  apply Forall_accepted in Hnew as [block ->]. by exists block.
Qed.

(** Where the variant with error results succeeds, the other one has
    done the same. *)
Lemma unchecked_Part_Write_of_checked part charset w w1 :
  Postbox.Part_Write E part charset w = Done None w1 ->
  Unchecked.Part_Write E part charset w = Done tt w1.
Proof.
  unfold Postbox.Part_Write, Unchecked.Part_Write, bind.
  rewrite Headers_Write_accepted, unchecked_Headers_Write_accepted by done.
  rewrite !Write_accepted by done.
  repeat case_decide; unfold bind, ret;
    repeat match goal with
           | |- context [match io_Copy ?f ?d ?r ?w0 with _ => _ end] =>
               destruct (io_Copy f d r w0) as [[? [?|]] ?|?]; cbn [fst snd]
           | |- context [match encoder_Close E ?e ?w0 with _ => _ end] =>
               destruct (encoder_Close E e w0) as [[? [?|]] ?|?]; cbn [fst snd]
           end;
    try done; rewrite ?Write_accepted by done; by intros [= <-].
Qed.

Lemma unchecked_write_parts_accepted b parts charset w :
  exists blocks,
    Unchecked.write_parts E b parts charset w =
    Done tt (extend w (ok_writes
      (concat (map (fun block => mark (Identifier b) :: block) blocks)))) /\
    Forall2 (unchecked_part_block E charset) parts blocks.
Proof.
  revert w. induction parts as [|part parts IH]; intros w.
  - exists []. split; [by rewrite extend_nil | constructor].
  - cbn [Unchecked.write_parts]. unfold bind at 1.
    rewrite unchecked_Mark_accepted. unfold bind at 1.
    destruct (unchecked_Part_Write_accepted part charset
                (extend w (ok_writes [mark (Identifier b)])))
      as (block & Hpart).
    rewrite Hpart.
    destruct (IH (extend (extend w (ok_writes [mark (Identifier b)]))
                    (ok_writes block))) as (blocks & Hrest & Hblocks).
    exists (block :: blocks). split.
    + rewrite Hrest, !extend_extend, <- !ok_writes_app. done.
    + constructor; [|done].
      by exists (extend w (ok_writes [mark (Identifier b)])).
Qed.

Lemma unchecked_Envelope_Write_accepted e w e' w' :
  Unchecked.Envelope_Write E e w = Done e' w' ->
  exists blocks r,
    events w' = events w ++
      message (header_writes (range E (events w) (Postbox.envelope_headers e')))
        (token E (draws w)) (token E (S (draws w))) (token E (S (S (draws w))))
        blocks r /\
    Forall2 (unchecked_part_block E (Charset e)) (Parts e) blocks.
Proof.
  intros Hrun. pose proof (Unchecked_Envelope_Write_result E _ _ _ _ Hrun) as ->.
  revert Hrun. unfold Unchecked.Envelope_Write. fold (dated E e).
  rewrite Parts_dated, Charset_dated.
  unfold bind. rewrite unchecked_Headers_Write_accepted.
  rewrite unchecked_NewBoundary_accepted, NewBoundary_accepted by done.
  cbn [draws extend].
  destruct (rand_fail E (draws w)); [done|].
  rewrite unchecked_Mark_accepted.
  rewrite unchecked_NewBoundary_accepted, NewBoundary_accepted by done.
  cbn [draws extend].
  destruct (rand_fail E (S (draws w))); [done|].
  rewrite unchecked_Mark_accepted.
  rewrite unchecked_NewBoundary_accepted, NewBoundary_accepted by done.
  cbn [draws extend].
  destruct (rand_fail E (S (S (draws w)))); [done|].
  match goal with |- context [Unchecked.write_parts E ?b ?ps ?cs ?w0] =>
    destruct (unchecked_write_parts_accepted b ps cs w0)
      as (blocks & -> & Hblocks) end.
  rewrite !unchecked_End_accepted.
  unfold Close, call, ret. cbn [events extend draws Identifier].
  intros [= <-]. eexists blocks, _. split; [|done].
  cbn [events]. unfold message.
  rewrite !ok_writes_app, <- !app_assoc. done.
Qed.

End UncheckedAccepted.

Section UncheckedGoesOn.
Context `{TimeLib} (E : Env).

(** The variant without error results asks the stream for every write of
    every field, whatever the stream answers. *)
Lemma unchecked_write_fields_calls fs w :
  exists new,
    Unchecked.write_fields E fs w = Done tt (extend w new) /\
    map ev_call new = map CWrite (header_writes fs).
Proof.
  revert w. induction fs as [|[property values] fs IH]; intros w.
  - exists []. by rewrite extend_nil.
  - unfold header_writes. rewrite map_cons, concat_cons. fold (header_writes fs).
    unfold field_writes. cbn [Unchecked.write_fields fst snd]. unfold bind at 1.
    rewrite Write_eq. destruct (length values =? 0)%nat.
    + unfold bind. rewrite Write_eq.
      match goal with |- context [Unchecked.write_fields E fs ?w0] =>
        destruct (IH w0) as (new & Hrun & Hcalls) end.
      eexists (_ :: _ :: new). rewrite Hrun, !extend_extend. split; [done|].
      cbn [map app]. by rewrite Hcalls.
    + unfold bind at 1. rewrite Write_eq. unfold bind at 1.
      destruct (strings_Join values "; ") as [|c joined] eqn:Hjoin.
      * cbn [Copy_string nonempty app]. unfold ret, bind. rewrite Write_eq.
        match goal with |- context [Unchecked.write_fields E fs ?w0] =>
          destruct (IH w0) as (new & Hrun & Hcalls) end.
        eexists (_ :: _ :: _ :: new). rewrite Hrun, !extend_extend.
        split; [done|]. cbn [map app]. by rewrite Hcalls.
      * cbn [Copy_string nonempty app]. rewrite Write_eq. unfold bind.
        rewrite Write_eq.
        match goal with |- context [Unchecked.write_fields E fs ?w0] =>
          destruct (IH w0) as (new & Hrun & Hcalls) end.
        eexists (_ :: _ :: _ :: _ :: new). rewrite Hrun, !extend_extend.
        split; [done|]. cbn [map app]. by rewrite Hcalls.
Qed.

Lemma closes_at_end_grows {A} old (o : Outcome A) :
  closes_at_end old o -> exists rest, events (final o) = old ++ rest.
Proof. intros [a r ws w' _ Hev|ws w' _ Hev]; cbn [final]; by eexists. Qed.

Hypothesis Hacc : accepts_writes E.

(** On an accepting stream its trace begins with the header block too. *)
Lemma Unchecked_Envelope_Write_begins e w :
  exists rest,
    events (final (Unchecked.Envelope_Write E e w)) =
    events w
    ++ ok_writes (header_writes
                    (range E (events w) (Postbox.envelope_headers (dated E e))))
    ++ rest.
Proof.
  unfold Unchecked.Envelope_Write. fold (dated E e).
  rewrite (final_bind_Done _ _ _ _ _
             (unchecked_Headers_Write_accepted E Hacc _ w)).
  match goal with |- context [final ?o] =>
    destruct (closes_at_end_grows (events (extend w (ok_writes (header_writes
      (range E (events w) (Postbox.envelope_headers (dated E e))))))) o)
      as [rest Hrest] end.
  { pose proof (is_write_Write E) as HW.
    apply closes_at_end_bind; [by apply runs_unchecked_NewBoundary|].
    intros mixed w2.
    apply closes_at_end_bind; [by apply returns_runs, returns_unchecked_Mark|].
    intros _ w3.
    apply closes_at_end_bind; [by apply runs_unchecked_NewBoundary|].
    intros related w4.
    apply closes_at_end_bind; [by apply returns_runs, returns_unchecked_Mark|].
    intros _ w5.
    apply closes_at_end_bind; [by apply runs_unchecked_NewBoundary|].
    intros alternative w6.
    apply closes_at_end_bind;
      [by apply returns_runs, returns_unchecked_write_parts|]. intros _ w7.
    apply closes_at_end_bind; [by apply returns_runs, returns_unchecked_End|].
    intros _ w8.
    apply closes_at_end_bind; [by apply returns_runs, returns_unchecked_End|].
    intros _ w9.
    apply closes_at_end_bind; [by apply returns_runs, returns_unchecked_End|].
    intros _ w10.
    by apply unchecked_closed
      with (r := writer E (events w10) CClose) (ws := []). }
  exists rest. rewrite Hrest. cbn [events extend]. by rewrite <- app_assoc.
Qed.

End UncheckedGoesOn.

Section FieldFacts.
Context `{TimeLib} (E : Env).

Lemma Headers_Write_field h w name values :
  range_legal E -> accepts_writes E -> h !! name = Some values ->
  exists before after new,
    range E (events w) h = before ++ (name, values) :: after /\
    (name ∉ (before ++ after).*1) /\
    Postbox.Headers_Write E h w = Done None (extend w new) /\
    Unchecked.Headers_Write E h w = Done tt (extend w new) /\
    written new = header_block before ++ to_bytes (header_line (name, values))
                  ++ header_block after.
Proof.
  intros Hlegal Hacc Hlook.
  destruct (range_visits_once E h (events w) name values Hlegal Hlook)
    as (before & after & Heq & Hnot).
  exists before, after, (ok_writes (header_writes (range E (events w) h))).
  split; [done|]. split; [done|]. split; [by apply Headers_Write_accepted|].
  split; [by apply unchecked_Headers_Write_accepted|].
  by rewrite written_ok_writes, concat_header_writes, Heq, header_block_app,
    header_block_cons.
Qed.

End FieldFacts.

(** * Parts written without error *)

Section CleanParts.
Context `{TimeLib} (E : Env).
Hypothesis Hacc : accepts_writes E.

Lemma Part_Write_base64_accepted p charset w :
  Encoding p = Base64 -> ending (Reader p) = EOF ->
  exists body,
    Postbox.Part_Write E p charset w
    = Done None (extend w (ok_writes
        (header_writes (range E (events w) (part_headers p charset))
         ++ [to_bytes CRLF] ++ body ++ [to_bytes CRLF]))) /\
    concat body = Encode (concat (chunks (Reader p))).
Proof.
  intros Henc Hend.
  set (w2 := extend (extend w (ok_writes (header_writes
                (range E (events w) (part_headers p charset)))))
               (ok_writes [to_bytes CRLF])).
  destruct (copy_to_encoder_accepted E Hacc (chunks (Reader p))
              (ending (Reader p)) base64_NewEncoder w2)
    as (e' & ws & full & Hcopy & Herr & Hbuf & Hdata & Hlen & Hws);
    [done | cbn; lia |].
  destruct (encoder_Close_accepted E Hacc e' (extend w2 (ok_writes ws)) Herr)
    as (e'' & Hclose).
  cbn [base64_NewEncoder enc_buf app] in Hdata.
  exists (ws ++ match enc_buf e' with [] => [] | _ => [Encode (enc_buf e')] end).
  split.
  - unfold Postbox.Part_Write, bind.
    rewrite Headers_Write_accepted, Write_accepted by done.
    rewrite decide_False by (rewrite Henc; discriminate).
    rewrite decide_True by done.
    unfold io_Copy. fold (part_headers p charset). fold w2.
    rewrite Hcopy. cbn [fst snd]. rewrite Hend, decide_True by done.
    rewrite Hclose. cbn [fst snd].
    unfold ret. rewrite Write_accepted by done. unfold w2.
    rewrite !extend_extend, <- !ok_writes_app, <- !app_assoc. done.
  - rewrite concat_app, Hws, Hdata, Encode_app by done. f_equal.
    destruct (enc_buf e'); [done|]. cbn [concat]. by rewrite app_nil_r.
Qed.

Lemma base64_part_clean p charset :
  Encoding p = Base64 -> ending (Reader p) = EOF -> clean E charset p.
Proof.
  intros Henc Hend w.
  destruct (Part_Write_base64_accepted p charset w Henc Hend) as (body & Hrun & _).
  by eexists.
Qed.

Lemma ok_writes_app_tail a b (t : list Event) :
  ok_writes a ++ ok_writes b ++ t = ok_writes (a ++ b) ++ t.
Proof. by rewrite ok_writes_app, <- app_assoc. Qed.

Lemma is_write_ok_writes ps : Forall is_write (ok_writes ps).
Proof. apply Forall_forall. intros ev [p [-> _]]%list_elem_of_fmap. exact I. Qed.

Lemma write_parts_clean b parts charset w :
  Forall (clean E charset) parts ->
  exists ps,
    Postbox.write_parts E b parts charset w = Done None (extend w (ok_writes ps)).
Proof.
  intros Hclean. revert w. induction Hclean as [|part parts Hpart _ IH]; intros w.
  - exists []. by rewrite extend_nil.
  - cbn [Postbox.write_parts]. unfold bind at 1.
    rewrite Boundary_Mark_accepted by done. unfold bind at 1.
    destruct (Part_Write_accepted E Hacc part charset
                (extend w (ok_writes [mark (Identifier b)])))
      as (r & block & Hrun).
    destruct (Hpart (extend w (ok_writes [mark (Identifier b)]))) as (w' & Hok).
    rewrite Hrun in Hok. injection Hok as -> _. rewrite Hrun.
    destruct (IH (extend (extend w (ok_writes [mark (Identifier b)]))
                    (ok_writes block))) as (ps & Hrest).
    eexists. by rewrite Hrest, !extend_extend, <- !ok_writes_app.
Qed.

Hypothesis Hlegal : range_legal E.

Lemma Envelope_Write_closes_when_clean e w :
  (forall i, rand_fail E i = false) ->
  Forall (clean E (Charset e)) (Parts e) ->
  exists ws r w',
    Postbox.Envelope_Write E e w = Done (dated E e, r) w' /\
    Forall is_write ws /\
    events w' = events w ++ ws ++ [mkEvent CClose r].
Proof.
  intros Hrand Hclean.
  unfold Postbox.Envelope_Write. fold (dated E e).
  rewrite Parts_dated, Charset_dated.
  unfold bind. rewrite Headers_Write_accepted by done.
  rewrite NewBoundary_accepted, Hrand by done. cbn [draws extend].
  rewrite Boundary_Mark_accepted by done.
  rewrite NewBoundary_accepted, Hrand by done. cbn [draws extend].
  rewrite Boundary_Mark_accepted by done.
  rewrite NewBoundary_accepted, Hrand by done. cbn [draws extend].
  match goal with |- context [Postbox.write_parts E ?b ?ps ?cs ?w0] =>
    destruct (write_parts_clean b ps cs w0 Hclean) as (ps' & ->) end.
  rewrite !Boundary_End_accepted by done.
  unfold Close, call, ret. cbn [events extend draws Identifier].
  rewrite <- !app_assoc, !ok_writes_app_tail.
  eexists _, _, _. split; [reflexivity|]. cbn [events].
  split; [|reflexivity]. apply is_write_ok_writes.
Qed.

End CleanParts.

Module ExampleClean.

Lemma body_clean : clean Example.steady "utf-8" Example.body.
Proof. by apply base64_part_clean. Qed.

End ExampleClean.

(** * Parts marked quoted-printable *)

Section QuotedPrintableParts.
Context `{TimeLib} (E : Env).
Hypothesis Hacc : accepts_writes E.

Lemma copy_to_stream_accepted cs ending w :
  copy_loop (stream_write E) tt cs ending w
  = Done (tt, if decide (ending = EOF) then None else Some ending)
      (extend w (ok_writes (filter (fun c : bytes => (0 < length c)%nat) cs))).
Proof.
  revert w. induction cs as [|c cs IH]; intros w.
  - by rewrite extend_nil.
  - cbn [copy_loop]. rewrite filter_cons.
    destruct (0 <? length c)%nat eqn:Hc.
    + apply Nat.ltb_lt in Hc.
      rewrite (decide_True (P := (0 < length c)%nat)) by done.
      unfold bind, stream_write, bind. rewrite Write_accepted by done.
      cbn [ret fst snd]. unfold ret. cbn [fst snd].
      by rewrite IH, extend_extend.
    + apply Nat.ltb_ge in Hc.
      rewrite (decide_False (P := (0 < length c)%nat)) by lia. apply IH.
Qed.

(** The body of a part marked quoted-printable is what the decoding
    reader delivers from the source; the closing CRLF follows when the
    decoding ends without error. *)
Lemma Part_Write_quoted_printable_accepted p charset w :
  Encoding p = QuotedPrintable ->
  let decoded := quotedprintable_NewReader (Reader p) in
  let body := filter (fun c : bytes => (0 < length c)%nat) (chunks decoded) in
  let hdr := header_writes (range E (events w) (part_headers p charset)) in
  Postbox.Part_Write E p charset w =
  if decide (ending decoded = EOF)
  then Done None (extend w (ok_writes
         (hdr ++ [to_bytes CRLF] ++ body ++ [to_bytes CRLF])))
  else Done (Some (ending decoded))
         (extend w (ok_writes (hdr ++ [to_bytes CRLF] ++ body))).
Proof.
  intros Henc decoded body hdr.
  unfold Postbox.Part_Write, bind.
  rewrite Headers_Write_accepted, Write_accepted by done.
  rewrite (decide_True (P := Encoding p = QuotedPrintable)) by done.
  unfold io_Copy. rewrite copy_to_stream_accepted. cbn [fst snd]. unfold ret.
  fold decoded. fold (part_headers p charset). fold hdr. fold body.
  destruct (decide (ending decoded = EOF)).
  - rewrite Write_accepted by done.
    by rewrite !extend_extend, <- !ok_writes_app.
  - by rewrite !extend_extend, <- !ok_writes_app.
Qed.

End QuotedPrintableParts.

(** * The library models on known inputs *)

Example hex_of_bytes : Sprintf_x (to_bytes "az~") = "617a7e".
Proof. reflexivity. Qed.

Example base64_of_f : Encode (to_bytes "f") = to_bytes "Zg==".
Proof. reflexivity. Qed.

Example base64_of_fo : Encode (to_bytes "fo") = to_bytes "Zm8=".
Proof. reflexivity. Qed.

Example base64_of_foobar : Encode (to_bytes "foobar") = to_bytes "Zm9vYmFy".
Proof. reflexivity. Qed.

Example base64_decodes_padding : Decode (to_bytes "Zm9vYg==") = Some (to_bytes "foob").
Proof. reflexivity. Qed.

(** Cases of the tests of mime/quotedprintable. *)
Example qp_escape :
  quotedprintable_NewReader (strings_NewReader "foo bar=3D")
  = mkReader [to_bytes "foo bar="] EOF.
Proof. vm_compute. reflexivity. Qed.

Example qp_literal_equal :
  quotedprintable_NewReader (strings_NewReader "foo bar=0")
  = mkReader [to_bytes "foo bar=0"] EOF.
Proof. vm_compute. reflexivity. Qed.

Example qp_soft_break :
  quotedprintable_NewReader (strings_NewReader ("foo=" +:+ LF +:+ "bar"))
  = mkReader [to_bytes "foobar"] EOF.
Proof. vm_compute. reflexivity. Qed.

Example qp_trailing_space :
  quotedprintable_NewReader (strings_NewReader ("foo  " +:+ CRLF +:+ "bar"))
  = mkReader [to_bytes ("foo" +:+ CRLF +:+ "bar")] EOF.
Proof. vm_compute. reflexivity. Qed.

Example qp_control_byte :
  quotedprintable_NewReader (strings_NewReader ("foo" +:+ String "000" "bar"))
  = mkReader [to_bytes "foo"] (ErrInvalidUnescaped "000").
Proof. vm_compute. reflexivity. Qed.

Example qp_lone_equal :
  quotedprintable_NewReader (strings_NewReader "=")
  = mkReader [] (ErrInvalidAfterEq []).
Proof. vm_compute. reflexivity. Qed.

(** * The claims *)

(** ** Headers *)

(** C3, counterexample: the map of a [To] and a [Cc] field is written
    [Cc] first by one legal [range] and [To] first by another. *)
Lemma emission_not_deterministic : ~ emission_deterministic.
Proof.
  intros Hdet.
  specialize (Hdet Example.clock Example.steady Example.reversed
                Example.recipients Example.start
                ExampleFacts.steady_legal ExampleFacts.reversed_legal eq_refl).
  vm_compute in Hdet. discriminate Hdet.
Qed.

(** C6, counterexample: on a stream that refuses every write the variant
    without error results still writes on after the first refusal. *)
Lemma unchecked_does_not_stop : ~ unchecked_stops_at_failure.
Proof.
  intros Hstop.
  specialize (Hstop Example.clock Example.broken Example.recipients Example.start
                [] [mkEvent (CWrite (to_bytes (":" +:+ CRLF))) (Some (ErrDestination 1));
                    mkEvent (CWrite (to_bytes "To")) (Some (ErrDestination 1));
                    mkEvent (CWrite (to_bytes ": ")) (Some (ErrDestination 1));
                    mkEvent (CWrite (to_bytes "bil@example.com; dan@example.com"))
                      (Some (ErrDestination 1));
                    mkEvent (CWrite (to_bytes CRLF)) (Some (ErrDestination 1))]
                (mkEvent (CWrite (to_bytes "Cc")) (Some (ErrDestination 1)))).
  discriminate Hstop; [vm_compute; reflexivity | discriminate].
Qed.

(** C6, amended: where [Headers.Write] has an error result it never
    panics and touches nothing but the stream; its writes are those of the
    fields in turn up to the first one the stream refuses: that write is
    the last one made, and its error is the result.  The variant without
    error results makes every write of every field whatever the stream
    answers. *)
Theorem Headers_Write_stops_at_first_failure `{TimeLib} (E : Env)
  (h : Headers) (w : World) :
  (exists new r,
     Postbox.Headers_Write E h w = Done r (extend w new) /\
     stops_at (header_writes (range E (events w) h)) new r) /\
  (exists new,
     Unchecked.Headers_Write E h w = Done tt (extend w new) /\
     map ev_call new = map CWrite (header_writes (range E (events w) h))).
Proof.
  split.
  - rewrite Headers_Write_write_all. apply write_all_stops.
  - apply unchecked_write_fields_calls.
Qed.

(** ** The envelope *)

(** C2, counterexample: on a stream that refuses the first write
    [Envelope.Write] returns that error and never calls close. *)
Lemma not_always_closes : ~ always_closes.
Proof.
  intros Hall.
  destruct (Hall Example.clock Example.broken Example.mail Example.start)
    as (e' & r & w' & ws & Hrun & Hws & Hev).
  vm_compute in Hrun. injection Hrun as _ _ <-.
  destruct ws as [|x [|y ws]]; discriminate Hev.
Qed.

(** C2, amended: [Envelope.Write] calls close at most once, as its last
    call on the stream, and then returns what close answered; a run that
    returns an error without that call, or panics in [RandomBoundary],
    has made only writes and leaves the stream unclosed.  On a stream
    that accepts every write, with a random source that does not fail and
    parts that are written without error, close is called, once.  The
    variant without error results closes the stream as its last call
    unless it panics, whatever failed before; what close answers is
    dropped. *)
Theorem Envelope_Write_closes_last `{TimeLib} (E : Env) (e : Envelope) (w : World) :
  close_discipline (events w) (Postbox.Envelope_Write E e w) /\
  closes_at_end (events w) (Unchecked.Envelope_Write E e w) /\
  (range_legal E -> accepts_writes E -> (forall i, rand_fail E i = false) ->
   Forall (clean E (Charset e)) (Parts e) ->
   exists ws r w',
     Postbox.Envelope_Write E e w = Done (dated E e, r) w' /\
     Forall is_write ws /\
     events w' = events w ++ ws ++ [mkEvent CClose r]).
Proof.
  split; [apply Envelope_Write_disciplined|].
  split; [apply Unchecked_Envelope_Write_closes|].
  intros Hlegal Hacc. by apply Envelope_Write_closes_when_clean.
Qed.

Lemma Envelope_Write_closes_last_witness :
  exists ws r w',
    Postbox.Envelope_Write Example.steady Example.mail Example.start
    = Done (dated Example.steady Example.mail, r) w' /\
    Forall is_write ws /\
    events w' = events Example.start ++ ws ++ [mkEvent CClose r].
Proof.
  apply (proj2 (proj2 (Envelope_Write_closes_last Example.steady Example.mail
                         Example.start))).
  - exact ExampleFacts.steady_legal.
  - exact ExampleFacts.steady_accepts.
  - reflexivity.
  - repeat constructor. apply ExampleClean.body_clean.
Defined.






(** ** Boundaries *)

(** C9, counterexample: on an accepting stream [Mark] after [End] returns
    nil and has written one more delimiter, after the close marker. *)
Lemma mark_after_end_not_rejected : ~ mark_after_end_rejected.
Proof.
  intros Hrej.
  specialize (Hrej Example.clock Example.steady (mkBoundary "b") Example.start).
  vm_compute in Hrej. by destruct Hrej as [Hr _].
Qed.

(** C9, amended: a [Boundary] keeps no record of [End]: a [Mark] that
    follows it writes the delimiter of the boundary once more, after the
    close marker, and returns what the stream answered, as any [Mark]
    does (in the variant of src/main.go, without a result). *)
Theorem Boundary_Mark_after_End `{TimeLib} (E : Env) (b : Boundary) (w : World) :
  let closing := close_marker (Identifier b) in
  let r1 := writer E (events w) (CWrite closing) in
  let w1 := extend w [mkEvent (CWrite closing) r1] in
  let r2 := writer E (events w1) (CWrite (mark (Identifier b))) in
  Postbox.Boundary_End E b w = Done r1 w1 /\
  Postbox.Boundary_Mark E b w1
  = Done r2 (extend w1 [mkEvent (CWrite (mark (Identifier b))) r2]) /\
  Unchecked.Boundary_End E b w = Done tt w1 /\
  Unchecked.Boundary_Mark E b w1
  = Done tt (extend w1 [mkEvent (CWrite (mark (Identifier b))) r2]).
Proof. repeat split. Qed.

(** ** Parts *)

(** C5: a part with the base64 selector, whose source delivers its bytes
    in pieces of any lengths and ends cleanly, is written on an accepting
    stream as its headers, a blank line, a body and CRLF; the body is the
    standard encoding of all the bytes of the source, so decoding it gives
    them back, whatever their number (in both variants). *)
Theorem Part_Write_base64_round_trip `{TimeLib} (E : Env) (p : Part)
  (charset : string) (w : World) :
  accepts_writes E ->
  Encoding p = Base64 -> ending (Reader p) = EOF ->
  exists body,
    let block := header_writes (range E (events w) (part_headers p charset))
                 ++ [to_bytes CRLF] ++ body ++ [to_bytes CRLF] in
    Postbox.Part_Write E p charset w = Done None (extend w (ok_writes block)) /\
    Unchecked.Part_Write E p charset w = Done tt (extend w (ok_writes block)) /\
    concat body = Encode (concat (chunks (Reader p))) /\
    Decode (concat body) = Some (concat (chunks (Reader p))).
Proof.
  intros Hacc Henc Hend.
  destruct (Part_Write_base64_accepted E Hacc p charset w Henc Hend)
    as (body & Hrun & Hbody).
  exists body. cbv zeta. split; [exact Hrun|].
  split; [by apply unchecked_Part_Write_of_checked|].
  split; [exact Hbody|]. rewrite Hbody. apply Decode_Encode.
Qed.

Lemma Part_Write_base64_round_trip_witness :
  exists body,
    let block := header_writes (range Example.steady (events Example.start)
                                  (part_headers Example.body "utf-8"))
                 ++ [to_bytes CRLF] ++ body ++ [to_bytes CRLF] in
    Postbox.Part_Write Example.steady Example.body "utf-8" Example.start
      = Done None (extend Example.start (ok_writes block)) /\
    Unchecked.Part_Write Example.steady Example.body "utf-8" Example.start
      = Done tt (extend Example.start (ok_writes block)) /\
    concat body = Encode (concat (chunks (Reader Example.body))) /\
    Decode (concat body) = Some (concat (chunks (Reader Example.body))).
Proof.
  apply (Part_Write_base64_round_trip Example.steady Example.body "utf-8"
           Example.start ExampleFacts.steady_accepts); reflexivity.
Defined.

(** C1: on the part of [Example.quoted], whose source holds [x=41y], both
    variants of [Part.Write] write the body [xAy]: the source has been
    DECODED from quoted-printable, not encoded.  Decoding that body gives
    [xAy], not the bytes of the source. *)
Theorem Part_Write_quoted_printable_decodes :
  let block := header_writes (range Example.steady (events Example.start)
                                (part_headers Example.quoted "utf-8"))
               ++ [to_bytes CRLF] ++ [to_bytes "xAy"] ++ [to_bytes CRLF] in
  Postbox.Part_Write Example.steady Example.quoted "utf-8" Example.start
    = Done None (extend Example.start (ok_writes block)) /\
  Unchecked.Part_Write Example.steady Example.quoted "utf-8" Example.start
    = Done tt (extend Example.start (ok_writes block)) /\
  concat (chunks (quotedprintable_NewReader (mkReader [to_bytes "xAy"] EOF)))
    = to_bytes "xAy" /\
  concat (chunks (Reader Example.quoted)) = to_bytes "x=41y".
Proof. vm_compute. done. Qed.

(** The round trip of C1 fails on that part. *)
Lemma quoted_printable_does_not_round_trip : ~ quoted_printable_round_trip.
Proof.
  intros Hround.
  specialize (Hround Example.clock Example.steady Example.quoted "utf-8"
                Example.start
                (header_writes (range Example.steady (events Example.start)
                                  (part_headers Example.quoted "utf-8")))
                [to_bytes "xAy"] ExampleFacts.steady_accepts eq_refl eq_refl).
  discriminate Hround; vm_compute; reflexivity.
Qed.

(** * Further properties of the package *)

(** ** Parts on an accepting stream *)

Section PartFacts.
Context `{TimeLib} (E : Env).
Hypothesis Hacc : accepts_writes E.

Lemma concat_reads r : concat (reads r) = concat (chunks r).
Proof.
  unfold reads. induction (chunks r) as [|c cs IH]; [done|].
  rewrite filter_cons. case_decide as Hc.
  - cbn [concat]. by rewrite IH.
  - destruct c; [|simpl in Hc; lia]. by rewrite IH.
Qed.

(** What [Part.Write] does once the headers and the blank line are out,
    when the source is copied as it is. *)
Lemma Part_Write_plain_accepted p charset w :
  Encoding p <> QuotedPrintable -> Encoding p <> Base64 ->
  let hdr := header_writes (range E (events w) (part_headers p charset)) in
  Postbox.Part_Write E p charset w =
  (if decide (ending (Reader p) = EOF)
   then Done None (extend w (ok_writes
          (hdr ++ [to_bytes CRLF] ++ reads (Reader p) ++ [to_bytes CRLF])))
   else Done (Some (ending (Reader p)))
          (extend w (ok_writes (hdr ++ [to_bytes CRLF] ++ reads (Reader p))))) /\
  Unchecked.Part_Write E p charset w =
  Done tt (extend w (ok_writes
    (hdr ++ [to_bytes CRLF] ++ reads (Reader p) ++ [to_bytes CRLF]))).
Proof.
  intros Hqp Hb64 hdr. split.
  - unfold Postbox.Part_Write, bind.
    rewrite Headers_Write_accepted, Write_accepted by done.
    rewrite (decide_False (P := Encoding p = QuotedPrintable)) by done.
    rewrite (decide_False (P := Encoding p = Base64)) by done.
    unfold io_Copy. rewrite copy_to_stream_accepted by done.
    cbn [fst snd]. unfold ret. fold (part_headers p charset). fold hdr.
    fold (reads (Reader p)).
    destruct (decide (ending (Reader p) = EOF)).
    + rewrite Write_accepted by done.
      by rewrite !extend_extend, <- !ok_writes_app.
    + by rewrite !extend_extend, <- !ok_writes_app.
  - unfold Unchecked.Part_Write, bind.
    rewrite unchecked_Headers_Write_accepted, Write_accepted by done.
    rewrite (decide_False (P := Encoding p = QuotedPrintable)) by done.
    rewrite (decide_False (P := Encoding p = Base64)) by done.
    unfold io_Copy. rewrite copy_to_stream_accepted by done.
    unfold ret. rewrite Write_accepted by done.
    fold (part_headers p charset). fold hdr. fold (reads (Reader p)).
    by rewrite !extend_extend, <- !ok_writes_app.
Qed.

Lemma unchecked_Part_Write_quoted_printable_accepted p charset w :
  Encoding p = QuotedPrintable ->
  Unchecked.Part_Write E p charset w =
  Done tt (extend w (ok_writes
    (header_writes (range E (events w) (part_headers p charset))
     ++ [to_bytes CRLF] ++ reads (quotedprintable_NewReader (Reader p))
     ++ [to_bytes CRLF]))).
Proof.
  intros Hqp. unfold Unchecked.Part_Write, bind.
  rewrite unchecked_Headers_Write_accepted, Write_accepted by done.
  rewrite (decide_True (P := Encoding p = QuotedPrintable)) by done.
  unfold io_Copy. rewrite copy_to_stream_accepted by done.
  unfold ret. rewrite Write_accepted by done.
  fold (part_headers p charset).
  fold (reads (quotedprintable_NewReader (Reader p))).
  by rewrite !extend_extend, <- !ok_writes_app.
Qed.

End PartFacts.

(** X1: a part whose selector is neither quoted-printable nor base64 is
    written with its source copied as it is, every non-empty read in one
    write: on an accepting stream the body is the bytes of the source.
    When the source ends in an error the variant with error results
    returns it and leaves out the closing CRLF; the other variant writes
    the CRLF all the same. *)
Theorem Part_Write_copies_unencoded `{TimeLib} (E : Env) (p : Part)
  (charset : string) (w : World) :
  accepts_writes E ->
  Encoding p <> QuotedPrintable -> Encoding p <> Base64 ->
  let hdr := header_writes (range E (events w) (part_headers p charset)) in
  let body := reads (Reader p) in
  concat body = concat (chunks (Reader p)) /\
  Postbox.Part_Write E p charset w =
  (if decide (ending (Reader p) = EOF)
   then Done None (extend w (ok_writes
          (hdr ++ [to_bytes CRLF] ++ body ++ [to_bytes CRLF])))
   else Done (Some (ending (Reader p)))
          (extend w (ok_writes (hdr ++ [to_bytes CRLF] ++ body)))) /\
  Unchecked.Part_Write E p charset w =
  Done tt (extend w (ok_writes (hdr ++ [to_bytes CRLF] ++ body ++ [to_bytes CRLF]))).
Proof.
  intros Hacc Hqp Hb64 hdr body. split; [apply concat_reads|].
  by apply Part_Write_plain_accepted.
Qed.

(** ** The pieces of [Part.Write] and [Envelope.Write] *)

Lemma Part_Write_eq `{TimeLib} (E : Env) p charset :
  Postbox.Part_Write E p charset =
  (check Postbox.Headers_Write E (part_headers p charset) ;;
   check Write E (to_bytes CRLF) ;;
   check copy_body E p ;;
   Write E (to_bytes CRLF)).
Proof. reflexivity. Qed.

Lemma Envelope_Write_eq `{TimeLib} (E : Env) e :
  Postbox.Envelope_Write E e =
  (err <- write_envelope E (dated E e) ;; ret (dated E e, err)).
Proof. reflexivity. Qed.

Lemma Unchecked_Envelope_Write_eq `{TimeLib} (E : Env) e w :
  Unchecked.Envelope_Write E e w =
  bind (unchecked_write_envelope E (dated E e)) (fun _ => ret (dated E e)) w.
Proof.
  unfold Unchecked.Envelope_Write, unchecked_write_envelope. fold (dated E e).
  unfold bind.
  repeat match goal with
         | |- context [match ?m with Done _ _ => _ | Panicked _ => _ end] =>
             lazymatch m with
             | context [match _ with Done _ _ => _ | Panicked _ => _ end] => fail
             | _ => destruct m; try reflexivity
             end
         end.
Qed.

(** ** Stopping at the first failure *)

Section FirstFailure.
Context `{TimeLib} (E : Env) (src : error -> Prop).

Lemma first_failure_prepend ps new r :
  first_failure src new r -> first_failure src (ok_writes ps ++ new) r.
Proof.
  intros [qs|pre p err|qs err Hsrc].
  - rewrite <- ok_writes_app. apply no_failure.
  - rewrite app_assoc, <- ok_writes_app. apply write_refused.
  - rewrite <- ok_writes_app. by apply source_failed.
Qed.

Lemma first_failure_None new : first_failure src new None -> exists ps, new = ok_writes ps.
Proof. inversion 1; eauto. Qed.

Lemma stops_at_first_failure ps new r : stops_at ps new r -> first_failure src new r.
Proof.
  intros [|pre p post e _]; [apply no_failure|apply write_refused].
Qed.

Lemma stops_ret_None : stops_at_failure id src (ret (@None error)).
Proof.
  intros w. exists None, []. rewrite extend_nil. split; [done|].
  apply (no_failure src []).
Qed.

Lemma stops_Write p : stops_at_failure id src (Write E p).
Proof.
  intros w. rewrite Write_eq. eexists _, _. split; [done|].
  destruct (writer E (events w) (CWrite p)) as [e|].
  - apply (write_refused src [] p e).
  - apply (no_failure src [p]).
Qed.

Lemma stops_check (m k : M (option error)) :
  stops_at_failure id src m -> stops_at_failure id src k ->
  stops_at_failure id src (check m ;; k).
Proof.
  intros Hm Hk w. destruct (Hm w) as (a & new & Heq & Hff).
  unfold bind. rewrite Heq. destruct a as [e|].
  - by exists (Some e), new.
  - destruct (first_failure_None _ Hff) as [ps ->].
    destruct (Hk (extend w (ok_writes ps))) as (b & new2 & Heq2 & Hff2).
    exists b, (ok_writes ps ++ new2). rewrite Heq2, extend_extend.
    split; [done|]. by apply first_failure_prepend.
Qed.

Lemma stops_Headers_Write h : stops_at_failure id src (Postbox.Headers_Write E h).
Proof.
  intros w. rewrite Headers_Write_write_all.
  destruct (write_all_stops E (header_writes (range E (events w) h)) w)
    as (new & r & Heq & Hst).
  exists r, new. split; [done|]. by eapply stops_at_first_failure.
Qed.

(** [io.Copy] into a destination whose writes stop at the first failure
    and keep the invariant [I] while they succeed. *)
Lemma stops_copy_loop {St} (write : St -> bytes -> M (St * option error))
  (I : St -> Prop) ending :
  (forall s p w, I s ->
     exists s' r new, write s p w = Done (s', r) (extend w new) /\
                      first_failure src new r /\ (r = None -> I s')) ->
  (ending <> EOF -> src ending) ->
  forall cs dst w, I dst ->
  exists s' r new,
    copy_loop write dst cs ending w = Done (s', r) (extend w new) /\
    first_failure src new r /\ (r = None -> I s').
Proof.
  intros Hw Hend cs. induction cs as [|c cs IH]; intros dst w HI; cbn [copy_loop].
  - exists dst, (if decide (ending = EOF) then None else Some ending), [].
    rewrite extend_nil. split; [done|]. split; [|done].
    case_decide; [apply (no_failure src [])|apply (source_failed src []); auto].
  - destruct (0 <? length c)%nat; [|by apply IH].
    destruct (Hw dst c w HI) as (s' & r & new & Heq & Hff & HI').
    unfold bind. rewrite Heq. cbn [fst snd]. destruct r as [e|].
    + by exists s', (Some e), new.
    + destruct (first_failure_None _ Hff) as [ps ->].
      destruct (IH s' (extend w (ok_writes ps)) (HI' eq_refl))
        as (s2 & r2 & new2 & Heq2 & Hff2 & HI2).
      exists s2, r2, (ok_writes ps ++ new2). rewrite Heq2, extend_extend.
      split; [done|]. split; [by apply first_failure_prepend|done].
Qed.

Lemma stops_stream_write u p w :
  exists s' r new,
    stream_write E u p w = Done (s', r) (extend w new) /\
    first_failure src new r /\ (r = None -> True).
Proof.
  unfold stream_write, bind. rewrite Write_eq. unfold ret.
  eexists tt, _, _. split; [done|]. split; [|done].
  destruct (writer E (events w) (CWrite p)) as [e|].
  - apply (write_refused src [] p e).
  - apply (no_failure src [p]).
Qed.

Lemma stops_encoder_interior fuel : forall p w,
  exists rest r new,
    encoder_interior E fuel p w = Done (rest, r) (extend w new) /\
    first_failure src new r.
Proof.
  induction fuel as [|fuel IH]; intros p w; cbn [encoder_interior].
  - exists p, None, []. rewrite extend_nil. split; [done|apply (no_failure src [])].
  - destruct (3 <=? length p)%nat.
    2:{ exists p, None, []. rewrite extend_nil. split; [done|apply (no_failure src [])]. }
    unfold bind. rewrite Write_eq.
    destruct (writer E (events w) (CWrite _)) as [e|].
    + unfold ret. eexists _, (Some e), _. split; [done|].
      apply (write_refused src [] _ e).
    + match goal with
      | |- context [extend w [mkEvent (CWrite ?x) None]] =>
          change [mkEvent (CWrite x) None] with (ok_writes [x]);
          destruct (IH (drop (if (length p <? 768)%nat
                                then (length p - length p mod 3)%nat else 768%nat) p)
                       (extend w (ok_writes [x]))) as (rest & r & new & Heq & Hff);
          exists rest, r, (ok_writes [x] ++ new)
      end.
      rewrite Heq, extend_extend. split; [done|]. by apply first_failure_prepend.
Qed.

Lemma stops_encoder_rest p w :
  exists e' r new,
    encoder_rest E p w = Done (e', r) (extend w new) /\
    first_failure src new r /\ (r = None -> enc_err e' = None).
Proof.
  unfold encoder_rest, bind.
  destruct (stops_encoder_interior (length p) p w) as (rest & r & new & Heq & Hff).
  rewrite Heq. cbn [fst snd]. destruct r as [e|]; unfold ret.
  - by eexists _, (Some e), new.
  - by eexists _, None, new.
Qed.

Lemma stops_encoder_Write e p w :
  enc_err e = None ->
  exists e' r new,
    encoder_Write E e p w = Done (e', r) (extend w new) /\
    first_failure src new r /\ (r = None -> enc_err e' = None).
Proof.
  intros He. unfold encoder_Write. rewrite He.
  destruct (0 <? length (enc_buf e))%nat; [|apply stops_encoder_rest].
  destruct (length (enc_buf e ++ _) <? 3)%nat.
  { unfold ret. eexists _, None, []. rewrite extend_nil.
    split; [done|]. split; [apply (no_failure src [])|done]. }
  unfold bind. rewrite Write_eq.
  destruct (writer E (events w) (CWrite _)) as [x|].
  - unfold ret. eexists _, (Some x), _. split; [done|].
    split; [apply (write_refused src [] _ x)|done].
  - match goal with
    | |- context [extend w [mkEvent (CWrite ?x) None]] =>
        change [mkEvent (CWrite x) None] with (ok_writes [x]);
        destruct (stops_encoder_rest
                    (drop (Nat.min (length p) (3 - length (enc_buf e))) p)
                    (extend w (ok_writes [x]))) as (e' & r & new & Heq & Hff & HI);
        exists e', r, (ok_writes [x] ++ new)
    end.
    rewrite Heq, extend_extend. split; [done|].
    split; [by apply first_failure_prepend|done].
Qed.

Lemma stops_encoder_Close e w :
  enc_err e = None ->
  exists e' r new,
    encoder_Close E e w = Done (e', r) (extend w new) /\ first_failure src new r.
Proof.
  intros He. unfold encoder_Close. rewrite He.
  destruct (0 <? length (enc_buf e))%nat.
  - unfold bind. rewrite Write_eq. unfold ret. eexists _, _, _. split; [done|].
    destruct (writer E (events w) (CWrite _)) as [x|].
    + apply (write_refused src [] _ x).
    + apply (no_failure src [Encode (enc_buf e)]).
  - unfold ret. exists e, None, []. rewrite extend_nil.
    split; [done|apply (no_failure src [])].
Qed.

End FirstFailure.

Section PartFailure.
Context `{TimeLib} (E : Env).

Lemma source_error_ending r :
  r <> EOF -> (if decide (r = EOF) then None else Some r) = Some r.
Proof. intros Hne. by rewrite decide_False. Qed.

Lemma stops_copy_body p :
  stops_at_failure id (fun err => source_error p = Some err) (copy_body E p).
Proof.
  intros w. unfold copy_body, source_error, part_source.
  destruct (decide (Encoding p = QuotedPrintable)) as [Hqp|Hqp];
    [|destruct (decide (Encoding p = Base64)) as [Hb|Hb]]; cbn zeta.
  - set (reader := quotedprintable_NewReader (Reader p)).
    set (src := fun err => (if decide (ending reader = EOF)
                            then None else Some (ending reader)) = Some err).
    destruct (stops_copy_loop src (stream_write E) (fun _ => True) (ending reader)
                (fun s q w' _ => stops_stream_write E src s q w')
                (source_error_ending (ending reader))
                (chunks reader) tt w I)
      as (s' & r & new & Heq & Hff & _).
    unfold bind, io_Copy. rewrite Heq. by exists r, new.
  - set (src := fun err => (if decide (ending (Reader p) = EOF)
                            then None else Some (ending (Reader p))) = Some err).
    destruct (stops_copy_loop src (encoder_Write E) (fun e => enc_err e = None)
                (ending (Reader p))
                (fun s q w' Hs => stops_encoder_Write E src s q w' Hs)
                (source_error_ending (ending (Reader p)))
                (chunks (Reader p)) base64_NewEncoder w eq_refl)
      as (e' & r & new & Heq & Hff & HI).
    unfold bind, io_Copy. rewrite Heq. cbn [fst snd]. destruct r as [x|].
    + by exists (Some x), new.
    + destruct (first_failure_None _ _ Hff) as [ps ->].
      destruct (stops_encoder_Close E src e' (extend w (ok_writes ps)) (HI eq_refl))
        as (e2 & r2 & new2 & Heq2 & Hff2).
      rewrite Heq2. unfold ret. cbn [snd].
      exists r2, (ok_writes ps ++ new2). rewrite extend_extend.
      split; [done|]. by apply first_failure_prepend.
  - set (src := fun err => (if decide (ending (Reader p) = EOF)
                            then None else Some (ending (Reader p))) = Some err).
    destruct (stops_copy_loop src (stream_write E) (fun _ => True) (ending (Reader p))
                (fun s q w' _ => stops_stream_write E src s q w')
                (source_error_ending (ending (Reader p)))
                (chunks (Reader p)) tt w I)
      as (s' & r & new & Heq & Hff & _).
    unfold bind, io_Copy. rewrite Heq. by exists r, new.
Qed.

Lemma stops_Part_Write p charset :
  stops_at_failure id (fun err => source_error p = Some err)
    (Postbox.Part_Write E p charset).
Proof.
  rewrite Part_Write_eq.
  apply stops_check; [apply stops_Headers_Write|].
  apply stops_check; [apply stops_Write|].
  apply stops_check; [apply stops_copy_body|apply stops_Write].
Qed.

End PartFailure.

(** X2: on any output stream [Part.Write] returns (it does not panic, it
    does not close the stream and it draws no random bytes), and it stops
    at the first failure.  When it returns no error every call it made
    was a write that the stream accepted.  When a write is refused that
    write is the last call and its error is the one returned.  Any other
    error returned is the one that ended the source (for a part marked
    quoted-printable, the decoding reader), after writes that were all
    accepted. *)
Theorem Part_Write_stops_at_first_failure `{TimeLib} (E : Env) (p : Part)
  (charset : string) (w : World) :
  exists r new,
    Postbox.Part_Write E p charset w = Done r (extend w new) /\
    first_failure (fun err => source_error p = Some err) new r.
Proof. apply (stops_Part_Write E p charset w). Qed.

(** ** The header lines of a part *)

Lemma Unchecked_Part_Write_eq `{TimeLib} (E : Env) p charset :
  Unchecked.Part_Write E p charset =
  (ignore Unchecked.Headers_Write E (part_headers p charset) ;;
   ignore Write E (to_bytes CRLF) ;;
   ignore unchecked_copy_body E p ;;
   ignore Write E (to_bytes CRLF) ;;
   ret tt).
Proof. reflexivity. Qed.

Section CopyBodyReturns.
Context `{TimeLib} (E : Env) (P : Event -> Prop).
Hypothesis P_write : forall t p, P (mkEvent (CWrite p) (writer E t (CWrite p))).

Lemma returns_copy_body p : returns P (copy_body E p).
Proof.
  unfold copy_body. repeat case_decide.
  - apply returns_bind; [|intros; apply returns_ret].
    by apply returns_copy_loop, returns_stream_write.
  - apply returns_bind; [by apply returns_copy_loop, returns_encoder_Write|].
    intros [enc [e|]]; [apply returns_ret|].
    apply returns_bind; [by apply returns_encoder_Close | intros; apply returns_ret].
  - apply returns_bind; [|intros; apply returns_ret].
    by apply returns_copy_loop, returns_stream_write.
Qed.

Lemma returns_unchecked_copy_body p : returns P (unchecked_copy_body E p).
Proof.
  unfold unchecked_copy_body. repeat case_decide.
  - apply returns_ignore; [|apply returns_ret].
    by apply returns_copy_loop, returns_stream_write.
  - apply returns_bind; [by apply returns_copy_loop, returns_encoder_Write|].
    intros r. apply returns_ignore; [by apply returns_encoder_Close|].
    apply returns_ret.
  - apply returns_ignore; [|apply returns_ret].
    by apply returns_copy_loop, returns_stream_write.
Qed.

End CopyBodyReturns.

Section HeaderLines.
Context `{TimeLib} (E : Env).
Hypothesis Hlegal : range_legal E.
Hypothesis Hacc : accepts_writes E.

Lemma range_pair t k1 (v1 : list string) k2 v2 :
  k1 <> k2 ->
  range E t {[ k1 := v1; k2 := v2 ]} = [(k1, v1); (k2, v2)] \/
  range E t {[ k1 := v1; k2 := v2 ]} = [(k2, v2); (k1, v1)].
Proof.
  intros Hne. apply Permutation_length_2_inv. symmetry. rewrite (Hlegal t).
  rewrite map_to_list_insert by (by rewrite lookup_singleton_ne).
  by rewrite map_to_list_singleton.
Qed.

Lemma returns_grows {A} (m : M A) w :
  returns accepted m -> exists ps, events (final (m w)) = events w ++ ok_writes ps.
Proof.
  intros Hm. destruct (Hm w) as (a & new & -> & Hnew).
  apply Forall_accepted in Hnew as [ps ->]. by exists ps.
Qed.

Lemma Part_Write_begins p charset w :
  exists rest,
    events (final (Postbox.Part_Write E p charset w)) =
    events w
    ++ ok_writes (header_writes (range E (events w) (part_headers p charset))
                  ++ [to_bytes CRLF] ++ rest).
Proof.
  pose proof (accepted_Write E Hacc) as HW.
  rewrite Part_Write_eq.
  rewrite (final_bind_Done _ _ _ _ _ (Headers_Write_accepted E _ w Hacc)).
  cbv beta iota.
  rewrite (final_bind_Done _ _ _ _ _ (Write_accepted E Hacc _ _)).
  cbv beta iota.
  match goal with |- context [final (?k ?w1)] =>
    destruct (returns_grows k w1) as [rest Hrest] end.
  { apply returns_check; [by apply returns_copy_body|by apply returns_Write]. }
  exists rest. rewrite Hrest. cbn [events extend].
  by rewrite !ok_writes_app, <- !app_assoc.
Qed.

Lemma Unchecked_Part_Write_begins p charset w :
  exists rest,
    events (final (Unchecked.Part_Write E p charset w)) =
    events w
    ++ ok_writes (header_writes (range E (events w) (part_headers p charset))
                  ++ [to_bytes CRLF] ++ rest).
Proof.
  pose proof (accepted_Write E Hacc) as HW.
  rewrite Unchecked_Part_Write_eq.
  rewrite (final_bind_Done _ _ _ _ _ (unchecked_Headers_Write_accepted E Hacc _ w)).
  cbv beta iota.
  rewrite (final_bind_Done _ _ _ _ _ (Write_accepted E Hacc _ _)).
  cbv beta iota.
  match goal with |- context [final (?k ?w1)] =>
    destruct (returns_grows k w1) as [rest Hrest] end.
  { apply returns_ignore; [by apply returns_unchecked_copy_body|].
    apply returns_ignore; [by apply returns_Write|apply returns_ret]. }
  exists rest. rewrite Hrest. cbn [events extend].
  by rewrite !ok_writes_app, <- !app_assoc.
Qed.

Lemma part_header_block p charset t :
  let content_type :=
    to_bytes ("Content-Type: " +:+ ContentType p +:+ "; charset=" +:+ charset
              +:+ CRLF) in
  let transfer :=
    to_bytes ("Content-Transfer-Encoding: " +:+ Encoding p +:+ CRLF) in
  concat (header_writes (range E t (part_headers p charset))) = content_type ++ transfer
  \/ concat (header_writes (range E t (part_headers p charset))) = transfer ++ content_type.
Proof.
  intros content_type transfer. rewrite concat_header_writes.
  assert (Hct : to_bytes (header_line
                  ("Content-Type", [ContentType p; "charset=" +:+ charset]))
                = content_type).
  { unfold header_line, content_type. cbn [fst snd strings_Join].
    by rewrite !to_bytes_app, <- !app_assoc. }
  assert (Hte : to_bytes (header_line ("Content-Transfer-Encoding", [Encoding p]))
                = transfer).
  { unfold header_line, transfer. cbn [fst snd strings_Join].
    by rewrite !to_bytes_app. }
  unfold part_headers.
  destruct (range_pair t "Content-Type" [ContentType p; "charset=" +:+ charset]
              "Content-Transfer-Encoding" [Encoding p]) as [-> | ->];
    [done| |];
    rewrite !header_block_cons, Hct, Hte; unfold header_block; cbn [map concat];
    rewrite app_nil_r; auto.
Qed.

End HeaderLines.

(** X3: every part begins with its two header lines,
    [Content-Type: <type>; charset=<charset>] and
    [Content-Transfer-Encoding: <encoding>], each ended by CRLF, in either
    order (the order is the one of the map iteration), followed by an
    empty line; this holds for every encoding selector and every source,
    in both variants. *)
Theorem Part_Write_header_lines `{TimeLib} (E : Env) (p : Part)
  (charset : string) (w : World) :
  range_legal E -> accepts_writes E ->
  let content_type :=
    to_bytes ("Content-Type: " +:+ ContentType p +:+ "; charset=" +:+ charset
              +:+ CRLF) in
  let transfer :=
    to_bytes ("Content-Transfer-Encoding: " +:+ Encoding p +:+ CRLF) in
  exists head rest rest',
    (head = content_type ++ transfer \/ head = transfer ++ content_type) /\
    written (events (final (Postbox.Part_Write E p charset w)))
    = written (events w) ++ head ++ to_bytes CRLF ++ rest /\
    written (events (final (Unchecked.Part_Write E p charset w)))
    = written (events w) ++ head ++ to_bytes CRLF ++ rest'.
Proof.
  intros Hlegal Hacc content_type transfer.
  destruct (Part_Write_begins E Hacc p charset w) as [rest Hrun].
  destruct (Unchecked_Part_Write_begins E Hacc p charset w) as [rest' Hrun'].
  exists (concat (header_writes (range E (events w) (part_headers p charset)))),
    (concat rest), (concat rest').
  split; [by apply part_header_block|].
  rewrite Hrun, Hrun', !written_app, !written_ok_writes, !concat_app.
  cbn [concat]. by rewrite !app_nil_r.
Qed.

(** ** Encoded bodies *)

Lemma encode_at_alphabet (i : N) : is_base64_char (encode_at i) = true.
Proof.
  rewrite <- (N2Nat.id i). generalize (N.to_nat i). clear i. intros n.
  unfold encode_at. rewrite Nat2N.id.
  do 64 (destruct n as [|n]; [by vm_compute|]). by destruct n.
Qed.

Lemma Encode_alphabet (src : bytes) :
  Forall (fun c => is_base64_char c = true) (Encode src).
Proof.
  induction src as [|x|x y|x y z rest IH] using bytes_triple_ind; cbn [Encode].
  - constructor.
  - repeat (constructor; [apply encode_at_alphabet || reflexivity|]). constructor.
  - repeat (constructor; [apply encode_at_alphabet || reflexivity|]). constructor.
  - by repeat (constructor; [apply encode_at_alphabet|]).
Qed.

Lemma Encode_length (src : bytes) :
  length (Encode src) = (4 * ((length src + 2) / 3))%nat.
Proof.
  induction src as [|x|x y|x y z rest IH] using bytes_triple_ind; cbn [Encode].
  - done.
  - done.
  - done.
  - rewrite !length_cons, IH. euclid.
Qed.

Lemma base64_char_no_line_break c :
  is_base64_char c = true -> c <> "013"%char /\ c <> "010"%char.
Proof. intros Hc. split; intros ->; discriminate Hc. Qed.

Lemma whole_prefix (full rest : bytes) :
  (length full mod 3 = 0)%nat -> (length rest < 3)%nat ->
  take (whole (full ++ rest)) (full ++ rest) = full.
Proof.
  intros Hfull Hrest.
  assert (whole (full ++ rest) = length full) as ->.
  { unfold whole. rewrite length_app. euclid. }
  by rewrite take_app_length.
Qed.

Section Base64Parts.
Context `{TimeLib} (E : Env).
Hypothesis Hacc : accepts_writes E.

(** A base64 part whose source ends in an error. *)
Lemma Part_Write_base64_failing p charset w :
  Encoding p = Base64 -> ending (Reader p) <> EOF ->
  let hdr := header_writes (range E (events w) (part_headers p charset)) in
  let data := concat (chunks (Reader p)) in
  exists body body',
    Postbox.Part_Write E p charset w =
    Done (Some (ending (Reader p)))
      (extend w (ok_writes (hdr ++ [to_bytes CRLF] ++ body))) /\
    concat body = Encode (take (whole data) data) /\
    Unchecked.Part_Write E p charset w =
    Done tt (extend w (ok_writes (hdr ++ [to_bytes CRLF] ++ body' ++ [to_bytes CRLF]))) /\
    concat body' = Encode data.
Proof.
  intros Henc Hend hdr data.
  set (w2 := extend (extend w (ok_writes hdr)) (ok_writes [to_bytes CRLF])).
  destruct (copy_to_encoder_accepted E Hacc (chunks (Reader p))
              (ending (Reader p)) base64_NewEncoder w2)
    as (e' & ws & full & Hcopy & Herr & Hbuf & Hdata & Hlen & Hws);
    [done | cbn; lia |].
  destruct (encoder_Close_accepted E Hacc e' (extend w2 (ok_writes ws)) Herr)
    as (e'' & Hclose).
  cbn [base64_NewEncoder enc_buf app] in Hdata. fold data in Hdata.
  rewrite decide_False in Hcopy by done.
  exists ws, (ws ++ match enc_buf e' with [] => [] | _ => [Encode (enc_buf e')] end).
  split; [|split; [|split]].
  - unfold Postbox.Part_Write, bind.
    rewrite Headers_Write_accepted, Write_accepted by done.
    rewrite decide_False by (rewrite Henc; discriminate).
    rewrite decide_True by done.
    unfold io_Copy. fold (part_headers p charset). fold hdr. fold w2.
    rewrite Hcopy. cbn [fst snd]. unfold ret, w2.
    by rewrite !extend_extend, <- !ok_writes_app.
  - rewrite Hws, Hdata. by rewrite whole_prefix.
  - unfold Unchecked.Part_Write, bind.
    rewrite unchecked_Headers_Write_accepted, Write_accepted by done.
    rewrite decide_False by (rewrite Henc; discriminate).
    rewrite decide_True by done.
    unfold io_Copy. fold (part_headers p charset). fold hdr. fold w2.
    rewrite Hcopy. cbn [fst snd]. rewrite Hclose.
    unfold ret. rewrite Write_accepted by done. unfold w2.
    by rewrite !extend_extend, <- !ok_writes_app, <- !app_assoc.
  - rewrite concat_app, Hws, Hdata, Encode_app by done. f_equal.
    destruct (enc_buf e'); [done|]. cbn [concat]. by rewrite app_nil_r.
Qed.

End Base64Parts.

(** X4: a base64 part whose source ends in an error other than io.EOF.
    The variant with error results returns that error at once: the
    encoder is not closed, so the body holds the encoding of the whole
    groups of three bytes only (the last one or two bytes read are
    dropped), and no CRLF follows.  The variant without error results
    closes the encoder and writes the CRLF: its body is the padded
    encoding of everything that was read. *)
Theorem Part_Write_base64_source_failure `{TimeLib} (E : Env) (p : Part)
  (charset : string) (w : World) :
  accepts_writes E -> Encoding p = Base64 -> ending (Reader p) <> EOF ->
  let hdr := header_writes (range E (events w) (part_headers p charset)) in
  let data := concat (chunks (Reader p)) in
  exists body body',
    Postbox.Part_Write E p charset w =
    Done (Some (ending (Reader p)))
      (extend w (ok_writes (hdr ++ [to_bytes CRLF] ++ body))) /\
    concat body = Encode (take (whole data) data) /\
    Unchecked.Part_Write E p charset w =
    Done tt (extend w (ok_writes (hdr ++ [to_bytes CRLF] ++ body' ++ [to_bytes CRLF]))) /\
    concat body' = Encode data.
Proof. intros Hacc. by apply Part_Write_base64_failing. Qed.

(** X5: the body of a base64 part is one unbroken run of the 64 digits
    and the padding character, four characters for every three bytes of
    the source, the last group padded: no line break is put in, whatever
    the length of the source. *)
Theorem Part_Write_base64_one_line `{TimeLib} (E : Env) (p : Part)
  (charset : string) (w : World) :
  accepts_writes E -> Encoding p = Base64 -> ending (Reader p) = EOF ->
  exists body,
    Postbox.Part_Write E p charset w
    = Done None (extend w (ok_writes
        (header_writes (range E (events w) (part_headers p charset))
         ++ [to_bytes CRLF] ++ body ++ [to_bytes CRLF]))) /\
    length (concat body) = (4 * ((length (concat (chunks (Reader p))) + 2) / 3))%nat /\
    Forall (fun c => is_base64_char c = true) (concat body) /\
    Forall (fun c => c <> "013"%char /\ c <> "010"%char) (concat body).
Proof.
  intros Hacc Henc Hend.
  destruct (Part_Write_base64_accepted E Hacc p charset w Henc Hend)
    as (body & Hrun & Hbody).
  exists body. split; [done|]. rewrite Hbody.
  split; [apply Encode_length|]. split; [apply Encode_alphabet|].
  eapply Forall_impl; [apply Encode_alphabet|]. apply base64_char_no_line_break.
Qed.

(** X6: a part marked quoted-printable is written with the output of the
    quoted-printable DECODER run over its source, in pieces of at most 32
    KiB.  When the decoder stops at an error (the source is not valid
    quoted-printable, or its reader failed), the variant with error
    results returns that error after what was decoded so far, without the
    closing CRLF; the other variant writes the CRLF all the same. *)
Theorem Part_Write_quoted_printable_body `{TimeLib} (E : Env) (p : Part)
  (charset : string) (w : World) :
  accepts_writes E -> Encoding p = QuotedPrintable ->
  let decoded := quotedprintable_NewReader (Reader p) in
  let hdr := header_writes (range E (events w) (part_headers p charset)) in
  Postbox.Part_Write E p charset w =
  (if decide (ending decoded = EOF)
   then Done None (extend w (ok_writes
          (hdr ++ [to_bytes CRLF] ++ reads decoded ++ [to_bytes CRLF])))
   else Done (Some (ending decoded))
          (extend w (ok_writes (hdr ++ [to_bytes CRLF] ++ reads decoded)))) /\
  Unchecked.Part_Write E p charset w =
  Done tt (extend w (ok_writes
    (hdr ++ [to_bytes CRLF] ++ reads decoded ++ [to_bytes CRLF]))) /\
  Forall (fun c : bytes => (0 < length c <= copy_buffer_size)%nat) (reads decoded).
Proof.
  intros Hacc Hqp decoded hdr. split; [|split].
  - apply (Part_Write_quoted_printable_accepted E Hacc p charset w Hqp).
  - by apply unchecked_Part_Write_quoted_printable_accepted.
  - unfold reads. apply Forall_forall. intros c Hc.
    apply list_elem_of_filter in Hc as [Hpos Hin]. split; [done|].
    unfold decoded, quotedprintable_NewReader in Hin.
    destruct (qp_read _ _ _) as [out err]. cbn [chunks] in Hin.
    revert Hin. generalize (length out) at 1. intros fuel. revert out.
    induction fuel as [|fuel IH]; intros out Hin; [by apply elem_of_nil in Hin|].
    destruct out as [|b out]; [by apply elem_of_nil in Hin|].
    cbn [pieces] in Hin. apply elem_of_cons in Hin as [->|Hin]; [|by eapply IH].
    rewrite length_take. lia.
Qed.

(** ** Boundaries on any stream *)

Lemma unhex_string_Sprintf_x (b : bytes) : unhex_string (Sprintf_x b) = b.
Proof.
  induction b as [|c b IH]; [done|]. cbn [Sprintf_x unhex_string].
  rewrite IH. f_equal. apply (hex_digits_of_byte c).
Qed.

(** X7: [RandomBoundary] does not touch the output stream.  When the
    random source delivers, it has been read once and the token is sixty
    lower-case hexadecimal digits that spell the thirty bytes read (so
    different bytes give different tokens); when the source fails, the
    function panics and nothing has changed. *)
Theorem RandomBoundary_token `{TimeLib} (E : Env) (w : World) :
  match RandomBoundary E w with
  | Done id w' =>
      rand_fail E (draws w) = false /\
      hex_token id /\ unhex_string id = random_block E (draws w) /\
      events w' = events w /\ draws w' = S (draws w)
  | Panicked w' => rand_fail E (draws w) = true /\ w' = w
  end.
Proof.
  unfold RandomBoundary, panic. destruct (rand_fail E (draws w)); [done|].
  fold (random_block E (draws w)). fold (token E (draws w)).
  split; [done|]. split; [apply token_hex|]. split; [|done].
  apply unhex_string_Sprintf_x.
Qed.

Section BoundaryFacts.
Context `{TimeLib} (E : Env).
Hypothesis Hlegal : range_legal E.

Lemma range_one t name values : range E t {[ name := values ]} = [(name, values)].
Proof.
  apply Permutation_singleton_r. by rewrite (Hlegal t), map_to_list_singleton.
Qed.

Lemma header_writes_one f : header_writes [f] = field_writes f.
Proof. unfold header_writes. cbn [map concat]. apply app_nil_r. Qed.

Lemma NewBoundary_any_stream mime w :
  rand_fail E (draws w) = false ->
  let id := token E (draws w) in
  let fields := field_writes ("Content-Type", [mime; "boundary=" +:+ id]) in
  exists new r0 r,
    Postbox.NewBoundary E mime w =
    Done (mkBoundary id)
      (mkWorld (events w ++ new ++ [mkEvent (CWrite (to_bytes CRLF)) r])
         (S (draws w))) /\
    stops_at fields new r0.
Proof.
  intros Hrand id fields.
  unfold Postbox.NewBoundary, bind at 1, RandomBoundary. rewrite Hrand.
  fold (random_block E (draws w)). fold (token E (draws w)). fold id.
  set (w1 := mkWorld (events w) (S (draws w))).
  destruct (write_all_stops E fields w1) as (new & r0 & Hrun & Hstops).
  exists new, r0, (writer E (events w ++ new) (CWrite (to_bytes CRLF))).
  split; [|done]. unfold bind.
  rewrite Headers_Write_write_all, range_one, header_writes_one. fold fields.
  rewrite Hrun, Write_eq. unfold ret, extend. cbn [events draws].
  by rewrite <- app_assoc.
Qed.

Lemma Unchecked_NewBoundary_any_stream mime w :
  rand_fail E (draws w) = false ->
  let id := token E (draws w) in
  let fields := field_writes ("Content-Type", [mime; "boundary=" +:+ id]) in
  exists new r,
    Unchecked.NewBoundary E mime w =
    Done (mkBoundary id)
      (mkWorld (events w ++ new ++ [mkEvent (CWrite (to_bytes CRLF)) r])
         (S (draws w))) /\
    map ev_call new = map CWrite fields.
Proof.
  intros Hrand id fields.
  unfold Unchecked.NewBoundary, bind at 1, RandomBoundary. rewrite Hrand.
  fold (random_block E (draws w)). fold (token E (draws w)). fold id.
  set (w1 := mkWorld (events w) (S (draws w))).
  destruct (unchecked_write_fields_calls E [("Content-Type", [mime; "boundary=" +:+ id])] w1)
    as (new & Hrun & Hcalls).
  rewrite header_writes_one in Hcalls. fold fields in Hcalls.
  exists new, (writer E (events w ++ new) (CWrite (to_bytes CRLF))).
  split; [|done]. unfold bind, Unchecked.Headers_Write.
  rewrite range_one, Hrun, Write_eq. unfold ret, extend. cbn [events draws].
  by rewrite <- app_assoc.
Qed.

End BoundaryFacts.

(** X8: [NewBoundary] reports no failure of the stream.  Whatever the
    stream answers, it returns the boundary with the freshly drawn token,
    and it writes the CRLF of the empty line even after a write of the
    [Content-Type] line was refused.  In the variant with error results
    the writes of the line stop at the first refusal (the result of
    [Headers.Write] is dropped); in the other variant all of them are
    made. *)
Theorem NewBoundary_drops_errors `{TimeLib} (E : Env) (mime : string) (w : World) :
  range_legal E -> rand_fail E (draws w) = false ->
  let id := token E (draws w) in
  let fields := field_writes ("Content-Type", [mime; "boundary=" +:+ id]) in
  exists new r0 r new' r',
    Postbox.NewBoundary E mime w =
    Done (mkBoundary id)
      (mkWorld (events w ++ new ++ [mkEvent (CWrite (to_bytes CRLF)) r])
         (S (draws w))) /\
    stops_at fields new r0 /\
    Unchecked.NewBoundary E mime w =
    Done (mkBoundary id)
      (mkWorld (events w ++ new' ++ [mkEvent (CWrite (to_bytes CRLF)) r'])
         (S (draws w))) /\
    map ev_call new' = map CWrite fields.
Proof.
  intros Hlegal Hrand id fields.
  destruct (NewBoundary_any_stream E Hlegal mime w Hrand) as (new & r0 & r & Hrun & Hst).
  destruct (Unchecked_NewBoundary_any_stream E Hlegal mime w Hrand)
    as (new' & r' & Hrun' & Hcalls).
  by exists new, r0, r, new', r'.
Qed.

(** ** The envelope *)

(** The clock is consulted for the date only. *)
Lemma write_envelope_at_time `{TimeLib} (E : Env) t e :
  write_envelope (at_time E t) e = write_envelope E e.
Proof. reflexivity. Qed.

Lemma unchecked_write_envelope_at_time `{TimeLib} (E : Env) t e :
  unchecked_write_envelope (at_time E t) e = unchecked_write_envelope E e.
Proof. reflexivity. Qed.

Lemma dated_set `{TimeLib} (E : Env) e : IsZero (Date e) = false -> dated E e = e.
Proof. intros Hset. unfold dated. by rewrite Hset. Qed.

(** X9: when the [Date] of the envelope is set (not the zero time),
    [Envelope.Write] does not look at the clock: the run is the same
    whatever the current time, and the envelope it leaves behind is the
    one it was given (in both variants). *)
Theorem Envelope_Write_keeps_Date `{TimeLib} (E : Env) (e : Envelope) (w : World)
  (now : Time) :
  IsZero (Date e) = false ->
  Postbox.Envelope_Write (at_time E now) e w = Postbox.Envelope_Write E e w /\
  Unchecked.Envelope_Write (at_time E now) e w = Unchecked.Envelope_Write E e w /\
  (forall e' r w', Postbox.Envelope_Write E e w = Done (e', r) w' -> e' = e) /\
  (forall e' w', Unchecked.Envelope_Write E e w = Done e' w' -> e' = e).
Proof.
  intros Hset. split; [|split; [|split]].
  - by rewrite !Envelope_Write_eq, !dated_set, write_envelope_at_time.
  - by rewrite !Unchecked_Envelope_Write_eq, !dated_set,
      unchecked_write_envelope_at_time.
  - intros e' r w' Hrun. rewrite (Envelope_Write_result E _ _ _ _ _ Hrun).
    by apply dated_set.
  - intros e' w' Hrun. rewrite (Unchecked_Envelope_Write_result E _ _ _ _ Hrun).
    by apply dated_set.
Qed.

Lemma write_envelope_fields `{TimeLib} (E : Env) e1 e2 :
  Postbox.envelope_headers e1 = Postbox.envelope_headers e2 ->
  Parts e1 = Parts e2 -> Charset e1 = Charset e2 ->
  write_envelope E e1 = write_envelope E e2 /\
  unchecked_write_envelope E e1 = unchecked_write_envelope E e2.
Proof.
  intros Hh Hp Hc. unfold write_envelope, unchecked_write_envelope.
  by rewrite Hh, Hp, Hc.
Qed.

(** X10: [Envelope.Write] never reads [Sender], [Embedded] or
    [Attachments]: with any other values in these fields the calls on
    the stream, the random draws and the error returned are the same (in
    both variants); no [Sender] line and no file is written. *)
Theorem Envelope_Write_ignores_Sender_and_files `{TimeLib} (E : Env)
  (e : Envelope) (sender : string) (embedded attachments : list File)
  (w : World) :
  let e2 := mkEnvelope _ (Date e) (From e) sender (ReplyTo e) (To e) (Cc e)
              (Subject e) (Parts e) embedded attachments (Charset e) in
  final (Postbox.Envelope_Write E e2 w) = final (Postbox.Envelope_Write E e w) /\
  returned_error (Postbox.Envelope_Write E e2 w)
  = returned_error (Postbox.Envelope_Write E e w) /\
  final (Unchecked.Envelope_Write E e2 w) = final (Unchecked.Envelope_Write E e w).
Proof.
  intros e2.
  destruct (write_envelope_fields E (dated E e2) (dated E e)) as [Hchecked Hunchecked].
  { unfold dated, e2. cbn [Date]. by destruct (IsZero (Date e)). }
  { unfold dated, e2. cbn [Date]. by destruct (IsZero (Date e)). }
  { unfold dated, e2. cbn [Date]. by destruct (IsZero (Date e)). }
  rewrite !Envelope_Write_eq, !Unchecked_Envelope_Write_eq, Hchecked, Hunchecked.
  unfold bind, ret.
  split; [|split].
  - by destruct (write_envelope E (dated E e) w).
  - by destruct (write_envelope E (dated E e) w).
  - by destruct (unchecked_write_envelope E (dated E e) w).
Qed.

Lemma envelope_fields_entries `{TimeLib} (e : Envelope) :
  map_to_list (Postbox.envelope_headers e) ≡ₚ envelope_fields e.
Proof.
  change (Postbox.envelope_headers e)
    with (list_to_map (envelope_fields e) : Headers).
  apply map_to_list_to_map. cbn [envelope_fields fmap list_fmap fst].
  apply (bool_decide_unpack _). by vm_compute.
Qed.

(** X11: on an accepting stream the message begins with exactly seven
    header lines, one for each of [Date], [From], [To], [Cc], [Reply-To],
    [Subject] and [Mime-Version] (with the value [1.0]), in the order of
    the map iteration; the [Date] line carries the date of the envelope
    left behind in the RFC 1123 format with a numeric zone (in both
    variants). *)
Theorem Envelope_Write_header_fields `{TimeLib} (E : Env) (e : Envelope)
  (w : World) :
  range_legal E -> accepts_writes E ->
  exists order rest rest',
    order ≡ₚ envelope_fields (dated E e) /\
    written (events (final (Postbox.Envelope_Write E e w)))
    = written (events w) ++ header_block order ++ rest /\
    written (events (final (Unchecked.Envelope_Write E e w)))
    = written (events w) ++ header_block order ++ rest'.
Proof.
  intros Hlegal Hacc.
  destruct (Envelope_Write_begins E Hacc e w) as [rest Hrun].
  destruct (Unchecked_Envelope_Write_begins E Hacc e w) as [rest' Hrun'].
  exists (range E (events w) (Postbox.envelope_headers (dated E e))),
    (written rest), (written rest').
  split; [by rewrite (Hlegal (events w)), envelope_fields_entries|].
  by rewrite Hrun, Hrun', !written_app, !written_ok_writes, !concat_header_writes.
Qed.

(** ** The reads of the random source *)

Section Draws.
Context `{TimeLib} (E : Env).

Lemma draws_returns {A} (ok : A -> Prop) (m : M A) :
  returns (fun _ => True) m -> draws_upto E ok 0 m.
Proof.
  intros Hm w. destruct (Hm w) as (a & new & -> & _). cbn [extend draws].
  split; [lia|]. intros _. lia.
Qed.

Lemma draws_bind {A B} (ok : B -> Prop) (m : M A) (k : A -> M B) n1 n2 :
  draws_upto E (fun _ => True) n1 m -> (forall a, draws_upto E ok n2 (k a)) ->
  draws_upto E ok (n1 + n2) (bind m k).
Proof.
  intros Hm Hk w. specialize (Hm w). unfold bind.
  destruct (m w) as [a w1|w1].
  - destruct Hm as [Hb He]. specialize (He I). specialize (Hk a w1).
    destruct (k a w1) as [b w2|w2].
    + destruct Hk as [Hb2 He2]. split; [lia|]. intros Hok. rewrite (He2 Hok). lia.
    + destruct Hk as [Hb2 Hf]. split; [lia|done].
  - destruct Hm as [Hb Hf]. split; [lia|done].
Qed.

Lemma draws_check (m k : M (option error)) n :
  draws_upto E (fun _ => True) 0 m ->
  draws_upto E (fun r => r = None) n k ->
  draws_upto E (fun r => r = None) n (check m ;; k).
Proof.
  intros Hm Hk w. specialize (Hm w). unfold bind.
  destruct (m w) as [[e|] w1|w1].
  - unfold ret. destruct Hm as [Hb _]. split; [lia|done].
  - destruct Hm as [Hb He]. specialize (He I). specialize (Hk w1).
    destruct (k w1) as [b w2|w2].
    + destruct Hk as [Hb2 He2]. split; [lia|]. intros Hok. rewrite (He2 Hok). lia.
    + destruct Hk as [Hb2 Hf]. split; [lia|done].
  - destruct Hm as [Hb _]. lia.
Qed.

Lemma draws_Close (ok : option error -> Prop) : draws_upto E ok 0 (Close E).
Proof. intros w. cbn. split; [lia|]. intros _. lia. Qed.

Lemma draws_NewBoundary ok mime : draws_upto E ok 1 (Postbox.NewBoundary E mime).
Proof.
  intros w. unfold Postbox.NewBoundary, bind at 1, RandomBoundary.
  destruct (rand_fail E (draws w)) eqn:Hrand.
  { unfold panic. split; [lia|done]. }
  match goal with |- match ?k ?w1 with _ => _ end =>
    assert (Hk : returns (fun _ => True) k) end.
  { apply returns_ignore; [by apply returns_Headers_Write|].
    apply returns_ignore; [by apply returns_Write|apply returns_ret]. }
  match goal with |- match ?k ?w1 with _ => _ end =>
    destruct (Hk w1) as (a & new & -> & _) end.
  cbn [extend draws]. split; [lia|]. intros _. lia.
Qed.

Lemma draws_unchecked_NewBoundary ok mime :
  draws_upto E ok 1 (Unchecked.NewBoundary E mime).
Proof.
  intros w. unfold Unchecked.NewBoundary, bind at 1, RandomBoundary.
  destruct (rand_fail E (draws w)) eqn:Hrand.
  { unfold panic. split; [lia|done]. }
  match goal with |- match ?k ?w1 with _ => _ end =>
    assert (Hk : returns (fun _ => True) k) end.
  { apply returns_ignore; [by apply returns_unchecked_Headers_Write|].
    apply returns_ignore; [by apply returns_Write|apply returns_ret]. }
  match goal with |- match ?k ?w1 with _ => _ end =>
    destruct (Hk w1) as (a & new & -> & _) end.
  cbn [extend draws]. split; [lia|]. intros _. lia.
Qed.

Lemma draws_write_envelope e : draws_upto E (fun r => r = None) 3 (write_envelope E e).
Proof.
  unfold write_envelope.
  apply draws_check; [by apply draws_returns, returns_Headers_Write|].
  apply (draws_bind _ _ _ 1 2); [apply draws_NewBoundary|]. intros mixed.
  apply draws_check; [by apply draws_returns, returns_Boundary_Mark|].
  apply (draws_bind _ _ _ 1 1); [apply draws_NewBoundary|]. intros related.
  apply draws_check; [by apply draws_returns, returns_Boundary_Mark|].
  apply (draws_bind _ _ _ 1 0); [apply draws_NewBoundary|]. intros alternative.
  apply draws_check; [by apply draws_returns, returns_write_parts|].
  apply draws_check; [by apply draws_returns, returns_Boundary_End|].
  apply draws_check; [by apply draws_returns, returns_Boundary_End|].
  apply draws_check; [by apply draws_returns, returns_Boundary_End|].
  apply draws_Close.
Qed.

Lemma draws_unchecked_write_envelope e :
  draws_upto E (fun _ => True) 3 (unchecked_write_envelope E e).
Proof.
  unfold unchecked_write_envelope.
  apply (draws_bind _ _ _ 0 3);
    [by apply draws_returns, returns_unchecked_Headers_Write|]. intros _.
  apply (draws_bind _ _ _ 1 2); [apply draws_unchecked_NewBoundary|]. intros mixed.
  apply (draws_bind _ _ _ 0 2);
    [by apply draws_returns, returns_unchecked_Mark|]. intros _.
  apply (draws_bind _ _ _ 1 1); [apply draws_unchecked_NewBoundary|]. intros related.
  apply (draws_bind _ _ _ 0 1);
    [by apply draws_returns, returns_unchecked_Mark|]. intros _.
  apply (draws_bind _ _ _ 1 0); [apply draws_unchecked_NewBoundary|].
  intros alternative.
  apply (draws_bind _ _ _ 0 0);
    [by apply draws_returns, returns_unchecked_write_parts|]. intros _.
  apply (draws_bind _ _ _ 0 0);
    [by apply draws_returns, returns_unchecked_End|]. intros _.
  apply (draws_bind _ _ _ 0 0);
    [by apply draws_returns, returns_unchecked_End|]. intros _.
  apply (draws_bind _ _ _ 0 0);
    [by apply draws_returns, returns_unchecked_End|]. intros _.
  apply (draws_bind _ _ _ 0 0); [apply draws_Close|]. intros _.
  apply draws_returns, returns_ret.
Qed.

End Draws.

(** X12: [Envelope.Write] reads the random source once for each of its
    three boundaries and never for a part: a run that returns without
    error has made exactly three reads, whatever the number of parts; a
    run that returns an error at most three; and a panic happens only at
    a read that failed, after fewer than three successful ones.  The
    variant without error results makes exactly three reads whenever it
    returns. *)
Theorem Envelope_Write_draws `{TimeLib} (E : Env) (e : Envelope) (w : World) :
  match Postbox.Envelope_Write E e w with
  | Done (_, r) w' =>
      (draws w <= draws w' <= draws w + 3)%nat /\
      (r = None -> draws w' = (draws w + 3)%nat)
  | Panicked w' =>
      (draws w <= draws w' < draws w + 3)%nat /\ rand_fail E (draws w') = true
  end /\
  match Unchecked.Envelope_Write E e w with
  | Done _ w' => draws w' = (draws w + 3)%nat
  | Panicked w' =>
      (draws w <= draws w' < draws w + 3)%nat /\ rand_fail E (draws w') = true
  end.
Proof.
  split.
  - rewrite Envelope_Write_eq. unfold bind, ret.
    pose proof (draws_write_envelope E (dated E e) w) as Hrun.
    by destruct (write_envelope E (dated E e) w) as [r w'|w'].
  - rewrite Unchecked_Envelope_Write_eq. unfold bind, ret.
    pose proof (draws_unchecked_write_envelope E (dated E e) w) as Hrun.
    destruct (unchecked_write_envelope E (dated E e) w) as [r w'|w']; [|done].
    by apply Hrun.
Qed.

(** ** A part that fails *)

Section FailingPart.
Context `{TimeLib} (E : Env).
Hypothesis Hlegal : range_legal E.
Hypothesis Hacc : accepts_writes E.

Lemma write_parts_failing b pre bad post charset err w :
  Forall (clean E charset) pre -> failing E charset bad err ->
  exists blocks block,
    Postbox.write_parts E b (pre ++ bad :: post) charset w =
    Done (Some err) (extend w (ok_writes
      (concat (map (fun block => mark (Identifier b) :: block) blocks)
       ++ mark (Identifier b) :: block))) /\
    Forall2 (part_block E charset) pre blocks.
Proof.
  intros Hclean Hbad. revert w.
  induction Hclean as [|part pre Hpart _ IH]; intros w.
  - cbn [app Postbox.write_parts]. unfold bind at 1.
    rewrite Boundary_Mark_accepted by done. unfold bind at 1.
    destruct (Hbad (extend w (ok_writes [mark (Identifier b)]))) as [block Hrun].
    rewrite Hrun. exists [], block. split; [|constructor].
    unfold ret. by rewrite extend_extend, <- ok_writes_app.
  - cbn [app Postbox.write_parts]. unfold bind at 1.
    rewrite Boundary_Mark_accepted by done. unfold bind at 1.
    destruct (Part_Write_accepted E Hacc part charset
                (extend w (ok_writes [mark (Identifier b)])))
      as (r & block & Hrun).
    destruct (Hpart (extend w (ok_writes [mark (Identifier b)]))) as (w' & Hok).
    rewrite Hrun in Hok. injection Hok as -> _. rewrite Hrun.
    destruct (IH (extend (extend w (ok_writes [mark (Identifier b)]))
                    (ok_writes block))) as (blocks & last & Hrest & Hblocks).
    exists (block :: blocks), last. split.
    + rewrite Hrest, !extend_extend, <- !ok_writes_app. cbn [map concat].
      by rewrite <- !app_assoc.
    + constructor; [|done]. by exists (extend w (ok_writes [mark (Identifier b)])).
Qed.

Lemma Envelope_Write_failing_part e w pre bad post err :
  (forall i, rand_fail E i = false) ->
  Parts e = pre ++ bad :: post ->
  Forall (clean E (Charset e)) pre -> failing E (Charset e) bad err ->
  let mixed := token E (draws w) in
  let related := token E (S (draws w)) in
  let alternative := token E (S (S (draws w))) in
  exists blocks block,
    Postbox.Envelope_Write E e w =
    Done (dated E e, Some err)
      (mkWorld
         (events w ++ ok_writes
            (header_writes (range E (events w) (Postbox.envelope_headers (dated E e)))
             ++ declaration "multipart/mixed" mixed ++ [mark mixed]
             ++ declaration "multipart/related" related ++ [mark related]
             ++ declaration "multipart/alternative" alternative
             ++ concat (map (fun block => mark alternative :: block) blocks)
             ++ mark alternative :: block))
         (S (S (S (draws w))))) /\
    Forall2 (part_block E (Charset e)) pre blocks.
Proof.
  intros Hrand Hparts Hclean Hbad mixed related alternative.
  unfold Postbox.Envelope_Write. fold (dated E e).
  rewrite Parts_dated, Charset_dated, Hparts.
  unfold bind. rewrite Headers_Write_accepted by done.
  rewrite NewBoundary_accepted, Hrand by done. cbn [draws extend].
  rewrite Boundary_Mark_accepted by done.
  rewrite NewBoundary_accepted, Hrand by done. cbn [draws extend].
  rewrite Boundary_Mark_accepted by done.
  rewrite NewBoundary_accepted, Hrand by done. cbn [draws extend].
  match goal with |- context [Postbox.write_parts E ?b _ ?cs ?w0] =>
    destruct (write_parts_failing b pre bad post cs err w0 Hclean Hbad)
      as (blocks & block & -> & Hblocks) end.
  exists blocks, block. split; [|done].
  unfold ret, extend. cbn [events draws Identifier].
  fold mixed related alternative.
  by rewrite !ok_writes_app, <- !app_assoc.
Qed.

End FailingPart.

(** X13: in the variant with error results, on an accepting stream
    and with a working random source, when the parts before some part
    are written without error and [Part.Write] fails on that part,
    [Envelope.Write] returns that error right there: the output ends
    inside the failing part, no boundary is closed, the stream is not
    closed, and the parts after it are never looked at. *)
Theorem Envelope_Write_aborts_at_failing_part `{TimeLib} (E : Env)
  (e : Envelope) (w : World) (pre : list Part) (bad : Part) (post : list Part)
  (err : error) :
  range_legal E -> accepts_writes E -> (forall i, rand_fail E i = false) ->
  Parts e = pre ++ bad :: post ->
  Forall (clean E (Charset e)) pre -> failing E (Charset e) bad err ->
  let mixed := token E (draws w) in
  let related := token E (S (draws w)) in
  let alternative := token E (S (S (draws w))) in
  exists blocks block,
    Postbox.Envelope_Write E e w =
    Done (dated E e, Some err)
      (mkWorld
         (events w ++ ok_writes
            (header_writes (range E (events w) (Postbox.envelope_headers (dated E e)))
             ++ declaration "multipart/mixed" mixed ++ [mark mixed]
             ++ declaration "multipart/related" related ++ [mark related]
             ++ declaration "multipart/alternative" alternative
             ++ concat (map (fun block => mark alternative :: block) blocks)
             ++ mark alternative :: block))
         (S (S (S (draws w))))) /\
    Forall2 (part_block E (Charset e)) pre blocks.
Proof.
  intros Hlegal Hacc. by apply Envelope_Write_failing_part.
Qed.

(** ** Where an error of [Envelope.Write] comes from *)

Section Surfaces.
Context `{TimeLib} (E : Env).

Lemma surfaces_call src c : surfaces src (call E c).
Proof.
  intros w. unfold call. cbn [events].
  destruct (writer E (events w) c) as [err|]; [|by eexists].
  left. by exists [], c.
Qed.

Lemma surfaces_check src (m k : M (option error)) :
  surfaces src m -> surfaces src k -> surfaces src (check m ;; k).
Proof.
  intros Hm Hk w. specialize (Hm w). unfold bind.
  destruct (m w) as [[e|] w1|w1]; [done| |done].
  destruct Hm as [new Hnew]. specialize (Hk w1).
  destruct (k w1) as [[err|] w2|w2].
  - destruct Hk as [(pre & c & Hev)|Hsrc]; [left|by right].
    exists (new ++ pre), c. by rewrite Hev, Hnew, <- !app_assoc.
  - destruct Hk as [new2 Hev]. exists (new ++ new2).
    by rewrite Hev, Hnew, <- app_assoc.
  - destruct Hk as [new2 Hev]. exists (new ++ new2).
    by rewrite Hev, Hnew, <- app_assoc.
Qed.

Lemma surfaces_bind {A} src (m : M A) (k : A -> M (option error)) :
  runs (fun _ => True) m -> (forall a, surfaces src (k a)) ->
  surfaces src (bind m k).
Proof.
  intros Hm Hk w. destruct (Hm w) as (new & Hnew & _). unfold bind.
  destruct (m w) as [a w1|w1]; cbn [final] in Hnew; [|by exists new].
  specialize (Hk a w1). destruct (k a w1) as [[err|] w2|w2].
  - destruct Hk as [(pre & c & Hev)|Hsrc]; [left|by right].
    exists (new ++ pre), c. by rewrite Hev, Hnew, <- !app_assoc.
  - destruct Hk as [new2 Hev]. exists (new ++ new2).
    by rewrite Hev, Hnew, <- app_assoc.
  - destruct Hk as [new2 Hev]. exists (new ++ new2).
    by rewrite Hev, Hnew, <- app_assoc.
Qed.

Lemma surfaces_weaken (src src' : error -> Prop) m :
  (forall err, src err -> src' err) -> surfaces src m -> surfaces src' m.
Proof.
  intros Himp Hm w. specialize (Hm w).
  destruct (m w) as [[err|] w1|w1]; [|done..].
  destruct Hm as [Hlast|Hsrc]; [by left|right; by apply Himp].
Qed.

Lemma surfaces_stops src (m : M (option error)) :
  stops_at_failure id src m -> surfaces src m.
Proof.
  intros Hm w. destruct (Hm w) as (a & new & -> & Hff). simpl in Hff.
  destruct Hff as [ps|pre p err|ps err Hsrc]; cbn [extend events].
  - by eexists.
  - left. by exists (ok_writes pre), (CWrite p).
  - by right.
Qed.

Lemma surfaces_write_parts b parts charset :
  surfaces (fun err => exists p, p ∈ parts /\ source_error p = Some err)
    (Postbox.write_parts E b parts charset).
Proof.
  induction parts as [|part parts IH]; cbn [Postbox.write_parts].
  - intros w. cbn. exists []. by rewrite app_nil_r.
  - apply surfaces_check; [apply surfaces_call|].
    apply surfaces_check.
    + eapply surfaces_weaken; [|apply surfaces_stops, stops_Part_Write].
      intros err Herr. exists part. split; [apply elem_of_cons; by left|done].
    + eapply surfaces_weaken; [|apply IH].
      intros err (p & Hin & Herr). exists p. split; [apply elem_of_cons; by right|done].
Qed.

Lemma surfaces_write_envelope e :
  surfaces (fun err => exists p, p ∈ Parts e /\ source_error p = Some err)
    (write_envelope E e).
Proof.
  unfold write_envelope.
  apply surfaces_check.
  { eapply surfaces_weaken; [|apply surfaces_stops, (stops_Headers_Write E (fun _ => False))].
    done. }
  apply surfaces_bind; [by apply runs_NewBoundary|]. intros mixed.
  apply surfaces_check; [apply surfaces_call|].
  apply surfaces_bind; [by apply runs_NewBoundary|]. intros related.
  apply surfaces_check; [apply surfaces_call|].
  apply surfaces_bind; [by apply runs_NewBoundary|]. intros alternative.
  apply surfaces_check; [apply surfaces_write_parts|].
  apply surfaces_check; [apply surfaces_call|].
  apply surfaces_check; [apply surfaces_call|].
  apply surfaces_check; [apply surfaces_call|].
  apply surfaces_call.
Qed.

End Surfaces.

(** X14: an error that [Envelope.Write] returns is the answer of the
    last call it made on the stream (a refused write, or the close), or it
    is the error that ended the source of one of the parts (for a part
    marked quoted-printable, of its decoding reader).  The function makes
    up no error of its own, and a refused write that it reports is never
    followed by another call. *)
Theorem Envelope_Write_error_origin `{TimeLib} (E : Env) (e e' : Envelope)
  (w w' : World) (err : error) :
  Postbox.Envelope_Write E e w = Done (e', Some err) w' ->
  (exists pre c, events w' = events w ++ pre ++ [mkEvent c (Some err)]) \/
  (exists p, p ∈ Parts e /\ source_error p = Some err).
Proof.
  rewrite Envelope_Write_eq. unfold bind, ret.
  pose proof (surfaces_write_envelope E (dated E e) w) as Hrun.
  destruct (write_envelope E (dated E e) w) as [r w1|w1]; [|done].
  intros [= _ -> ->]. rewrite Parts_dated in Hrun. exact Hrun.
Qed.

(** ** Plain text in a part marked quoted-printable *)

Lemma scan_line_found (pre rest : bytes) room :
  Forall (fun c => is_lf c = false) pre -> (length pre < room)%nat ->
  scan_line room (pre ++ "010"%char :: rest) = Some (pre ++ ["010"%char], rest).
Proof.
  intros Hpre. revert room. induction Hpre as [|c pre Hc _ IH]; intros room Hroom.
  - destruct room; [lia|]. done.
  - destruct room; [cbn in Hroom; lia|]. cbn [app scan_line]. rewrite Hc.
    rewrite IH by (cbn in Hroom; lia). done.
Qed.

Lemma scan_line_none (d : bytes) room :
  Forall (fun c => is_lf c = false) d -> scan_line room d = None.
Proof.
  intros Hd. revert room. induction Hd as [|c d Hc _ IH]; intros [|room]; try done.
  cbn [scan_line]. by rewrite Hc, IH.
Qed.

Lemma TrimRightFunc_keeps (l : bytes) f :
  match last l with Some c => f c = false | None => True end ->
  TrimRightFunc l f = l.
Proof.
  induction l as [|c l IH]; [done|]. intros Hlast. cbn [TrimRightFunc].
  destruct l as [|c' l'].
  - cbn in *. by rewrite Hlast.
  - rewrite IH by done. done.
Qed.

Lemma TrimRightFunc_blanks (l ws : bytes) f :
  Forall (fun c => f c = true) ws ->
  match last l with Some c => f c = false | None => True end ->
  TrimRightFunc (l ++ ws) f = l.
Proof.
  intros Hws. induction l as [|c l IH]; intros Hlast.
  - cbn [app]. induction Hws as [|x ws Hx _ IHws]; [done|].
    cbn [TrimRightFunc]. by rewrite IHws, Hx.
  - cbn [app TrimRightFunc]. destruct l as [|c' l'].
    + cbn [app]. cbn in Hlast.
      assert (TrimRightFunc ws f = []) as ->.
      { clear -Hws. induction Hws as [|x ws Hx _ IHws]; [done|].
        cbn [TrimRightFunc]. by rewrite IHws, Hx. }
      by rewrite Hlast.
    + rewrite IH by done. done.
Qed.

Lemma qp_plain_spec c :
  qp_plain c = true ->
  c <> "="%char /\ is_lf c = false /\ is_cr c = false /\
  (bool_decide (c = "009"%char) = true \/
   (128 <=? N_of_ascii c)%N = true \/
   ((N_of_ascii c <? 32)%N || (126 <? N_of_ascii c)%N) = false).
Proof.
  unfold qp_plain, is_lf, is_cr. intros Hc.
  apply andb_true_iff in Hc as [Hne Hc]. apply negb_true_iff, N.eqb_neq in Hne.
  assert (Heq61 : c <> "="%char).
  { intros ->. by apply Hne. }
  split; [done|].
  apply orb_true_iff in Hc as [Hc|Hc]; [apply orb_true_iff in Hc as [Hc|Hc]|].
  - apply N.eqb_eq in Hc.
    assert (c = "009"%char) as ->
      by (rewrite <- (ascii_N_embedding c), Hc; reflexivity).
    repeat split; try done. by left.
  - pose proof Hc as Hge. apply N.leb_le in Hge.
    split; [|split].
    + apply bool_decide_eq_false. intros ->.
      change (N_of_ascii "010") with 10%N in Hge. lia.
    + apply bool_decide_eq_false. intros ->.
      change (N_of_ascii "013") with 13%N in Hge. lia.
    + right. by left.
  - apply andb_true_iff in Hc as [Hlo Hhi]. apply N.leb_le in Hlo, Hhi.
    split; [|split].
    + apply bool_decide_eq_false. intros ->.
      change (N_of_ascii "010") with 10%N in Hlo. lia.
    + apply bool_decide_eq_false. intros ->.
      change (N_of_ascii "013") with 13%N in Hlo. lia.
    + right. right. apply orb_false_iff. split; apply N.ltb_ge; lia.
Qed.

Lemma decode_line_plain (l suffix : bytes) :
  Forall (fun c => qp_plain c = true) l ->
  decode_line (l ++ suffix)
  = (l ++ fst (decode_line suffix), snd (decode_line suffix)).
Proof.
  induction 1 as [|c l Hc _ IH]; [cbn [app]; by destruct (decode_line suffix)|].
  destruct (qp_plain_spec c Hc) as (Hne & Hlf & Hcr & Hkind).
  cbn [app decode_line]. rewrite bool_decide_false by done.
  rewrite Hcr, Hlf, IH. unfold emit. cbn [fst snd].
  destruct Hkind as [->|[Hhigh|Hmid]]; [done| |].
  - rewrite Hhigh. by destruct (bool_decide (c = "009"%char)).
  - rewrite Hmid. destruct (bool_decide (c = "009"%char)); [done|].
    by destruct (128 <=? N_of_ascii c)%N.
Qed.

Lemma plain_no_lf (l : bytes) :
  Forall (fun c => qp_plain c = true) l -> Forall (fun c => is_lf c = false) l.
Proof.
  intros Hl. eapply Forall_impl; [exact Hl|].
  intros c Hc. apply (qp_plain_spec c Hc).
Qed.

Lemma HasSuffix_soft (l : bytes) :
  Forall (fun c => qp_plain c = true) l -> HasSuffix l ["="%char] = false.
Proof.
  intros Hl. unfold HasSuffix. apply andb_false_iff. left.
  apply bool_decide_eq_false. intros Heq.
  assert (Hin : "="%char ∈ l).
  { apply (subseteq_drop (length l - length ["="%char]) l). rewrite Heq.
    apply elem_of_cons. by left. }
  rewrite Forall_forall in Hl. apply Hl in Hin.
  by apply qp_plain_spec in Hin as [Hne _].
Qed.

Lemma HasSuffix_app (l suffix : bytes) : HasSuffix (l ++ suffix) suffix = true.
Proof.
  unfold HasSuffix. rewrite length_app. apply andb_true_iff. split.
  - apply bool_decide_eq_true.
    replace (length l + length suffix - length suffix)%nat with (length l) by lia.
    by rewrite drop_app_length.
  - apply Nat.leb_le. lia.
Qed.

Lemma HasSuffix_no_lf (l : bytes) :
  Forall (fun c => is_lf c = false) l -> HasSuffix l (to_bytes LF) = false.
Proof.
  intros Hl. unfold HasSuffix. apply andb_false_iff. left.
  apply bool_decide_eq_false. intros Heq.
  assert (Hin : "010"%char ∈ l).
  { apply (subseteq_drop (length l - length (to_bytes LF)) l). rewrite Heq.
    apply elem_of_cons. by left. }
  rewrite Forall_forall in Hl. by apply Hl in Hin.
Qed.

(** One line with its CRLF goes through the reader unchanged. *)
Lemma qp_line (l rest : bytes) ending :
  plain_line l ->
  ReadSlice (l ++ to_bytes CRLF ++ rest) ending = (l ++ to_bytes CRLF, rest, None) /\
  prepare_line (l ++ to_bytes CRLF) None = (l ++ to_bytes CRLF, None) /\
  decode_line (l ++ to_bytes CRLF) = (l ++ to_bytes CRLF, None).
Proof.
  intros (Hplain & Hlast & Hlen). split; [|split].
  - unfold ReadSlice.
    change (l ++ to_bytes CRLF ++ rest)
      with (l ++ ["013"%char] ++ "010"%char :: rest).
    rewrite app_assoc, scan_line_found.
    + by rewrite <- app_assoc.
    + apply Forall_app. split; [by apply plain_no_lf|]. by repeat constructor.
    + rewrite length_app. cbn [length]. lia.
  - unfold prepare_line.
    rewrite (TrimRightFunc_blanks l (to_bytes CRLF)) by (done || by repeat constructor).
    rewrite HasSuffix_soft by done.
    change (l ++ to_bytes CRLF) with (l ++ ["013"%char] ++ to_bytes LF) at 1.
    rewrite app_assoc, HasSuffix_app. by rewrite HasSuffix_app.
  - by rewrite decode_line_plain.
Qed.

(** The last line, without a line break. *)
Lemma qp_tail (tail : bytes) :
  plain_line tail ->
  ReadSlice tail EOF = (tail, [], Some EOF) /\
  prepare_line tail (Some EOF) = (tail, Some EOF) /\
  decode_line tail = (tail, None).
Proof.
  intros (Hplain & Hlast & Hlen). split; [|split].
  - unfold ReadSlice. rewrite scan_line_none by (by apply plain_no_lf).
    destruct (bufio_size <=? length tail)%nat eqn:Hfull; [|done].
    apply Nat.leb_le in Hfull. lia.
  - unfold prepare_line. rewrite TrimRightFunc_keeps by done.
    rewrite HasSuffix_soft by done.
    by rewrite HasSuffix_no_lf by (by apply plain_no_lf).
  - rewrite <- (app_nil_r tail) at 1. rewrite decode_line_plain by done.
    cbn. by rewrite app_nil_r.
Qed.

Lemma qp_read_plain (ls : list bytes) (tail : bytes) fuel :
  Forall plain_line ls -> plain_line tail -> (length ls < fuel)%nat ->
  qp_read fuel (crlf_text ls tail) EOF = (crlf_text ls tail, EOF).
Proof.
  intros Hls Htail. revert fuel.
  induction Hls as [|l ls Hl _ IH]; intros fuel Hfuel.
  - destruct fuel as [|fuel]; [cbn in Hfuel; lia|].
    unfold crlf_text. cbn [map concat app qp_read].
    destruct (qp_tail tail Htail) as (-> & -> & ->). done.
  - destruct fuel as [|fuel]; [cbn in Hfuel; lia|].
    unfold crlf_text. cbn [map concat]. rewrite <- !app_assoc.
    fold (crlf_text ls tail). cbn [qp_read].
    destruct (qp_line l (crlf_text ls tail) EOF Hl) as (-> & -> & ->).
    rewrite IH by (cbn in Hfuel; lia). by rewrite <- !app_assoc.
Qed.

Lemma concat_pieces (d : bytes) fuel size :
  (length d <= fuel)%nat -> (0 < size)%nat -> concat (pieces fuel size d) = d.
Proof.
  revert d. induction fuel as [|fuel IH]; intros d Hfuel Hsize.
  - destruct d; [done|]. cbn [length] in Hfuel. lia.
  - destruct d as [|c d]; [done|]. cbn [pieces concat].
    rewrite IH, take_drop; [done| |done].
    rewrite length_drop. cbn [length] in *. lia.
Qed.

Lemma crlf_text_length ls tail : (length ls <= length (crlf_text ls tail))%nat.
Proof.
  unfold crlf_text. rewrite length_app.
  induction ls as [|l ls IH]; cbn [map concat length]; [lia|].
  rewrite !length_app. change (length (to_bytes CRLF)) with 2%nat. lia.
Qed.

Lemma quotedprintable_NewReader_plain r ls tail :
  ending r = EOF -> concat (chunks r) = crlf_text ls tail ->
  Forall plain_line ls -> plain_line tail ->
  ending (quotedprintable_NewReader r) = EOF /\
  concat (chunks (quotedprintable_NewReader r)) = concat (chunks r).
Proof.
  intros Hend Hdata Hls Htail. unfold quotedprintable_NewReader.
  rewrite Hend, Hdata, qp_read_plain by (done || pose proof (crlf_text_length ls tail); lia).
  cbn [ending chunks]. split; [done|].
  apply concat_pieces; [done|]. unfold copy_buffer_size. lia.
Qed.

(** X15: text of lines ended by CRLF, made of printable ASCII other
    than [=], of tabs and of bytes above 127, no line ending in a blank or
    longer than the buffer of the reader, is written by a part marked
    quoted-printable exactly as it is: the bytes above 127 are not
    escaped and no line is folded. *)
Theorem Part_Write_quoted_printable_keeps_plain_text `{TimeLib} (E : Env)
  (p : Part) (charset : string) (w : World) (ls : list bytes) (tail : bytes) :
  accepts_writes E -> Encoding p = QuotedPrintable -> ending (Reader p) = EOF ->
  concat (chunks (Reader p)) = crlf_text ls tail ->
  Forall plain_line ls -> plain_line tail ->
  exists body,
    Postbox.Part_Write E p charset w
    = Done None (extend w (ok_writes
        (header_writes (range E (events w) (part_headers p charset))
         ++ [to_bytes CRLF] ++ body ++ [to_bytes CRLF]))) /\
    Unchecked.Part_Write E p charset w
    = Done tt (extend w (ok_writes
        (header_writes (range E (events w) (part_headers p charset))
         ++ [to_bytes CRLF] ++ body ++ [to_bytes CRLF]))) /\
    concat body = concat (chunks (Reader p)).
Proof.
  intros Hacc Hqp Hend Hdata Hls Htail.
  destruct (quotedprintable_NewReader_plain (Reader p) ls tail Hend Hdata Hls Htail)
    as [Heof Hsame].
  exists (reads (quotedprintable_NewReader (Reader p))). split; [|split].
  - rewrite (Part_Write_quoted_printable_accepted E Hacc p charset w Hqp).
    by rewrite decide_True.
  - by apply unchecked_Part_Write_quoted_printable_accepted.
  - by rewrite concat_reads.
Qed.

(** ** The variant without error results on any stream *)

(** X16: in the variant without error results [Headers.Write] never
    looks at an answer of the stream: whatever is refused, it makes the
    writes of every field, in the order of the iteration, and returns. *)
Theorem Unchecked_Headers_Write_makes_every_call `{TimeLib} (E : Env)
  (h : Headers) (w : World) :
  exists new,
    Unchecked.Headers_Write E h w = Done tt (extend w new) /\
    map ev_call new = map CWrite (header_writes (range E (events w) h)).
Proof.
  unfold Unchecked.Headers_Write. apply unchecked_write_fields_calls.
Qed.

(** ** The bytes of a message *)

Lemma written_message hdr mixed related alternative blocks r :
  written (message hdr mixed related alternative blocks r) =
  concat hdr
  ++ to_bytes ("Content-Type: multipart/mixed; boundary=" +:+ mixed +:+ CRLF +:+ CRLF)
  ++ to_bytes ("--" +:+ mixed +:+ CRLF)
  ++ to_bytes ("Content-Type: multipart/related; boundary=" +:+ related
               +:+ CRLF +:+ CRLF)
  ++ to_bytes ("--" +:+ related +:+ CRLF)
  ++ to_bytes ("Content-Type: multipart/alternative; boundary=" +:+ alternative
               +:+ CRLF +:+ CRLF)
  ++ concat (map (fun block => to_bytes ("--" +:+ alternative +:+ CRLF) ++ concat block)
               blocks)
  ++ to_bytes ("--" +:+ alternative +:+ "--" +:+ CRLF +:+ CRLF)
  ++ to_bytes ("--" +:+ related +:+ "--" +:+ CRLF +:+ CRLF)
  ++ to_bytes ("--" +:+ mixed +:+ "--" +:+ CRLF +:+ CRLF).
Proof.
  unfold message. rewrite written_app, written_ok_writes.
  rewrite !concat_app, !written_declaration.
  assert (Hblocks :
    concat (concat (map (fun block => mark alternative :: block) blocks))
    = concat (map (fun block => to_bytes ("--" +:+ alternative +:+ CRLF)
                                ++ concat block) blocks)).
  { induction blocks as [|block blocks IH]; [done|].
    cbn [map concat]. rewrite concat_app, IH. cbn [concat]. done. }
  rewrite Hblocks. cbn [concat written map payload ev_call]. unfold mark, close_marker.
  rewrite ?app_nil_r, <- ?app_assoc. done.
Qed.

(** X17: the bytes of a message written without error on an accepting
    stream.  The header block is not ended by an empty line: the
    [Content-Type] line of the outermost level follows it at once.  Each
    level is declared by its [Content-Type] line and an empty line; the
    two outer levels are opened by one delimiter each; every part follows
    a delimiter of the innermost level; the three closing delimiters,
    each with an empty line, end the message (innermost first).  Nothing
    else is written, in either variant. *)
Theorem Envelope_Write_wire_format `{TimeLib} (E : Env) (e : Envelope) (w : World) :
  range_legal E -> accepts_writes E ->
  let frame (w' : World) (bodies : list bytes) :=
    let mixed := token E (draws w) in
    let related := token E (S (draws w)) in
    let alternative := token E (S (S (draws w))) in
    written (events w') =
    written (events w)
    ++ header_block (range E (events w) (Postbox.envelope_headers (dated E e)))
    ++ to_bytes ("Content-Type: multipart/mixed; boundary=" +:+ mixed
                 +:+ CRLF +:+ CRLF)
    ++ to_bytes ("--" +:+ mixed +:+ CRLF)
    ++ to_bytes ("Content-Type: multipart/related; boundary=" +:+ related
                 +:+ CRLF +:+ CRLF)
    ++ to_bytes ("--" +:+ related +:+ CRLF)
    ++ to_bytes ("Content-Type: multipart/alternative; boundary=" +:+ alternative
                 +:+ CRLF +:+ CRLF)
    ++ concat (map (fun body => to_bytes ("--" +:+ alternative +:+ CRLF) ++ body)
                 bodies)
    ++ to_bytes ("--" +:+ alternative +:+ "--" +:+ CRLF +:+ CRLF)
    ++ to_bytes ("--" +:+ related +:+ "--" +:+ CRLF +:+ CRLF)
    ++ to_bytes ("--" +:+ mixed +:+ "--" +:+ CRLF +:+ CRLF) /\
    length bodies = length (Parts e) in
  (forall e' w', Postbox.Envelope_Write E e w = Done (e', None) w' ->
     exists bodies, frame w' bodies) /\
  (forall e' w', Unchecked.Envelope_Write E e w = Done e' w' ->
     exists bodies, frame w' bodies).
Proof.
  intros Hlegal Hacc frame. split.
  - intros e' w' Hrun.
    pose proof (Envelope_Write_result E _ _ _ _ _ Hrun) as ->.
    destruct (Envelope_Write_accepted E Hlegal Hacc _ _ _ _ Hrun)
      as (blocks & Hev & Hblocks).
    exists (map (fun block : list bytes => concat block) blocks). unfold frame. split.
    + rewrite Hev, written_app, written_message, concat_header_writes.
      by rewrite map_map.
    + rewrite length_map. symmetry. by eapply Forall2_length.
  - intros e' w' Hrun.
    pose proof (Unchecked_Envelope_Write_result E _ _ _ _ Hrun) as ->.
    destruct (unchecked_Envelope_Write_accepted E Hlegal Hacc _ _ _ _ Hrun)
      as (blocks & r & Hev & Hblocks).
    exists (map (fun block : list bytes => concat block) blocks). unfold frame. split.
    + rewrite Hev, written_app, written_message, concat_header_writes.
      by rewrite map_map.
    + rewrite length_map. symmetry. by eapply Forall2_length.
Qed.

(** ** A stream that refuses the first write *)

Lemma field_writes_head f : exists rest, field_writes f = to_bytes f.1 :: rest.
Proof. unfold field_writes. destruct (length f.2 =? 0)%nat; by eexists. Qed.

(** X18: in the variant with error results, when the stream refuses
    the first write, [Envelope.Write] returns the error of that write at
    once: the one call it has made is the write of the name of the field
    that the iteration visits first, no boundary is drawn and the stream
    is not closed. *)
Theorem Envelope_Write_refused_at_once `{TimeLib} (E : Env) (e : Envelope)
  (w : World) (err : error) :
  range_legal E ->
  (forall p, writer E (events w) (CWrite p) = Some err) ->
  exists name,
    name ∈ ["Date"; "From"; "To"; "Cc"; "Reply-To"; "Subject"; "Mime-Version"] /\
    Postbox.Envelope_Write E e w =
    Done (dated E e, Some err)
      (extend w [mkEvent (CWrite (to_bytes name)) (Some err)]).
Proof.
  intros Hlegal Hrefuse.
  pose proof (Hlegal (events w) (Postbox.envelope_headers (dated E e))) as Hperm.
  rewrite envelope_fields_entries in Hperm.
  destruct (range E (events w) (Postbox.envelope_headers (dated E e)))
    as [|f rest] eqn:Hrange.
  { apply Permutation_nil_l in Hperm. discriminate Hperm. }
  exists f.1. split.
  - assert (Hin : f ∈ envelope_fields (dated E e)).
    { rewrite <- Hperm. apply elem_of_cons. by left. }
    unfold envelope_fields in Hin.
    repeat (apply elem_of_cons in Hin as [->|Hin];
            [cbn [fst]; apply (bool_decide_unpack _); by vm_compute|]).
    by apply elem_of_nil in Hin.
  - rewrite Envelope_Write_eq. unfold write_envelope, bind at 1, bind at 1.
    rewrite Headers_Write_write_all, Hrange.
    unfold header_writes. cbn [map concat].
    destruct (field_writes_head f) as [more ->]. cbn [app].
    by rewrite write_all_cons, Hrefuse.
Qed.

(** ** The two variants side by side *)

Section Agreement.
Context `{TimeLib} (E : Env).
Hypothesis Hacc : accepts_writes E.

Lemma unchecked_write_parts_of_checked b parts charset w w1 :
  Postbox.write_parts E b parts charset w = Done None w1 ->
  Unchecked.write_parts E b parts charset w = Done tt w1.
Proof.
  revert w. induction parts as [|part parts IH]; intros w.
  - cbn. by intros [= <-].
  - cbn [Postbox.write_parts Unchecked.write_parts].
    set (rest := Postbox.write_parts E b parts charset) in *.
    set (rest' := Unchecked.write_parts E b parts charset) in *.
    unfold bind.
    rewrite Boundary_Mark_accepted, unchecked_Mark_accepted by done.
    destruct (Postbox.Part_Write E part charset
                (extend w (ok_writes [mark (Identifier b)])))
      as [[err|] w2|w2] eqn:Hpart; [done| |done].
    rewrite (unchecked_Part_Write_of_checked E Hacc _ _ _ _ Hpart). apply IH.
Qed.

Lemma unchecked_write_envelope_of_checked e w w1 :
  write_envelope E e w = Done None w1 ->
  unchecked_write_envelope E e w = Done tt w1.
Proof.
  unfold write_envelope, unchecked_write_envelope, bind.
  rewrite Headers_Write_accepted, unchecked_Headers_Write_accepted by done.
  rewrite unchecked_NewBoundary_accepted by done.
  destruct (Postbox.NewBoundary E "multipart/mixed" _) as [mixed w2|w2]; [|done].
  rewrite Boundary_Mark_accepted, unchecked_Mark_accepted by done.
  rewrite unchecked_NewBoundary_accepted by done.
  destruct (Postbox.NewBoundary E "multipart/related" _) as [related w3|w3]; [|done].
  rewrite Boundary_Mark_accepted, unchecked_Mark_accepted by done.
  rewrite unchecked_NewBoundary_accepted by done.
  destruct (Postbox.NewBoundary E "multipart/alternative" _)
    as [alternative w4|w4]; [|done].
  destruct (Postbox.write_parts E alternative (Parts e) (Charset e) w4)
    as [[err|] w5|w5] eqn:Hparts; [done| |done].
  rewrite (unchecked_write_parts_of_checked _ _ _ _ _ Hparts).
  rewrite !Boundary_End_accepted, !unchecked_End_accepted by done.
  intros Hclose. by rewrite Hclose.
Qed.

End Agreement.

(** X19: on a stream that accepts every write the two variants agree
    wherever the one with error results succeeds: when it returns nil,
    the variant without error results, run from the same state, has made
    the same calls with the same random draws and leaves the same
    envelope behind. *)
Theorem Envelope_Write_variants_agree `{TimeLib} (E : Env) (e e' : Envelope)
  (w w' : World) :
  accepts_writes E ->
  Postbox.Envelope_Write E e w = Done (e', None) w' ->
  Unchecked.Envelope_Write E e w = Done e' w'.
Proof.
  intros Hacc. rewrite Envelope_Write_eq, Unchecked_Envelope_Write_eq.
  set (run := write_envelope E (dated E e)).
  set (run' := unchecked_write_envelope E (dated E e)).
  unfold bind.
  destruct (run w) as [r w1|w1] eqn:Hrun; [|done].
  unfold ret. intros [= <- -> <-]. unfold run'.
  by rewrite (unchecked_write_envelope_of_checked E Hacc _ _ _ Hrun).
Qed.

(** ** No write without bytes *)

Lemma Encode_nonempty (src : bytes) : src <> [] -> Encode src <> [].
Proof.
  intros Hsrc Henc. apply (f_equal length) in Henc.
  rewrite Encode_length in Henc. destruct src as [|c src]; [done|].
  cbn [length] in Henc. euclid.
Qed.

Lemma positive_length {A} (l : list A) : (0 < length l)%nat -> l <> [].
Proof. intros Hlen ->. cbn in Hlen. lia. Qed.

Section NoEmptyWrite.
Context `{TimeLib} (E : Env).
Hypothesis Hlegal : range_legal E.

Lemma carries_Write p : p <> [] -> returns carries_bytes (Write E p).
Proof.
  intros Hp w. eexists _, _. split; [apply Write_eq|]. by apply Forall_singleton.
Qed.

Lemma carries_Copy_string s : returns carries_bytes (Copy_string E s).
Proof. destruct s; [apply returns_ret|by apply carries_Write]. Qed.

Lemma to_bytes_nonempty s : s <> EmptyString -> to_bytes s <> [].
Proof. by destruct s. Qed.

Lemma carries_write_fields fs :
  Forall (fun f : string * list string => f.1 <> EmptyString) fs ->
  returns carries_bytes (Postbox.write_fields E fs).
Proof.
  induction 1 as [|[property values] fs Hname _ IH]; [apply returns_ret|].
  cbn [Postbox.write_fields].
  apply returns_check; [by apply carries_Write, to_bytes_nonempty|].
  destruct (length values =? 0)%nat.
  - apply returns_check; [by apply carries_Write | done].
  - apply returns_check; [by apply carries_Write|].
    apply returns_check; [apply carries_Copy_string|].
    apply returns_check; [by apply carries_Write | done].
Qed.

Lemma carries_unchecked_write_fields fs :
  Forall (fun f : string * list string => f.1 <> EmptyString) fs ->
  returns carries_bytes (Unchecked.write_fields E fs).
Proof.
  induction 1 as [|[property values] fs Hname _ IH]; [apply returns_ret|].
  cbn [Unchecked.write_fields].
  apply returns_ignore; [by apply carries_Write, to_bytes_nonempty|].
  destruct (length values =? 0)%nat.
  - apply returns_ignore; [by apply carries_Write | done].
  - apply returns_ignore; [by apply carries_Write|].
    apply returns_ignore; [apply carries_Copy_string|].
    apply returns_ignore; [by apply carries_Write | done].
Qed.

Lemma range_names (h : Headers) t :
  h !! EmptyString = None ->
  Forall (fun f : string * list string => f.1 <> EmptyString) (range E t h).
Proof.
  intros Hnone. rewrite (Hlegal t h). apply Forall_forall. intros [name values] Hin.
  apply elem_of_map_to_list in Hin. cbn [fst]. intros ->.
  by rewrite Hnone in Hin.
Qed.

Lemma carries_Headers_Write (h : Headers) :
  h !! EmptyString = None -> returns carries_bytes (Postbox.Headers_Write E h).
Proof. intros Hnone w. by apply carries_write_fields, range_names. Qed.

Lemma carries_unchecked_Headers_Write (h : Headers) :
  h !! EmptyString = None -> returns carries_bytes (Unchecked.Headers_Write E h).
Proof. intros Hnone w. by apply carries_unchecked_write_fields, range_names. Qed.

Lemma carries_copy_to_stream cs ending :
  returns carries_bytes (copy_loop (stream_write E) tt cs ending).
Proof.
  induction cs as [|c cs IH]; [apply returns_ret|]. cbn [copy_loop].
  destruct (0 <? length c)%nat eqn:Hc; [|done].
  apply Nat.ltb_lt in Hc. apply returns_bind.
  - apply returns_bind; [by apply carries_Write, positive_length|].
    intros r. apply returns_ret.
  - intros [[] [e|]]; [apply returns_ret|done].
Qed.

Lemma carries_encoder_interior fuel :
  forall p, returns carries_bytes (encoder_interior E fuel p).
Proof.
  induction fuel as [|fuel IH]; intros p; [apply returns_ret|].
  cbn [encoder_interior]. destruct (3 <=? length p)%nat eqn:Hp; [|apply returns_ret].
  apply Nat.leb_le in Hp. apply returns_bind.
  - apply carries_Write, Encode_nonempty, positive_length.
    rewrite length_take. destruct (length p <? 768)%nat eqn:Hlt.
    + apply Nat.ltb_lt in Hlt. euclid.
    + apply Nat.ltb_ge in Hlt. lia.
  - intros [e|]; [apply returns_ret|apply IH].
Qed.

Lemma carries_encoder_rest p : returns carries_bytes (encoder_rest E p).
Proof.
  apply returns_bind; [apply carries_encoder_interior|].
  intros [rest [e|]]; apply returns_ret.
Qed.

Lemma carries_encoder_Write e p : returns carries_bytes (encoder_Write E e p).
Proof.
  unfold encoder_Write. destruct (enc_err e); [apply returns_ret|].
  destruct (0 <? length (enc_buf e))%nat; [|apply carries_encoder_rest].
  destruct (length (enc_buf e ++ _) <? 3)%nat eqn:Hbuf; [apply returns_ret|].
  apply Nat.ltb_ge in Hbuf. apply returns_bind.
  - apply carries_Write, Encode_nonempty, positive_length. lia.
  - intros [x|]; [apply returns_ret|apply carries_encoder_rest].
Qed.

Lemma carries_encoder_Close e : returns carries_bytes (encoder_Close E e).
Proof.
  unfold encoder_Close. destruct (enc_err e); [apply returns_ret|].
  destruct (0 <? length (enc_buf e))%nat eqn:Hbuf; [|apply returns_ret].
  apply Nat.ltb_lt in Hbuf. apply returns_bind.
  - by apply carries_Write, Encode_nonempty, positive_length.
  - intros r. apply returns_ret.
Qed.

Lemma carries_copy_to_encoder cs ending :
  forall e, returns carries_bytes (copy_loop (encoder_Write E) e cs ending).
Proof.
  induction cs as [|c cs IH]; intros e; [apply returns_ret|]. cbn [copy_loop].
  destruct (0 <? length c)%nat; [|done].
  apply returns_bind; [apply carries_encoder_Write|].
  intros [e' [x|]]; [apply returns_ret|apply IH].
Qed.

Lemma carries_copy_body p : returns carries_bytes (copy_body E p).
Proof.
  unfold copy_body. repeat case_decide.
  - apply returns_bind; [apply carries_copy_to_stream|intros; apply returns_ret].
  - apply returns_bind; [apply carries_copy_to_encoder|].
    intros [enc [e|]]; [apply returns_ret|].
    apply returns_bind; [apply carries_encoder_Close|intros; apply returns_ret].
  - apply returns_bind; [apply carries_copy_to_stream|intros; apply returns_ret].
Qed.

Lemma carries_unchecked_copy_body p : returns carries_bytes (unchecked_copy_body E p).
Proof.
  unfold unchecked_copy_body. repeat case_decide.
  - apply returns_ignore; [apply carries_copy_to_stream|apply returns_ret].
  - apply returns_bind; [apply carries_copy_to_encoder|].
    intros r. apply returns_ignore; [apply carries_encoder_Close|apply returns_ret].
  - apply returns_ignore; [apply carries_copy_to_stream|apply returns_ret].
Qed.

Lemma carries_Part_Write p charset :
  returns carries_bytes (Postbox.Part_Write E p charset).
Proof.
  rewrite Part_Write_eq.
  apply returns_check; [by apply carries_Headers_Write|].
  apply returns_check; [by apply carries_Write|].
  apply returns_check; [apply carries_copy_body|by apply carries_Write].
Qed.

Lemma carries_unchecked_Part_Write p charset :
  returns carries_bytes (Unchecked.Part_Write E p charset).
Proof.
  rewrite Unchecked_Part_Write_eq.
  apply returns_ignore; [by apply carries_unchecked_Headers_Write|].
  apply returns_ignore; [by apply carries_Write|].
  apply returns_ignore; [apply carries_unchecked_copy_body|].
  apply returns_ignore; [by apply carries_Write|apply returns_ret].
Qed.

Lemma carries_NewBoundary mime : runs carries_bytes (Postbox.NewBoundary E mime).
Proof.
  apply runs_bind; [apply runs_RandomBoundary|]. intros identifier.
  apply runs_bind; [by apply returns_runs, carries_Headers_Write|]. intros _.
  apply runs_bind; [by apply returns_runs, carries_Write|]. intros _.
  apply runs_ret.
Qed.

Lemma carries_unchecked_NewBoundary mime :
  runs carries_bytes (Unchecked.NewBoundary E mime).
Proof.
  apply runs_bind; [apply runs_RandomBoundary|]. intros identifier.
  apply runs_bind; [by apply returns_runs, carries_unchecked_Headers_Write|].
  intros _.
  apply runs_bind; [by apply returns_runs, carries_Write|]. intros _.
  apply runs_ret.
Qed.

Lemma carries_write_parts b parts charset :
  returns carries_bytes (Postbox.write_parts E b parts charset).
Proof.
  induction parts as [|part parts IH]; [apply returns_ret|].
  cbn [Postbox.write_parts].
  apply returns_check; [by apply carries_Write|].
  apply returns_check; [apply carries_Part_Write|done].
Qed.

Lemma carries_unchecked_write_parts b parts charset :
  returns carries_bytes (Unchecked.write_parts E b parts charset).
Proof.
  induction parts as [|part parts IH]; [apply returns_ret|].
  cbn [Unchecked.write_parts].
  apply returns_ignore.
  { apply returns_ignore; [by apply carries_Write|apply returns_ret]. }
  apply returns_ignore; [apply carries_unchecked_Part_Write|done].
Qed.

Lemma runs_check P (m k : M (option error)) :
  runs P m -> runs P k -> runs P (check m ;; k).
Proof.
  intros Hm Hk. apply runs_bind; [done|]. intros [e|]; [apply runs_ret|done].
Qed.

Lemma carries_Close : runs carries_bytes (Close E).
Proof.
  intros w. eexists. split; [reflexivity|]. by apply Forall_singleton.
Qed.

Lemma carries_write_envelope e : runs carries_bytes (write_envelope E e).
Proof.
  unfold write_envelope.
  apply runs_check; [by apply returns_runs, carries_Headers_Write|].
  apply runs_bind; [apply carries_NewBoundary|]. intros mixed.
  apply runs_check; [by apply returns_runs, carries_Write|].
  apply runs_bind; [apply carries_NewBoundary|]. intros related.
  apply runs_check; [by apply returns_runs, carries_Write|].
  apply runs_bind; [apply carries_NewBoundary|]. intros alternative.
  apply runs_check; [apply returns_runs, carries_write_parts|].
  apply runs_check; [by apply returns_runs, carries_Write|].
  apply runs_check; [by apply returns_runs, carries_Write|].
  apply runs_check; [by apply returns_runs, carries_Write|].
  apply carries_Close.
Qed.

Lemma carries_unchecked_write_envelope e :
  runs carries_bytes (unchecked_write_envelope E e).
Proof.
  assert (Hmark : forall p, p <> [] ->
            runs carries_bytes (ignore Write E p ;; ret tt)).
  { intros p Hp. apply returns_runs.
    apply returns_ignore; [by apply carries_Write|apply returns_ret]. }
  unfold unchecked_write_envelope.
  apply runs_bind; [by apply returns_runs, carries_unchecked_Headers_Write|].
  intros _.
  apply runs_bind; [apply carries_unchecked_NewBoundary|]. intros mixed.
  apply runs_bind; [by apply Hmark|]. intros _.
  apply runs_bind; [apply carries_unchecked_NewBoundary|]. intros related.
  apply runs_bind; [by apply Hmark|]. intros _.
  apply runs_bind; [apply carries_unchecked_NewBoundary|]. intros alternative.
  apply runs_bind; [apply returns_runs, carries_unchecked_write_parts|]. intros _.
  apply runs_bind; [by apply Hmark|]. intros _.
  apply runs_bind; [by apply Hmark|]. intros _.
  apply runs_bind; [by apply Hmark|]. intros _.
  apply runs_bind; [apply carries_Close|]. intros _.
  apply runs_ret.
Qed.

End NoEmptyWrite.

(** X20: [Envelope.Write] never hands the stream a write without
    bytes, whatever the envelope holds and whatever the stream answers:
    empty values, empty reads of a source and an empty carry of the
    base64 encoder are skipped, and everything else it writes has at
    least one byte (in both variants).  A reader at the other end of a
    pipe therefore never sees a read of no bytes before the end. *)
Theorem Envelope_Write_no_empty_write `{TimeLib} (E : Env) (e : Envelope)
  (w : World) :
  range_legal E ->
  (exists new,
     events (final (Postbox.Envelope_Write E e w)) = events w ++ new /\
     Forall carries_bytes new) /\
  (exists new,
     events (final (Unchecked.Envelope_Write E e w)) = events w ++ new /\
     Forall carries_bytes new).
Proof.
  intros Hlegal. split.
  - rewrite Envelope_Write_eq, final_bind_ret.
    apply (carries_write_envelope E Hlegal (dated E e) w).
  - rewrite Unchecked_Envelope_Write_eq, final_bind_ret.
    apply (carries_unchecked_write_envelope E Hlegal (dated E e) w).
Qed.

(** ** The properties on concrete runs *)

Module SampleFacts.

Lemma broken_legal : range_legal Example.broken.
Proof. intros t h. reflexivity. Qed.

Lemma steady_random i : rand_fail Example.steady i = false.
Proof. reflexivity. Qed.

Lemma lost_failing : failing Example.steady "utf-8" Sample.lost (ErrSource 2).
Proof.
  intros w.
  destruct (Part_Write_plain_accepted Example.steady ExampleFacts.steady_accepts
              Sample.lost "utf-8" w) as [Hrun _]; [discriminate..|].
  rewrite Hrun. eexists. reflexivity.
Qed.

Lemma first_line_plain : plain_line Sample.first_line.
Proof.
  split; [|split].
  - apply (bool_decide_unpack _). by vm_compute.
  - reflexivity.
  - unfold bufio_size. cbn. lia.
Qed.

Lemma second_line_plain : plain_line Sample.second_line.
Proof.
  split; [|split].
  - apply (bool_decide_unpack _). by vm_compute.
  - reflexivity.
  - unfold bufio_size. cbn. lia.
Qed.

End SampleFacts.

Lemma Part_Write_copies_unencoded_witness :
  let hdr := header_writes (range Example.steady (events Example.start)
                              (part_headers Sample.plain "UTF-8")) in
  let body := reads (Reader Sample.plain) in
  concat body = concat (chunks (Reader Sample.plain)) /\
  Postbox.Part_Write Example.steady Sample.plain "UTF-8" Example.start =
  (if decide (ending (Reader Sample.plain) = EOF)
   then Done None (extend Example.start (ok_writes
          (hdr ++ [to_bytes CRLF] ++ body ++ [to_bytes CRLF])))
   else Done (Some (ending (Reader Sample.plain)))
          (extend Example.start (ok_writes (hdr ++ [to_bytes CRLF] ++ body)))) /\
  Unchecked.Part_Write Example.steady Sample.plain "UTF-8" Example.start =
  Done tt (extend Example.start
             (ok_writes (hdr ++ [to_bytes CRLF] ++ body ++ [to_bytes CRLF]))).
Proof.
  apply (Part_Write_copies_unencoded Example.steady Sample.plain "UTF-8"
           Example.start ExampleFacts.steady_accepts); discriminate.
Defined.

Lemma Part_Write_header_lines_witness :
  let content_type :=
    to_bytes ("Content-Type: " +:+ ContentType Sample.plain +:+ "; charset="
              +:+ "UTF-8" +:+ CRLF) in
  let transfer :=
    to_bytes ("Content-Transfer-Encoding: " +:+ Encoding Sample.plain +:+ CRLF) in
  exists head rest rest',
    (head = content_type ++ transfer \/ head = transfer ++ content_type) /\
    written (events (final (Postbox.Part_Write Example.reversed Sample.plain
                              "UTF-8" Example.start)))
    = written (events Example.start) ++ head ++ to_bytes CRLF ++ rest /\
    written (events (final (Unchecked.Part_Write Example.reversed Sample.plain
                              "UTF-8" Example.start)))
    = written (events Example.start) ++ head ++ to_bytes CRLF ++ rest'.
Proof.
  apply (Part_Write_header_lines Example.reversed Sample.plain "UTF-8"
           Example.start ExampleFacts.reversed_legal ExampleFacts.reversed_accepts).
Defined.

Lemma Part_Write_base64_source_failure_witness :
  let hdr := header_writes (range Example.steady (events Example.start)
                              (part_headers Sample.cut "utf-8")) in
  let data := concat (chunks (Reader Sample.cut)) in
  exists body body',
    Postbox.Part_Write Example.steady Sample.cut "utf-8" Example.start =
    Done (Some (ending (Reader Sample.cut)))
      (extend Example.start (ok_writes (hdr ++ [to_bytes CRLF] ++ body))) /\
    concat body = Encode (take (whole data) data) /\
    Unchecked.Part_Write Example.steady Sample.cut "utf-8" Example.start =
    Done tt (extend Example.start
               (ok_writes (hdr ++ [to_bytes CRLF] ++ body' ++ [to_bytes CRLF]))) /\
    concat body' = Encode data.
Proof.
  apply (Part_Write_base64_source_failure Example.steady Sample.cut "utf-8"
           Example.start ExampleFacts.steady_accepts eq_refl).
  discriminate.
Defined.

Lemma Part_Write_base64_one_line_witness :
  exists body,
    Postbox.Part_Write Example.steady Example.body "utf-8" Example.start
    = Done None (extend Example.start (ok_writes
        (header_writes (range Example.steady (events Example.start)
                          (part_headers Example.body "utf-8"))
         ++ [to_bytes CRLF] ++ body ++ [to_bytes CRLF]))) /\
    length (concat body)
    = (4 * ((length (concat (chunks (Reader Example.body))) + 2) / 3))%nat /\
    Forall (fun c => is_base64_char c = true) (concat body) /\
    Forall (fun c => c <> "013"%char /\ c <> "010"%char) (concat body).
Proof.
  apply (Part_Write_base64_one_line Example.steady Example.body "utf-8"
           Example.start ExampleFacts.steady_accepts); reflexivity.
Defined.

Lemma Part_Write_quoted_printable_body_witness :
  let decoded := quotedprintable_NewReader (Reader Example.quoted) in
  let hdr := header_writes (range Example.steady (events Example.start)
                              (part_headers Example.quoted "utf-8")) in
  Postbox.Part_Write Example.steady Example.quoted "utf-8" Example.start =
  (if decide (ending decoded = EOF)
   then Done None (extend Example.start (ok_writes
          (hdr ++ [to_bytes CRLF] ++ reads decoded ++ [to_bytes CRLF])))
   else Done (Some (ending decoded))
          (extend Example.start
             (ok_writes (hdr ++ [to_bytes CRLF] ++ reads decoded)))) /\
  Unchecked.Part_Write Example.steady Example.quoted "utf-8" Example.start =
  Done tt (extend Example.start (ok_writes
    (hdr ++ [to_bytes CRLF] ++ reads decoded ++ [to_bytes CRLF]))) /\
  Forall (fun c : bytes => (0 < length c <= copy_buffer_size)%nat) (reads decoded).
Proof.
  apply (Part_Write_quoted_printable_body Example.steady Example.quoted "utf-8"
           Example.start ExampleFacts.steady_accepts eq_refl).
Defined.

Lemma Part_Write_quoted_printable_keeps_plain_text_witness :
  exists body,
    Postbox.Part_Write Example.steady Sample.note "utf-8" Example.start
    = Done None (extend Example.start (ok_writes
        (header_writes (range Example.steady (events Example.start)
                          (part_headers Sample.note "utf-8"))
         ++ [to_bytes CRLF] ++ body ++ [to_bytes CRLF]))) /\
    Unchecked.Part_Write Example.steady Sample.note "utf-8" Example.start
    = Done tt (extend Example.start (ok_writes
        (header_writes (range Example.steady (events Example.start)
                          (part_headers Sample.note "utf-8"))
         ++ [to_bytes CRLF] ++ body ++ [to_bytes CRLF]))) /\
    concat body = concat (chunks (Reader Sample.note)).
Proof.
  apply (Part_Write_quoted_printable_keeps_plain_text Example.steady Sample.note
           "utf-8" Example.start [Sample.first_line] Sample.second_line
           ExampleFacts.steady_accepts eq_refl eq_refl).
  - reflexivity.
  - constructor; [apply SampleFacts.first_line_plain|constructor].
  - apply SampleFacts.second_line_plain.
Defined.

Lemma NewBoundary_drops_errors_witness :
  let id := token Example.broken (draws Example.start) in
  let fields := field_writes ("Content-Type", ["multipart/mixed"; "boundary=" +:+ id]) in
  exists new r0 r new' r',
    Postbox.NewBoundary Example.broken "multipart/mixed" Example.start =
    Done (mkBoundary id)
      (mkWorld (events Example.start ++ new
                ++ [mkEvent (CWrite (to_bytes CRLF)) r])
         (S (draws Example.start))) /\
    stops_at fields new r0 /\
    Unchecked.NewBoundary Example.broken "multipart/mixed" Example.start =
    Done (mkBoundary id)
      (mkWorld (events Example.start ++ new'
                ++ [mkEvent (CWrite (to_bytes CRLF)) r'])
         (S (draws Example.start))) /\
    map ev_call new' = map CWrite fields.
Proof.
  apply (NewBoundary_drops_errors Example.broken "multipart/mixed" Example.start
           SampleFacts.broken_legal eq_refl).
Defined.

Lemma Envelope_Write_keeps_Date_witness :
  Postbox.Envelope_Write (at_time Example.steady 0%Z) Sample.stamped Example.start
  = Postbox.Envelope_Write Example.steady Sample.stamped Example.start /\
  Unchecked.Envelope_Write (at_time Example.steady 0%Z) Sample.stamped Example.start
  = Unchecked.Envelope_Write Example.steady Sample.stamped Example.start /\
  (forall e' r w',
     Postbox.Envelope_Write Example.steady Sample.stamped Example.start
     = Done (e', r) w' -> e' = Sample.stamped) /\
  (forall e' w',
     Unchecked.Envelope_Write Example.steady Sample.stamped Example.start
     = Done e' w' -> e' = Sample.stamped).
Proof.
  apply (Envelope_Write_keeps_Date Example.steady Sample.stamped Example.start
           0%Z eq_refl).
Defined.

Lemma Envelope_Write_header_fields_witness :
  exists order rest rest',
    order ≡ₚ envelope_fields (dated Example.reversed Sample.stamped) /\
    written (events (final (Postbox.Envelope_Write Example.reversed
                              Sample.stamped Example.start)))
    = written (events Example.start) ++ header_block order ++ rest /\
    written (events (final (Unchecked.Envelope_Write Example.reversed
                              Sample.stamped Example.start)))
    = written (events Example.start) ++ header_block order ++ rest'.
Proof.
  apply (Envelope_Write_header_fields Example.reversed Sample.stamped
           Example.start ExampleFacts.reversed_legal ExampleFacts.reversed_accepts).
Defined.

Lemma Envelope_Write_aborts_at_failing_part_witness :
  let mixed := token Example.steady (draws Example.start) in
  let related := token Example.steady (S (draws Example.start)) in
  let alternative := token Example.steady (S (S (draws Example.start))) in
  exists blocks block,
    Postbox.Envelope_Write Example.steady Sample.three Example.start =
    Done (dated Example.steady Sample.three, Some (ErrSource 2))
      (mkWorld
         (events Example.start ++ ok_writes
            (header_writes (range Example.steady (events Example.start)
                              (Postbox.envelope_headers
                                 (dated Example.steady Sample.three)))
             ++ declaration "multipart/mixed" mixed ++ [mark mixed]
             ++ declaration "multipart/related" related ++ [mark related]
             ++ declaration "multipart/alternative" alternative
             ++ concat (map (fun block => mark alternative :: block) blocks)
             ++ mark alternative :: block))
         (S (S (S (draws Example.start))))) /\
    Forall2 (part_block Example.steady (Charset Sample.three))
      [Example.body] blocks.
Proof.
  apply (Envelope_Write_aborts_at_failing_part Example.steady Sample.three
           Example.start [Example.body] Sample.lost [Example.quoted] (ErrSource 2)
           ExampleFacts.steady_legal ExampleFacts.steady_accepts
           SampleFacts.steady_random eq_refl).
  - constructor; [apply ExampleClean.body_clean|constructor].
  - apply SampleFacts.lost_failing.
Defined.

Lemma Envelope_Write_error_origin_witness :
  (exists pre c,
     events (final (Postbox.Envelope_Write Example.broken Example.mail
                      Example.start))
     = events Example.start ++ pre ++ [mkEvent c (Some (ErrDestination 1))]) \/
  (exists p, p ∈ Parts Example.mail /\ source_error p = Some (ErrDestination 1)).
Proof.
  apply (Envelope_Write_error_origin Example.broken Example.mail
           (dated Example.broken Example.mail) Example.start).
  vm_compute. reflexivity.
Defined.

Lemma Envelope_Write_wire_format_witness :
  exists bodies,
    let w' := final (Postbox.Envelope_Write Example.steady Example.mail
                       Example.start) in
    let mixed := token Example.steady (draws Example.start) in
    let related := token Example.steady (S (draws Example.start)) in
    let alternative := token Example.steady (S (S (draws Example.start))) in
    written (events w') =
    written (events Example.start)
    ++ header_block (range Example.steady (events Example.start)
                       (Postbox.envelope_headers
                          (dated Example.steady Example.mail)))
    ++ to_bytes ("Content-Type: multipart/mixed; boundary=" +:+ mixed
                 +:+ CRLF +:+ CRLF)
    ++ to_bytes ("--" +:+ mixed +:+ CRLF)
    ++ to_bytes ("Content-Type: multipart/related; boundary=" +:+ related
                 +:+ CRLF +:+ CRLF)
    ++ to_bytes ("--" +:+ related +:+ CRLF)
    ++ to_bytes ("Content-Type: multipart/alternative; boundary=" +:+ alternative
                 +:+ CRLF +:+ CRLF)
    ++ concat (map (fun body => to_bytes ("--" +:+ alternative +:+ CRLF) ++ body)
                 bodies)
    ++ to_bytes ("--" +:+ alternative +:+ "--" +:+ CRLF +:+ CRLF)
    ++ to_bytes ("--" +:+ related +:+ "--" +:+ CRLF +:+ CRLF)
    ++ to_bytes ("--" +:+ mixed +:+ "--" +:+ CRLF +:+ CRLF) /\
    length bodies = length (Parts Example.mail).
Proof.
  apply (proj1 (Envelope_Write_wire_format Example.steady Example.mail
                  Example.start ExampleFacts.steady_legal
                  ExampleFacts.steady_accepts)
           (dated Example.steady Example.mail)).
  vm_compute. reflexivity.
Defined.

Lemma Envelope_Write_refused_at_once_witness :
  exists name,
    name ∈ ["Date"; "From"; "To"; "Cc"; "Reply-To"; "Subject"; "Mime-Version"] /\
    Postbox.Envelope_Write Example.broken Example.mail Example.start =
    Done (dated Example.broken Example.mail, Some (ErrDestination 1))
      (extend Example.start
         [mkEvent (CWrite (to_bytes name)) (Some (ErrDestination 1))]).
Proof.
  apply (Envelope_Write_refused_at_once Example.broken Example.mail
           Example.start (ErrDestination 1) SampleFacts.broken_legal).
  reflexivity.
Defined.

Lemma Envelope_Write_variants_agree_witness :
  Unchecked.Envelope_Write Example.steady Example.mail Example.start
  = Done (dated Example.steady Example.mail)
      (final (Postbox.Envelope_Write Example.steady Example.mail Example.start)).
Proof.
  apply (Envelope_Write_variants_agree Example.steady Example.mail
           (dated Example.steady Example.mail) Example.start
           (final (Postbox.Envelope_Write Example.steady Example.mail
                     Example.start))
           ExampleFacts.steady_accepts).
  vm_compute. reflexivity.
Defined.

Lemma Envelope_Write_no_empty_write_witness :
  (exists new,
     events (final (Postbox.Envelope_Write Example.broken Example.mail
                      Example.start)) = events Example.start ++ new /\
     Forall carries_bytes new) /\
  (exists new,
     events (final (Unchecked.Envelope_Write Example.broken Example.mail
                      Example.start)) = events Example.start ++ new /\
     Forall carries_bytes new).
Proof.
  apply (Envelope_Write_no_empty_write Example.broken Example.mail Example.start
           SampleFacts.broken_legal).
Defined.

(** * Header lines, byte for byte *)

Lemma to_bytes_Join (values : list string) :
  to_bytes (strings_Join values "; ") = joined values.
Proof.
  induction values as [|v [|v' rest] IH].
  - done.
  - cbn. by rewrite app_nil_r.
  - change (strings_Join (v :: v' :: rest) "; ")
      with (v +:+ "; " +:+ strings_Join (v' :: rest) "; ").
    rewrite !to_bytes_app, IH. cbn [joined map concat].
    by rewrite <- !app_assoc.
Qed.

Lemma header_line_field_line f : to_bytes (header_line f) = field_line f.
Proof.
  destruct f as [name [|v values]]; unfold header_line, field_line; cbn [fst snd].
  - by rewrite !to_bytes_app.
  - by rewrite !to_bytes_app, to_bytes_Join.
Qed.

Lemma header_block_field_lines fs : header_block fs = field_lines fs.
Proof.
  unfold header_block, field_lines. induction fs as [|f fs IH]; [done|].
  cbn [map concat]. by rewrite IH, header_line_field_line.
Qed.



(** In either order the two fields of [Misleading.twins] give the same
    bytes: equal output does not tell the order of the visit. *)
Example same_bytes_in_two_orders :
  range Example.steady [] Misleading.twins
  <> range Example.reversed [] Misleading.twins /\
  field_lines (range Example.steady [] Misleading.twins)
  = field_lines (range Example.reversed [] Misleading.twins).
Proof. split; [by vm_compute|]. by vm_compute. Qed.

Section FieldLines.
Context `{TimeLib} (E : Env).
Hypothesis Hlegal : range_legal E.
Hypothesis Hacc : accepts_writes E.

Lemma Headers_Write_field_lines h w :
  Postbox.Headers_Write E h w
  = Done None (extend w (ok_writes (header_writes (range E (events w) h)))) /\
  Unchecked.Headers_Write E h w
  = Done tt (extend w (ok_writes (header_writes (range E (events w) h)))) /\
  written (ok_writes (header_writes (range E (events w) h)))
  = field_lines (range E (events w) h).
Proof.
  split; [by apply Headers_Write_accepted|].
  split; [by apply unchecked_Headers_Write_accepted|].
  by rewrite written_ok_writes, concat_header_writes, header_block_field_lines.
Qed.

Lemma range_once h t : NoDup (range E t h).*1.
Proof. rewrite (Hlegal t h). apply NoDup_fst_map_to_list. Qed.

Lemma Headers_Write_one_field h w name values :
  h !! name = Some values ->
  exists before after new,
    range E (events w) h = before ++ (name, values) :: after /\
    (name ∉ (before ++ after).*1) /\
    Postbox.Headers_Write E h w = Done None (extend w new) /\
    Unchecked.Headers_Write E h w = Done tt (extend w new) /\
    written new = field_lines before ++ field_line (name, values)
                  ++ field_lines after.
Proof.
  intros Hlook.
  destruct (Headers_Write_field E h w name values Hlegal Hacc Hlook)
    as (before & after & new & H1 & H2 & H3 & H4 & H5).
  exists before, after, new. repeat split; try done.
  by rewrite H5, !header_block_field_lines, header_line_field_line.
Qed.



End FieldLines.

(** * The claims on header lines *)

(** C8: a field with one or more values is written, once, as the line
    [Name: v1; v2; ...] and CRLF: the name, a colon and a space, the first
    value, every later value after a semicolon and a space, in the order
    of the list and verbatim, then CRLF (in both variants). *)
Theorem Headers_Write_joins_values `{TimeLib} (E : Env)
  (h : Headers) (w : World) (name : string) (values : list string) :
  range_legal E -> accepts_writes E ->
  h !! name = Some values -> values <> [] ->
  exists before after new,
    range E (events w) h = before ++ (name, values) :: after /\
    (name ∉ (before ++ after).*1) /\
    Postbox.Headers_Write E h w = Done None (extend w new) /\
    Unchecked.Headers_Write E h w = Done tt (extend w new) /\
    written new =
      field_lines before
      ++ (to_bytes name ++ [":"%char; " "%char]
          ++ to_bytes (hd EmptyString values)
          ++ concat (map (fun v => [";"%char; " "%char] ++ to_bytes v) (tl values))
          ++ ["013"%char; "010"%char])
      ++ field_lines after.
Proof.
  intros Hlegal Hacc Hlook Hne.
  destruct (Headers_Write_one_field E Hlegal Hacc h w name values Hlook)
    as (before & after & new & H1 & H2 & H3 & H4 & H5).
  exists before, after, new. repeat split; try done.
  rewrite H5. destruct values as [|v rest]; [done|].
  unfold field_line, joined. cbn [fst snd hd tl]. by rewrite <- !app_assoc.
Qed.

Lemma Headers_Write_joins_values_witness :
  exists before after new,
    range Example.steady (events Example.start) Example.recipients
      = before ++ ("To", ["bil@example.com"; "dan@example.com"]) :: after /\
    ("To" ∉ (before ++ after).*1) /\
    Postbox.Headers_Write Example.steady Example.recipients Example.start
      = Done None (extend Example.start new) /\
    Unchecked.Headers_Write Example.steady Example.recipients Example.start
      = Done tt (extend Example.start new) /\
    written new =
      field_lines before
      ++ to_bytes "To: bil@example.com; dan@example.com"
         ++ ["013"%char; "010"%char]
      ++ field_lines after.
Proof.
  apply (Headers_Write_joins_values Example.steady Example.recipients
           Example.start "To" ["bil@example.com"; "dan@example.com"]
           ExampleFacts.steady_legal ExampleFacts.steady_accepts).
  - vm_compute. reflexivity.
  - discriminate.
Defined.





(** C3, amended: the fields are written in the order in which the [range]
    over the map visits them, whatever that is: on a stream that accepts
    every write the bytes written are the lines of the entries in the
    order of that [range], one line for each entry of the map.  Two runs
    write the same lines, maybe in different orders, and the same bytes
    whenever their [range]s visit in the same order (in both variants). *)
Theorem Headers_Write_in_range_order `{TimeLib} (E1 E2 : Env)
  (h : Headers) (w1 w2 : World) :
  range_legal E1 -> range_legal E2 -> accepts_writes E1 -> accepts_writes E2 ->
  exists new1 new2,
    Postbox.Headers_Write E1 h w1 = Done None (extend w1 new1) /\
    Postbox.Headers_Write E2 h w2 = Done None (extend w2 new2) /\
    Unchecked.Headers_Write E1 h w1 = Done tt (extend w1 new1) /\
    Unchecked.Headers_Write E2 h w2 = Done tt (extend w2 new2) /\
    written new1 = field_lines (range E1 (events w1) h) /\
    written new2 = field_lines (range E2 (events w2) h) /\
    range E1 (events w1) h ≡ₚ map_to_list h /\
    range E2 (events w2) h ≡ₚ map_to_list h /\
    NoDup (range E1 (events w1) h).*1 /\
    NoDup (range E2 (events w2) h).*1 /\
    map field_line (range E1 (events w1) h)
    ≡ₚ map field_line (range E2 (events w2) h) /\
    (range E1 (events w1) h = range E2 (events w2) h ->
     written new1 = written new2).
Proof.
  intros Hl1 Hl2 Ha1 Ha2.
  destruct (Headers_Write_field_lines E1 Ha1 h w1) as (Hc1 & Hu1 & Hb1).
  destruct (Headers_Write_field_lines E2 Ha2 h w2) as (Hc2 & Hu2 & Hb2).
  exists (ok_writes (header_writes (range E1 (events w1) h))),
    (ok_writes (header_writes (range E2 (events w2) h))).
  repeat split; try done.
  - by apply range_once.
  - by apply range_once.
  - apply Permutation_map. by rewrite (Hl1 _ h), (Hl2 _ h).
  - intros Hsame. by rewrite Hb1, Hb2, Hsame.
Qed.

Lemma Headers_Write_in_range_order_witness :
  exists new1 new2,
    Postbox.Headers_Write Example.steady Example.recipients Example.start
      = Done None (extend Example.start new1) /\
    Postbox.Headers_Write Example.reversed Example.recipients Example.start
      = Done None (extend Example.start new2) /\
    Unchecked.Headers_Write Example.steady Example.recipients Example.start
      = Done tt (extend Example.start new1) /\
    Unchecked.Headers_Write Example.reversed Example.recipients Example.start
      = Done tt (extend Example.start new2) /\
    written new1
    = field_lines (range Example.steady (events Example.start) Example.recipients) /\
    written new2
    = field_lines (range Example.reversed (events Example.start) Example.recipients) /\
    range Example.steady (events Example.start) Example.recipients
    ≡ₚ map_to_list Example.recipients /\
    range Example.reversed (events Example.start) Example.recipients
    ≡ₚ map_to_list Example.recipients /\
    NoDup (range Example.steady (events Example.start) Example.recipients).*1 /\
    NoDup (range Example.reversed (events Example.start) Example.recipients).*1 /\
    map field_line (range Example.steady (events Example.start) Example.recipients)
    ≡ₚ map field_line
         (range Example.reversed (events Example.start) Example.recipients) /\
    (range Example.steady (events Example.start) Example.recipients
     = range Example.reversed (events Example.start) Example.recipients ->
     written new1 = written new2).
Proof.
  apply (Headers_Write_in_range_order Example.steady Example.reversed
           Example.recipients Example.start Example.start
           ExampleFacts.steady_legal ExampleFacts.reversed_legal
           ExampleFacts.steady_accepts ExampleFacts.reversed_accepts).
Defined.
